(** * Activity board: door grid, redraw bookkeeping and game loop

    A shallow embedding of [activity_board.py], [door.py] and
    [text_renderer.py] of the multipurpose display, and the properties of
    the door grid that the design document states about them.

    Python integers are [Z]; [//] and [%] are floor division and the
    remainder with the sign of the divisor, which is what [Z.div] and
    [Z.modulo] compute, with [ZeroDivisionError] written out.  The door
    list [self._doors] is a [list Door] read with stdpp's lookup and
    updated with [alter]; a reference to one of its elements (the local
    [selected_door]) is the position of that element.  Exceptions are the
    [Raise] results of an error monad, and the methods that mutate the
    board run in a state-and-error monad over [World]. *)

From Stdlib Require Import ZArith QArith.
From stdpp Require Import base tactics option list numbers strings.

Local Open Scope Z_scope.

(** ** Exceptions and the two monads *)

Inductive Exn : Type :=
| RuntimeError (msg : string)
| IndexError
| ZeroDivisionError
| ValueError
| UnboundLocalError.

Inductive result (A : Type) : Type :=
| Ok (a : A)
| Raise (e : Exn).
Arguments Ok {A} a.
Arguments Raise {A} e.

#[global] Instance result_ret : MRet result := fun A a => Ok a.
#[global] Instance result_bind : MBind result := fun A B f m =>
  match m with
  | Ok a => f a
  | Raise e => Raise e
  end.

Definition is_Ok {A} (r : result A) : Prop := exists a, r = Ok a.

(** [a // b] and [a % b] *)
Definition py_floordiv (a b : Z) : result Z :=
  if decide (b = 0) then Raise ZeroDivisionError else Ok (a `div` b).

Definition py_mod (a b : Z) : result Z :=
  if decide (b = 0) then Raise ZeroDivisionError else Ok (a `mod` b).

(** [l[i]] for a Python list: positions count from the end when [i] is
    negative, and an index outside [-len(l) .. len(l)-1] raises. *)
Definition py_pos (len : nat) (i : Z) : result nat :=
  if decide (0 <= i < Z.of_nat len) then Ok (Z.to_nat i)
  else if decide (- Z.of_nat len <= i < 0) then Ok (Z.to_nat (Z.of_nat len + i))
  else Raise IndexError.

(** ** Enumerations of [ActivityBoard] *)

Inductive State : Type :=
| START | SELECTING | IN_PROGRESS | ALL_REVEALED | GAME_OVER.

Inductive Action : Type :=
| UP | DOWN | LEFT | RIGHT | OPEN | RETURN | REVEAL | RESTART | QUIT.

#[global] Instance State_eq_dec : EqDecision State.
Proof. solve_decision. Defined.
#[global] Instance Action_eq_dec : EqDecision Action.
Proof. solve_decision. Defined.

(** ** Doors ([door.py]) *)

Definition Color := string.
Definition Font := (string * Z)%type.

Record DoorProperties : Type := {
  bg_color : Color;
  door_color : Color;
  ellipse_color : Color;
  number_color : Color;
  cross_color : Color;
  selection_color : Color;
  activity_color : Color;
  unused_color : Color;
  activity_font : Font;
  line_spacing : Z;
  number_font : Font;
  border_size : Z;
  ellipse_margin : Z;
  cross_width : Z;
  cross_offset : Z;
  open_step_time : Q
}.

Record Door : Type := {
  index : Z;
  height : Z;
  width : Z;
  activity : string;
  props : DoorProperties;
  is_selected : bool;
  is_open : bool;
  is_revealed : bool;
  is_hidden : bool;
  is_updated : bool;
  pct_open : Z
}.

(** [Door.__init__]: a new door is flagged for drawing and fully closed. *)
Definition Door_init (index height width : Z) (activity : string)
    (props : DoorProperties) (is_hidden : bool) : Door :=
  {| index := index; height := height; width := width;
     activity := activity; props := props;
     is_selected := false; is_open := false; is_revealed := false;
     is_hidden := is_hidden;
     is_updated := true;
     pct_open := 0 |}.

(** Attribute assignments [d.attr = v]. *)
Definition set_is_selected (v : bool) (d : Door) : Door :=
  {| index := index d; height := height d; width := width d;
     activity := activity d; props := props d;
     is_selected := v; is_open := is_open d; is_revealed := is_revealed d;
     is_hidden := is_hidden d; is_updated := is_updated d;
     pct_open := pct_open d |}.

Definition set_is_open (v : bool) (d : Door) : Door :=
  {| index := index d; height := height d; width := width d;
     activity := activity d; props := props d;
     is_selected := is_selected d; is_open := v; is_revealed := is_revealed d;
     is_hidden := is_hidden d; is_updated := is_updated d;
     pct_open := pct_open d |}.

Definition set_is_revealed (v : bool) (d : Door) : Door :=
  {| index := index d; height := height d; width := width d;
     activity := activity d; props := props d;
     is_selected := is_selected d; is_open := is_open d; is_revealed := v;
     is_hidden := is_hidden d; is_updated := is_updated d;
     pct_open := pct_open d |}.

Definition set_is_hidden (v : bool) (d : Door) : Door :=
  {| index := index d; height := height d; width := width d;
     activity := activity d; props := props d;
     is_selected := is_selected d; is_open := is_open d;
     is_revealed := is_revealed d;
     is_hidden := v; is_updated := is_updated d;
     pct_open := pct_open d |}.

Definition set_is_updated (v : bool) (d : Door) : Door :=
  {| index := index d; height := height d; width := width d;
     activity := activity d; props := props d;
     is_selected := is_selected d; is_open := is_open d;
     is_revealed := is_revealed d;
     is_hidden := is_hidden d; is_updated := v;
     pct_open := pct_open d |}.

Definition set_pct_open (v : Z) (d : Door) : Door :=
  {| index := index d; height := height d; width := width d;
     activity := activity d; props := props d;
     is_selected := is_selected d; is_open := is_open d;
     is_revealed := is_revealed d;
     is_hidden := is_hidden d; is_updated := is_updated d;
     pct_open := v |}.

(** What [get_door_surface] puts on the door's surface, in drawing order.
    The pixel geometry (rectangles, centring, the crop of the partly open
    window) is a function of the door's size and of the value carried by
    the command. *)
Inductive DrawCmd : Type :=
| Fill (c : Color)
| FillInterior (c : Color)
| Cross (c : Color)
| BlitActivity (text_color : Color) (text : string)
| Ellipse (c : Color)
| BlitNumber (c : Color) (n : Z)
| BlitOpenWindow (text_color : Color) (text : string) (pct : Z).

Definition Surface := list DrawCmd.

Definition get_door_surface (self : Door) : Surface :=
  let p := props self in
  if is_hidden self then
    [Fill (bg_color p)]
  else if is_open self && negb (is_revealed self) then
    [Fill (if is_selected self then selection_color p else bg_color p);
     FillInterior (bg_color p);
     Cross (cross_color p)]
  else if is_revealed self then
    let text_color :=
      if is_open self then activity_color p else unused_color p in
    [Fill (bg_color p); BlitActivity text_color (activity self)]
  else
    [Fill (if is_selected self then selection_color p else bg_color p);
     FillInterior (door_color p);
     Ellipse (ellipse_color p);
     BlitNumber (number_color p) (index self + 1)]
    ++ (if decide (pct_open self > 0)
        then [BlitOpenWindow (activity_color p) (activity self) (pct_open self)]
        else []).

(** ** Text rendering ([text_renderer.py]) *)

(** [text.split(sep)] for a separator of one character: the pieces
    between the occurrences of [sep], one piece more than there are
    occurrences.  The backtick is an ASCII character, so splitting the
    bytes of a text splits its characters. *)
Fixpoint split_on (sep : Ascii.ascii) (text : string) : list string :=
  match text with
  | EmptyString => [EmptyString]
  | String c rest =>
      if decide (c = sep) then EmptyString :: split_on sep rest
      else match split_on sep rest with
           | [] => [String c EmptyString]
           | piece :: pieces => String c piece :: pieces
           end
  end.

(** The separator of the lines of an activity: the backtick, character
    96. *)
Definition backtick : Ascii.ascii :=
  Ascii.Ascii false false false false false true true false.

Module TextRenderer.

Record t : Type := {
  font : Font;
  line_spacing : Z;
  text_color : Color
}.

(** A rendered line: its text and colour, and the width and height of
    its surface. *)
Record LineSurface : Type := {
  line_text : string;
  line_color : Color;
  line_width : Z;
  line_height : Z
}.

(** The surface that [render_surface] returns: its size and the lines
    blitted onto it, each with the position of its top left corner. *)
Record TextSurface : Type := {
  surf_width : Z;
  surf_height : Z;
  blits : list (LineSurface * Z * Z)
}.

Section Render.
(** [size f s] is the size of the surface that [pygame.font.Font.render]
    returns for the line [s] in the font [f]. *)
Variable size : Font → string → Z * Z.

Definition font_render (self : t) (line : string) : LineSurface :=
  {| line_text := line; line_color := text_color self;
     line_width := (size (font self) line).1;
     line_height := (size (font self) line).2 |}.

(** The first loop: [total_height] and [max_width]. *)
Definition measure (acc : Z * Z) (ts : LineSurface) : Z * Z :=
  let '(total_height, max_width) := acc in
  (total_height + line_height ts,
   if decide (line_width ts > max_width) then line_width ts else max_width).

(** The second loop: [y] and the blits made so far. *)
Definition place (max_width spacing : Z)
    (acc : Z * list (LineSurface * Z * Z)) (ts : LineSurface)
    : Z * list (LineSurface * Z * Z) :=
  let '(y, done) := acc in
  (y + line_height ts + spacing,
   done ++ [(ts, (max_width - line_width ts) `div` 2, y)]).

Definition render_surface (self : t) (text : string) : TextSurface :=
  let text_lines := split_on backtick text in
  let text_surfaces := font_render self <$> text_lines in
  let '(total_height, max_width) := foldl measure (0, 0) text_surfaces in
  let total_height :=
    total_height
    + (Z.of_nat (length text_surfaces) - 1) * line_spacing self in
  let '(_, placed) :=
    foldl (place max_width (line_spacing self)) (0, []) text_surfaces in
  {| surf_width := max_width; surf_height := total_height;
     blits := placed |}.

End Render.

End TextRenderer.

(** ** The board *)

Definition Sound := string.

Record Board : Type := {
  surface_width : Z;
  surface_height : Z;
  doors_horiz : Z;
  doors_vert : Z;
  start_hidden : bool;
  surface_is_display : bool;
  board_bg_color : Color;
  door_props : DoorProperties;
  move_sounds : list Sound;
  open_sounds : list Sound;
  oops_sounds : list Sound;
  start_sounds : list Sound;
  reveal_all_sounds : list Sound;
  intro_step_time : Q
}.

Definition num_doors (self : Board) : Z := doors_horiz self * doors_vert self.

Definition door_width (self : Board) : result Z :=
  py_floordiv (surface_width self) (doors_horiz self).

Definition door_height (self : Board) : result Z :=
  py_floordiv (surface_height self) (doors_vert self).

Definition _door_x_coord (self : Board) (index : Z) : result Z :=
  c ← py_mod index (doors_horiz self);
  w ← door_width self;
  mret (c * w).

Definition _door_y_coord (self : Board) (index : Z) : result Z :=
  r ← py_floordiv index (doors_horiz self);
  h ← door_height self;
  mret (r * h).

(** [_get_new_selection]: the door index reached from [door] by [action]. *)
Definition _get_new_selection (self : Board) (door : Door) (action : Action)
    : result Z :=
  let old_index := index door in
  old_index_h ← py_mod old_index (doors_horiz self);
  old_index_v ← py_floordiv old_index (doors_horiz self);
  let new_index_h := old_index_h in
  let new_index_v := old_index_v in
  let '(new_index_h, new_index_v) :=
    match action with
    | UP => (new_index_h, old_index_v - 1)
    | DOWN => (new_index_h, old_index_v + 1)
    | LEFT => (old_index_h - 1, new_index_v)
    | RIGHT => (old_index_h + 1, new_index_v)
    | _ => (new_index_h, new_index_v)
    end in
  let new_index_h :=
    if decide (new_index_h < 0) then old_index_h else new_index_h in
  let new_index_h :=
    if decide (new_index_h > doors_horiz self - 1) then old_index_h
    else new_index_h in
  let new_index_v :=
    if decide (new_index_v < 0) then 0 else new_index_v in
  let new_index_v :=
    if decide (new_index_v > doors_vert self - 1) then old_index_v
    else new_index_v in
  let new_index := new_index_v * doors_horiz self + new_index_h in
  mret new_index.

(** ** The world the board runs in

    [doors] and [activities] are the lists [self._doors] and
    [self._activities]; [state] is [self._state]; [selected_door] and
    [play_again] are the locals of [run], [None] while unbound.  The
    environment is an oracle for [random.choice] ([rng k] decides the
    [k]-th draw), the batches that the successive calls of
    [pygame.event.get()] return, each event already translated by
    [_translate_action], and the [trace] of what was played and drawn. *)

Definition Batch := list (option Action).
Definition Ref := nat.

Inductive Effect : Type :=
| PlaySound (s : Sound)
| Blit (surf : Surface) (x y : Z)
| FillScreen (c : Color)
| BlitActivityScreen (text : string)
| DisplayUpdate
| Sleep (t : Q)
| EventClear.

Record World : Type := {
  doors : list Door;
  activities : list string;
  state : State;
  selected_door : option Ref;
  play_again : option bool;
  trace : list Effect;
  rng : nat -> nat;
  rng_calls : nat;
  events : list Batch
}.

Definition with_doors (v : list Door) (w : World) : World :=
  {| doors := v; activities := activities w; state := state w;
     selected_door := selected_door w; play_again := play_again w;
     trace := trace w; rng := rng w; rng_calls := rng_calls w;
     events := events w |}.

Definition with_activities (v : list string) (w : World) : World :=
  {| doors := doors w; activities := v; state := state w;
     selected_door := selected_door w; play_again := play_again w;
     trace := trace w; rng := rng w; rng_calls := rng_calls w;
     events := events w |}.

Definition with_state (v : State) (w : World) : World :=
  {| doors := doors w; activities := activities w; state := v;
     selected_door := selected_door w; play_again := play_again w;
     trace := trace w; rng := rng w; rng_calls := rng_calls w;
     events := events w |}.

Definition with_selected_door (v : option Ref) (w : World) : World :=
  {| doors := doors w; activities := activities w; state := state w;
     selected_door := v; play_again := play_again w;
     trace := trace w; rng := rng w; rng_calls := rng_calls w;
     events := events w |}.

Definition with_play_again (v : option bool) (w : World) : World :=
  {| doors := doors w; activities := activities w; state := state w;
     selected_door := selected_door w; play_again := v;
     trace := trace w; rng := rng w; rng_calls := rng_calls w;
     events := events w |}.

Definition with_trace (v : list Effect) (w : World) : World :=
  {| doors := doors w; activities := activities w; state := state w;
     selected_door := selected_door w; play_again := play_again w;
     trace := v; rng := rng w; rng_calls := rng_calls w;
     events := events w |}.

Definition with_rng_calls (v : nat) (w : World) : World :=
  {| doors := doors w; activities := activities w; state := state w;
     selected_door := selected_door w; play_again := play_again w;
     trace := trace w; rng := rng w; rng_calls := v;
     events := events w |}.

Definition with_events (v : list Batch) (w : World) : World :=
  {| doors := doors w; activities := activities w; state := state w;
     selected_door := selected_door w; play_again := play_again w;
     trace := trace w; rng := rng w; rng_calls := rng_calls w;
     events := v |}.

Definition M (A : Type) : Type := World -> result (A * World).

#[global] Instance M_ret : MRet M := fun A a w => Ok (a, w).
#[global] Instance M_bind : MBind M := fun A B f m w =>
  match m w with
  | Ok (a, w') => f a w'
  | Raise e => Raise e
  end.

Definition gets {A} (f : World -> A) : M A := fun w => Ok (f w, w).
Definition modify (f : World -> World) : M unit := fun w => Ok (tt, f w).
Definition raise {A} (e : Exn) : M A := fun _ => Raise e.
Definition lift {A} (r : result A) : M A := fun w =>
  match r with
  | Ok a => Ok (a, w)
  | Raise e => Raise e
  end.

Definition emit (e : Effect) : M unit :=
  modify (fun w => with_trace (trace w ++ [e]) w).

(** [for x in xs: body(x)] *)
Fixpoint for_each {A} (xs : list A) (body : A -> M unit) : M unit :=
  match xs with
  | [] => mret tt
  | x :: rest => body x ;; for_each rest body
  end.

(** [range(start, stop, step)] for a positive [step], and [range(n)] *)
Definition py_range3 (start stop step : Z) : list Z :=
  (fun k => start + step * k) <$> seqZ 0 ((stop - start + step - 1) `div` step).

Definition py_range (n : Z) : list Z := seqZ 0 n.

(** [random.choice(seq)]: some element of a sequence that is not empty. *)
Definition random_choice {A} (seq : list A) : M A := fun w =>
  match seq with
  | [] => Raise IndexError
  | _ :: _ =>
      match seq !! (rng w (rng_calls w) `mod` length seq)%nat with
      | Some x => Ok (x, with_rng_calls (S (rng_calls w)) w)
      | None => Raise IndexError
      end
  end.

(** [l.remove(x)] drops the first element equal to [x]. *)
Fixpoint py_remove {A} `{EqDecision A} (x : A) (l : list A) : result (list A) :=
  match l with
  | [] => Raise ValueError
  | y :: rest =>
      if decide (x = y) then Ok rest
      else rest' ← py_remove x rest; mret (y :: rest')
  end.

(** Reading and assigning through a reference to a door of [self._doors],
    and [self._doors[i]]. *)
Definition read (r : Ref) : M Door := fun w =>
  match doors w !! r with
  | Some d => Ok (d, w)
  | None => Raise IndexError
  end.

Definition assign (r : Ref) (f : Door -> Door) : M unit :=
  modify (fun w => with_doors (alter f r (doors w)) w).

Definition doors_getitem (i : Z) : M Ref :=
  n ← gets (fun w => length (doors w));
  lift (py_pos n i).

(** [for d in self._doors] visits the positions of the list in order. *)
Definition for_each_door (body : Ref -> M unit) : M unit :=
  n ← gets (fun w => length (doors w));
  for_each (seq 0 n) body.

(** ** Construction *)

(** The [DoorProperties] object built for each door: the board's
    background colour and the [door] section of the configuration. *)
Definition make_props (self : Board) : DoorProperties :=
  let c := door_props self in
  {| bg_color := board_bg_color self;
     door_color := door_color c;
     ellipse_color := ellipse_color c;
     number_color := number_color c;
     cross_color := cross_color c;
     selection_color := selection_color c;
     activity_color := activity_color c;
     unused_color := unused_color c;
     activity_font := activity_font c;
     line_spacing := line_spacing c;
     number_font := number_font c;
     border_size := border_size c;
     ellipse_margin := ellipse_margin c;
     cross_width := cross_width c;
     cross_offset := cross_offset c;
     open_step_time := open_step_time c |}.

(** The body of the loop of [_build_door_list], for the indices [idxs] that
    remain.  [activities] is the list object that [__init__] passes in,
    which is [self._activities] itself: the removal is seen there. *)
Fixpoint build_doors_from (self : Board) (doors_hidden : bool)
    (idxs : list Z) (doors : list Door) : M (list Door) :=
  match idxs with
  | [] => mret doors
  | i :: rest =>
      let props := make_props self in
      pool ← gets activities;
      activity ← random_choice pool;
      pool' ← lift (py_remove activity pool);
      modify (with_activities pool');;
      h ← lift (door_height self);
      w ← lift (door_width self);
      build_doors_from self doors_hidden rest
        (doors ++ [Door_init i h w activity props doors_hidden])
  end.

Definition _build_door_list (self : Board) (doors_hidden : bool)
    : M (list Door) :=
  build_doors_from self doors_hidden (py_range (num_doors self)) [].

(** [ActivityBoard.__init__] on the attributes [self] that it copies from
    its arguments and on the lines [pool] that [_read_activities] returns. *)
Definition ActivityBoard_init (self : Board) (pool : list string) : M unit :=
  rw ← lift (py_mod (surface_width self) (doors_horiz self));
  (if decide (rw ≠ 0)
   then raise (RuntimeError
     "surface width must be an integer multiple of doors_horiz")
   else mret tt);;
  rh ← lift (py_mod (surface_height self) (doors_vert self));
  (if decide (rh ≠ 0)
   then raise (RuntimeError
     "surface height must be an integer multiple of doors_vert")
   else mret tt);;
  modify (with_activities pool);;
  ds ← _build_door_list self (start_hidden self);
  modify (with_doors ds).

(** The world before the constructor has run. *)
Definition fresh_world (oracle : nat -> nat) (polls : list Batch) : World :=
  {| doors := []; activities := []; state := START;
     selected_door := None; play_again := None;
     trace := []; rng := oracle; rng_calls := 0%nat; events := polls |}.

(** ** Drawing *)

Definition _play_random_sound (sound_list : list Sound) : M unit :=
  sound ← random_choice sound_list;
  emit (PlaySound sound).

Definition display_update (self : Board) : M unit :=
  if surface_is_display self then emit DisplayUpdate else mret tt.

Definition _draw_door (self : Board) (door : Ref) (update_display : bool)
    : M unit :=
  d ← read door;
  let door_surface := get_door_surface d in
  x ← lift (_door_x_coord self (index d));
  y ← lift (_door_y_coord self (index d));
  emit (Blit door_surface x y);;
  if update_display then display_update self else mret tt.

Definition _draw_updated_doors (self : Board) : M unit :=
  for_each_door (fun d =>
    dv ← read d;
    if is_updated dv then
      _draw_door self d false;;
      assign d (set_is_updated false)
    else mret tt);;
  display_update self.

Definition _draw_all_doors (self : Board) : M unit :=
  for_each_door (fun d =>
    _draw_door self d false;;
    assign d (set_is_updated false));;
  display_update self.

Definition _show_activity (self : Board) (door : Ref) : M unit :=
  d ← read door;
  emit (FillScreen (board_bg_color self));;
  emit (BlitActivityScreen (activity d));;
  display_update self.

(** ** Animations *)

(** The [while intro_show_list] loop of [_animate_intro].  Each round
    removes one element, so [fuel] rounds suffice for a list of length
    [fuel]; with no fuel left the loop is cut. *)
Fixpoint intro_loop (self : Board) (fuel : nat) (intro_show_list : list Z)
    : M unit :=
  match intro_show_list, fuel with
  | [], _ => mret tt
  | _ :: _, O => mret tt
  | _ :: _, S fuel' =>
      intro_show_index ← random_choice intro_show_list;
      d ← doors_getitem intro_show_index;
      assign d (set_is_hidden false);;
      assign d (set_is_updated true);;
      _draw_updated_doors self;;
      rest ← lift (py_remove intro_show_index intro_show_list);
      emit (Sleep (intro_step_time self));;
      intro_loop self fuel' rest
  end.

Definition _animate_intro (self : Board) : M unit :=
  _draw_all_doors self;;
  let intro_show_list := py_range (num_doors self) in
  intro_loop self (length intro_show_list) intro_show_list.

Definition _animate_open (self : Board) (door : Ref) : M unit :=
  for_each (py_range3 2 102 2) (fun i =>
    assign door (set_pct_open i);;
    _draw_door self door true;;
    d ← read door;
    emit (Sleep (open_step_time (props d)))).

Definition _animate_open_all (self : Board) : M unit :=
  for_each_door (fun d =>
    dv ← read d;
    if is_open dv then
      assign d (set_is_revealed true);;
      assign d (set_is_updated true)
    else mret tt);;
  _draw_updated_doors self;;
  for_each (py_range3 5 105 5) (fun i =>
    for_each_door (fun d =>
      dv ← read d;
      if negb (is_open dv) then
        assign d (set_pct_open i);;
        assign d (set_is_updated true)
      else mret tt);;
    _draw_updated_doors self);;
  for_each_door (fun d =>
    assign d (set_is_revealed true);;
    assign d (set_is_updated true));;
  _draw_updated_doors self.

(** ** The game loop *)

Definition get_selected_door : M Ref := fun w =>
  match selected_door w with
  | Some r => Ok (r, w)
  | None => Raise UnboundLocalError
  end.

Definition get_play_again : M bool := fun w =>
  match play_again w with
  | Some b => Ok (b, w)
  | None => Raise UnboundLocalError
  end.

(** [pygame.event.get()]: the next batch of events, none when nothing is
    pending. *)
Definition pygame_event_get : M Batch := fun w =>
  match events w with
  | [] => Ok ([], w)
  | b :: rest => Ok (b, with_events rest w)
  end.

(** The [START] branch. *)
Definition on_start (self : Board) : M unit :=
  _play_random_sound (start_sounds self);;
  (if start_hidden self then _animate_intro self else _draw_all_doors self);;
  d ← doors_getitem 0;
  assign d (set_is_selected true);;
  d ← doors_getitem 0;
  assign d (set_is_updated true);;
  d ← doors_getitem 0;
  modify (with_selected_door (Some d));;
  _draw_updated_doors self;;
  modify (with_state SELECTING);;
  emit EventClear.

(** The directional case of the [SELECTING] branch. *)
Definition on_move (self : Board) (action : Action) : M unit :=
  sd ← get_selected_door;
  d ← read sd;
  new_index ← lift (_get_new_selection self d action);
  (if decide (new_index ≠ index d) then
     assign sd (set_is_selected false);;
     assign sd (set_is_updated true);;
     n ← doors_getitem new_index;
     assign n (set_is_selected true);;
     n ← doors_getitem new_index;
     assign n (set_is_updated true);;
     n ← doors_getitem new_index;
     modify (with_selected_door (Some n));;
     _play_random_sound (move_sounds self);;
     _draw_updated_doors self
   else mret tt);;
  emit EventClear.

(** The body of [for event in pygame.event.get()] in the [SELECTING]
    branch, on the action that the event translates to. *)
Definition on_selecting_event (self : Board) (action : option Action)
    : M unit :=
  match action with
  | Some OPEN =>
      sd ← get_selected_door;
      d ← read sd;
      (if negb (is_open d) then
         _play_random_sound (open_sounds self);;
         _animate_open self sd;;
         _show_activity self sd;;
         assign sd (set_is_open true);;
         modify (with_state IN_PROGRESS)
       else
         _play_random_sound (oops_sounds self));;
      emit EventClear
  | Some RESTART =>
      modify (with_play_again (Some true));;
      modify (with_state GAME_OVER);;
      emit EventClear
  | Some QUIT =>
      modify (with_play_again (Some false));;
      modify (with_state GAME_OVER);;
      emit EventClear
  | Some REVEAL =>
      _play_random_sound (reveal_all_sounds self);;
      _animate_open_all self;;
      modify (with_state ALL_REVEALED);;
      emit EventClear
  | Some UP => on_move self UP
  | Some DOWN => on_move self DOWN
  | Some LEFT => on_move self LEFT
  | Some RIGHT => on_move self RIGHT
  | Some RETURN | None => mret tt
  end.

Definition on_in_progress_event (self : Board) (action : option Action)
    : M unit :=
  match action with
  | Some RETURN =>
      _draw_all_doors self;;
      modify (with_state SELECTING);;
      emit EventClear
  | _ => mret tt
  end.

Definition on_all_revealed_event (self : Board) (action : option Action)
    : M unit :=
  match action with
  | Some RESTART =>
      modify (with_play_again (Some true));;
      modify (with_state GAME_OVER);;
      emit EventClear
  | Some QUIT =>
      modify (with_play_again (Some false));;
      modify (with_state GAME_OVER);;
      emit EventClear
  | _ => mret tt
  end.

(** One pass through the body of the [while] loop.  A branch that polls
    handles every event of the batch it fetched, whatever [self._state]
    has become meanwhile. *)
Definition run_iteration (self : Board) : M unit :=
  st ← gets state;
  match st with
  | START => on_start self
  | SELECTING =>
      batch ← pygame_event_get;
      for_each batch (on_selecting_event self)
  | IN_PROGRESS =>
      batch ← pygame_event_get;
      for_each batch (on_in_progress_event self)
  | ALL_REVEALED =>
      batch ← pygame_event_get;
      for_each batch (on_all_revealed_event self)
  | GAME_OVER => mret tt
  end.

(** [while self._state is not GAME_OVER], cut after [fuel] passes: [None]
    says that the loop is still running then. *)
Fixpoint run_loop (self : Board) (fuel : nat) : M (option bool) :=
  st ← gets state;
  if decide (st = GAME_OVER) then
    b ← get_play_again;
    mret (Some b)
  else
    match fuel with
    | O => mret None
    | S fuel' => run_iteration self;; run_loop self fuel'
    end.

(** [run]: the locals start unbound and the machine in [START]. *)
Definition run_entry (w : World) : World :=
  with_state START (with_play_again None (with_selected_door None w)).

Definition run (self : Board) (fuel : nat) : M (option bool) :=
  modify run_entry;;
  run_loop self fuel.

(** ** Vocabulary of the properties *)

(** A board whose grid sizes are not zero, as construction ensures. *)
Definition board_ok (self : Board) : Prop :=
  doors_horiz self ≠ 0 ∧ doors_vert self ≠ 0.

Definition row_of (self : Board) (i : Z) : Z := i `div` doors_horiz self.
Definition col_of (self : Board) (i : Z) : Z := i `mod` doors_horiz self.

Definition is_direction (a : Action) : bool :=
  match a with
  | UP | DOWN | LEFT | RIGHT => true
  | _ => false
  end.

(** Change of row and of column that a direction asks for. *)
Definition d_row (a : Action) : Z :=
  match a with UP => -1 | DOWN => 1 | _ => 0 end.
Definition d_col (a : Action) : Z :=
  match a with LEFT => -1 | RIGHT => 1 | _ => 0 end.

(** The door [i] lies on the edge of the grid that [a] moves towards. *)
Definition at_edge (self : Board) (i : Z) (a : Action) : Prop :=
  match a with
  | UP => row_of self i = 0
  | DOWN => row_of self i = doors_vert self - 1
  | LEFT => col_of self i = 0
  | RIGHT => col_of self i = doors_horiz self - 1
  | _ => False
  end.

Fixpoint count_selected (ds : list Door) : nat :=
  match ds with
  | [] => O
  | d :: rest => ((if is_selected d then 1 else 0) + count_selected rest)%nat
  end.

(** The worlds that [run] goes through on a board, from the world [w0] in
    which it is called: after each event of a batch, and after each pass
    of the loop. *)
Inductive reachable (self : Board) (w0 : World) : World -> Prop :=
| reach_entry : reachable self w0 (run_entry w0)
| reach_start w w' :
    reachable self w0 w -> state w = START ->
    on_start self w = Ok (tt, w') -> reachable self w0 w'
| reach_poll w b w' :
    reachable self w0 w -> state w ≠ START ->
    pygame_event_get w = Ok (b, w') -> reachable self w0 w'
| reach_selecting w a w' :
    reachable self w0 w -> state w ≠ START ->
    on_selecting_event self a w = Ok (tt, w') -> reachable self w0 w'
| reach_in_progress w a w' :
    reachable self w0 w -> state w ≠ START ->
    on_in_progress_event self a w = Ok (tt, w') -> reachable self w0 w'
| reach_all_revealed w a w' :
    reachable self w0 w -> state w ≠ START ->
    on_all_revealed_event self a w = Ok (tt, w') -> reachable self w0 w'.

(** [w0] is what construction of the board [self] leaves. *)
Definition constructed (self : Board) (w0 : World) : Prop :=
  ∃ pool oracle polls,
    ActivityBoard_init self pool (fresh_world oracle polls) = Ok (tt, w0).

(** What a drawing pass never touches on a door. *)
Definition keeps (d d' : Door) : Prop :=
  index d' = index d ∧ height d' = height d ∧ width d' = width d ∧
  activity d' = activity d ∧ props d' = props d ∧
  is_selected d' = is_selected d ∧ is_open d' = is_open d ∧
  is_hidden d' = is_hidden d.

(** [w'] differs from [w] at most in the doors, in what was drawn and
    played, and in how many random draws were made. *)
Definition steady (w w' : World) : Prop :=
  activities w' = activities w ∧ state w' = state w ∧
  selected_door w' = selected_door w ∧ play_again w' = play_again w ∧
  rng w' = rng w ∧ events w' = events w.

(** [m] succeeds wherever the reference [r] denotes a door, replaces that
    door by one related to it by [R], and leaves the other doors alone. *)
Definition step_at (r : Ref) (m : M unit) (R : Door -> Door -> Prop) : Prop :=
  ∀ w d, doors w !! r = Some d →
    ∃ w' d', m w = Ok (tt, w') ∧ doors w' = <[r := d']> (doors w) ∧
             R d d' ∧ steady w w'.

(** [m] succeeds and relates every door to what it becomes by [R]. *)
Definition pass (m : M unit) (R : Door -> Door -> Prop) : Prop :=
  ∀ w, ∃ w', m w = Ok (tt, w') ∧ Forall2 R (doors w) (doors w') ∧
             steady w w'.

(** What one step of [_animate_open] shows: the door drawn at [pct], the
    display flipped, the pause. *)
Definition open_frame (self : Board) (d : Door) (x y : Z) (pct : Z)
    : list Effect :=
  [Blit (get_door_surface (set_pct_open pct d)) x y]
  ++ (if surface_is_display self then [DisplayUpdate] else [])
  ++ [Sleep (open_step_time (props d))].

(** What a door that [_build_door_list] made looks like. *)
Definition fresh_door (self : Board) (hidden : bool) (i : Z) (d : Door)
    : Prop :=
  index d = i ∧ props d = make_props self ∧
  is_selected d = false ∧ is_open d = false ∧ is_revealed d = false ∧
  is_hidden d = hidden ∧ is_updated d = true ∧ pct_open d = 0.

(** The flags that decide which doors are shown and which is selected. *)
Definition same_flags (d d' : Door) : Prop :=
  is_selected d' = is_selected d ∧ is_hidden d' = is_hidden d.

(** Partial correctness: whatever [m] returns from [w] satisfies [Q]. *)
Definition post {A} (m : M A) (w : World) (Q : A -> World -> Prop) : Prop :=
  ∀ a w', m w = Ok (a, w') → Q a w'.

Definition none_selected (ds : list Door) : Prop :=
  Forall (λ d, is_selected d = false) ds.

(** The door at position [k], and no other, is selected. *)
Definition only_selected (k : nat) (ds : list Door) : Prop :=
  (k < length ds)%nat ∧
  ∀ i d, ds !! i = Some d → (is_selected d = true ↔ i = k).

Definition none_hidden (ds : list Door) : Prop :=
  Forall (λ d, is_hidden d = false) ds.

(** The cursor: [selected_door] refers to the one selected door, and
    every door is shown. *)
Definition cursor_ok (w : World) : Prop :=
  (∃ k, selected_door w = Some k ∧ only_selected k (doors w)) ∧
  none_hidden (doors w).

(** What holds of the worlds of a run on a constructed board. *)
Definition run_inv (self : Board) (w : World) : Prop :=
  board_ok self ∧
  (state w = START →
     none_selected (doors w) ∧
     Forall (λ d, is_hidden d = start_hidden self) (doors w) ∧
     length (doors w) = Z.to_nat (num_doors self)) ∧
  (state w ≠ START → cursor_ok w).

(** While the intro runs, no door is selected, and a door that is still
    hidden has its index in the list of the doors left to show. *)
Definition intro_inv (l : list Z) (w : World) : Prop :=
  none_selected (doors w) ∧ Forall (λ i, 0 ≤ i) l ∧
  ∀ i d, doors w !! i = Some d → is_hidden d = true → Z.of_nat i ∈ l.

(** The direction that undoes a direction. *)
Definition opposite (a : Action) : Action :=
  match a with
  | UP => DOWN | DOWN => UP | LEFT => RIGHT | RIGHT => LEFT
  | other => other
  end.

(** How a door changes in the course of a game: its identity, place,
    size and activity stay, a door that is open or revealed stays so, and
    a door that is shown is not hidden again. *)
Definition door_evolves (d d' : Door) : Prop :=
  index d' = index d ∧ height d' = height d ∧ width d' = width d ∧
  activity d' = activity d ∧ props d' = props d ∧
  (is_open d = true → is_open d' = true) ∧
  (is_revealed d = true → is_revealed d' = true) ∧
  (is_hidden d = false → is_hidden d' = false).

(** The doors of [w] come from the doors [ds0] by such changes. *)
Definition evolved (ds0 : list Door) (w : World) : Prop :=
  Forall2 door_evolves ds0 (doors w).

(** [play_again] is bound when the loop is left. *)
Definition bound_at_exit (w : World) : Prop :=
  state w = GAME_OVER → is_Some (play_again w).

(** Every door carries its position in the list as its index. *)
Definition indexed (ds : list Door) : Prop :=
  ∀ k d, ds !! k = Some d → index d = Z.of_nat k.

(** The sound lists of the board all hold a sound. *)
Definition sounds_ok (self : Board) : Prop :=
  move_sounds self ≠ [] ∧ open_sounds self ≠ [] ∧ oops_sounds self ≠ [] ∧
  start_sounds self ≠ [] ∧ reveal_all_sounds self ≠ [].

(** [m] returns from [w]: it raises nothing. *)
Definition succeeds {A} (m : M A) (w : World) : Prop :=
  ∃ a w', m w = Ok (a, w').

(** What the handlers of [run] rely on once [START] is over: the cursor,
    the number of doors, and the index of each door. *)
Definition playable (self : Board) (w : World) : Prop :=
  cursor_ok w ∧ indexed (doors w) ∧
  Z.of_nat (length (doors w)) = num_doors self.

(** What a drawing pass puts on the screen for a door: the blit of the
    door's surface at the door's place; the same for a door flagged dirty
    only; and the display update that ends a pass on a display. *)
Definition door_blit (self : Board) (d : Door) : list Effect :=
  match _door_x_coord self (index d), _door_y_coord self (index d) with
  | Ok x, Ok y => [Blit (get_door_surface d) x y]
  | _, _ => []
  end.

Definition dirty_blit (self : Board) (d : Door) : list Effect :=
  if is_updated d then door_blit self d else [].

Definition flip (self : Board) : list Effect :=
  if surface_is_display self then [DisplayUpdate] else [].

(** What one step of the intro puts on the screen for the door [d] that
    it shows: the door, no longer hidden, then the display update and the
    pause. *)
Definition intro_frame (self : Board) (d : Door) : list Effect :=
  door_blit self (set_is_updated true (set_is_hidden false d))
  ++ flip self ++ [Sleep (intro_step_time self)].

(** The activity texts that a door surface shows. *)
Definition shown_text (s : Surface) : list string :=
  flat_map (λ c, match c with
                 | BlitActivity _ t => [t]
                 | BlitOpenWindow _ t _ => [t]
                 | _ => []
                 end) s.

(** A door that is neither open nor revealed is fully closed. *)
Definition closed_shut (d : Door) : Prop :=
  is_open d = false → is_revealed d = false → pct_open d = 0.

(** What the reveal makes of a door: revealed and drawn, and fully open
    when it was not opened in the game. *)
Definition reveal_door (d : Door) : Door :=
  set_is_updated false
    (set_is_revealed true (if is_open d then d else set_pct_open 100 d)).

(** ** A board for the examples: three doors across, two down *)

Definition example_props : DoorProperties :=
  {| bg_color := "black"; door_color := "blue"; ellipse_color := "white";
     number_color := "red"; cross_color := "grey";
     selection_color := "yellow"; activity_color := "green";
     unused_color := "orange"; activity_font := ("activity.ttf", 20);
     line_spacing := 2; number_font := ("number.ttf", 40);
     border_size := 4; ellipse_margin := 8; cross_width := 3;
     cross_offset := 5; open_step_time := 1 # 100 |}.

Definition example_board : Board :=
  {| surface_width := 1920; surface_height := 1080;
     doors_horiz := 3; doors_vert := 2;
     start_hidden := true; surface_is_display := true;
     board_bg_color := "black"; door_props := example_props;
     move_sounds := ["move.wav"]; open_sounds := ["open.wav"];
     oops_sounds := ["oops.wav"]; start_sounds := ["start.wav"];
     reveal_all_sounds := ["reveal.wav"]; intro_step_time := 1 # 10 |}.

Definition example_pool : list string :=
  ["walk"; "read"; "draw"; "sing"; "bake"; "swim"].

Definition width_error : Exn :=
  RuntimeError "surface width must be an integer multiple of doors_horiz".
Definition height_error : Exn :=
  RuntimeError "surface height must be an integer multiple of doors_vert".

(** A board of two doors side by side. *)
Definition pair_board : Board :=
  {| surface_width := 800; surface_height := 600;
     doors_horiz := 2; doors_vert := 1;
     start_hidden := false; surface_is_display := true;
     board_bg_color := "black"; door_props := example_props;
     move_sounds := ["move.wav"]; open_sounds := ["open.wav"];
     oops_sounds := ["oops.wav"]; start_sounds := ["start.wav"];
     reveal_all_sounds := ["reveal.wav"]; intro_step_time := 1 # 10 |}.

(** The example board constructed, with the draws and the event batches
    of the environment; an empty world if construction raises. *)
Definition example_world (oracle : nat -> nat) (polls : list Batch) : World :=
  match ActivityBoard_init example_board example_pool
          (fresh_world oracle polls) with
  | Ok (_, w) => w
  | Raise _ => fresh_world oracle polls
  end.

(** The world in which [run] on the example board stands after [fuel]
    passes of its loop. *)
Definition example_after (polls : list Batch) (fuel : nat) : World :=
  match run example_board fuel (example_world (λ k, k) polls) with
  | Ok (_, w) => w
  | Raise _ => fresh_world (λ k, k) polls
  end.

(** The example board configured without any start sound. *)
Definition silent_board : Board :=
  {| surface_width := 1920; surface_height := 1080;
     doors_horiz := 3; doors_vert := 2;
     start_hidden := true; surface_is_display := true;
     board_bg_color := "black"; door_props := example_props;
     move_sounds := ["move.wav"]; open_sounds := ["open.wav"];
     oops_sounds := ["oops.wav"]; start_sounds := [];
     reveal_all_sounds := ["reveal.wav"]; intro_step_time := 1 # 10 |}.

(** Lines put one below the other from [y] on, [spacing] apart, each
    centred in [max_width]; and the sum of a list of numbers. *)
Fixpoint stacked (max_width spacing y : Z)
    (ls : list TextRenderer.LineSurface)
    : list (TextRenderer.LineSurface * Z * Z) :=
  match ls with
  | [] => []
  | l :: rest =>
      (l, (max_width - TextRenderer.line_width l) `div` 2, y)
      :: stacked max_width spacing
           (y + TextRenderer.line_height l + spacing) rest
  end.

Definition total (zs : list Z) : Z := foldr Z.add 0 zs.

(** A font in which every character is 10 wide and 20 high. *)
Definition example_size (f : Font) (s : string) : Z * Z :=
  (10 * Z.of_nat (String.length s), 20).

Definition example_renderer : TextRenderer.t :=
  {| TextRenderer.font := ("activity.ttf", 20);
     TextRenderer.line_spacing := 4;
     TextRenderer.text_color := "green" |}.

(** * Properties *)

(** ** Grid arithmetic *)

Section Grid.
Variable h : Z.
Hypothesis h_pos : 1 ≤ h.

Lemma cell_div r c : 0 ≤ c < h → (r * h + c) `div` h = r.
Proof.
  intros Hc. symmetry. apply (Z.div_unique_pos _ _ r c); lia.
Qed.

Lemma cell_mod r c : 0 ≤ c < h → (r * h + c) `mod` h = c.
Proof.
  intros Hc. symmetry. apply (Z.mod_unique_pos _ _ r c); lia.
Qed.

Lemma cell_split i : i = (i `div` h) * h + i `mod` h.
Proof. rewrite Z.mul_comm. apply Z.div_mod. lia. Qed.

Lemma col_range i : 0 ≤ i `mod` h < h.
Proof. apply Z.mod_pos_bound. lia. Qed.

Lemma row_range i v : 0 ≤ i < h * v → 0 ≤ i `div` h < v.
Proof.
  intros Hi. split.
  - apply Z.div_pos; lia.
  - apply Z.div_lt_upper_bound; lia.
Qed.
End Grid.

Lemma py_mod_ok a b : b ≠ 0 → py_mod a b = Ok (a `mod` b).
Proof. intros Hb. unfold py_mod. by rewrite decide_False. Qed.

Lemma py_floordiv_ok a b : b ≠ 0 → py_floordiv a b = Ok (a `div` b).
Proof. intros Hb. unfold py_floordiv. by rewrite decide_False. Qed.

(** The value of [_get_new_selection] on a proper grid, case by case. *)
Lemma get_new_selection_value (self : Board) (door : Door) (a : Action) :
  doors_horiz self ≠ 0 →
  let r := row_of self (index door) in
  let c := col_of self (index door) in
  let c1 := c + d_col a in
  let r1 := r + d_row a in
  let c2 := if decide (c1 < 0) then c else c1 in
  let c3 := if decide (c2 > doors_horiz self - 1) then c else c2 in
  let r2 := if decide (r1 < 0) then 0 else r1 in
  let r3 := if decide (r2 > doors_vert self - 1) then r else r2 in
  _get_new_selection self door a = Ok (r3 * doors_horiz self + c3).
Proof.
  intros Hh. unfold _get_new_selection, row_of, col_of.
  rewrite py_mod_ok, py_floordiv_ok by done. simpl.
  destruct a; simpl; rewrite ?Z.add_0_r; reflexivity.
Qed.

(** C1: on a grid of at least one row and one column, a direction issued
    on a door at the edge it points to returns the door's own index, and
    any other direction returns the index of the neighbouring cell: the
    row (up, down) or the column (left, right) moves by one, the other
    coordinate stays, and the index is row * doors_horiz + column. *)
Theorem C1_get_new_selection_moves (self : Board) (door : Door) (a : Action) :
  1 ≤ doors_horiz self → 1 ≤ doors_vert self →
  0 ≤ index door < num_doors self →
  is_direction a = true →
  ∃ new_index,
    _get_new_selection self door a = Ok new_index ∧
    (at_edge self (index door) a → new_index = index door) ∧
    (¬ at_edge self (index door) a →
       row_of self new_index = row_of self (index door) + d_row a ∧
       col_of self new_index = col_of self (index door) + d_col a ∧
       new_index =
         (row_of self (index door) + d_row a) * doors_horiz self
         + (col_of self (index door) + d_col a)).
Proof.
  intros Hh Hv Hi Ha.
  eexists. split; [apply get_new_selection_value; lia|].
  unfold num_doors in Hi.
  pose proof (col_range _ Hh (index door)) as Hc.
  pose proof (row_range _ Hh _ _ Hi) as Hr.
  pose proof (cell_split _ Hh (index door)) as Hs.
  unfold at_edge, row_of, col_of in *.
  set (r := index door `div` doors_horiz self) in *.
  set (c := index door `mod` doors_horiz self) in *.
  destruct a; try discriminate; simpl;
    repeat case_decide; (split; [intros He | intros He]);
    rewrite ?Z.add_0_r in *; try lia;
    rewrite ?cell_div, ?cell_mod by lia; try (split_and!; lia).
Qed.

Lemma C1_get_new_selection_moves_witness :
  let door := Door_init 2 540 640 "draw" example_props false in
  (∃ n, _get_new_selection example_board door RIGHT = Ok n ∧ n = 2) ∧
  (∃ n, _get_new_selection example_board door DOWN = Ok n ∧ n = 5).
Proof.
  intros door. split.
  - destruct (C1_get_new_selection_moves example_board door RIGHT)
      as (n & Hn & Hedge & _);
      [simpl; lia | simpl; lia | unfold num_doors; simpl; lia | reflexivity |].
    exists n. split; [exact Hn|]. apply Hedge. reflexivity.
  - destruct (C1_get_new_selection_moves example_board door DOWN)
      as (n & Hn & _ & Hin);
      [simpl; lia | simpl; lia | unfold num_doors; simpl; lia | reflexivity |].
    exists n. split; [exact Hn|].
    destruct Hin as (_ & _ & ->); [|reflexivity].
    unfold at_edge, row_of. simpl. discriminate.
Defined.

(** ** Running the monad *)

Lemma bind_Ok {A B} (m : M A) (f : A → M B) w a w' :
  m w = Ok (a, w') → (m ≫= f) w = f a w'.
Proof. intros H. unfold mbind, M_bind. by rewrite H. Qed.

Lemma bind_Raise {A B} (m : M A) (f : A → M B) w e :
  m w = Raise e → (m ≫= f) w = Raise e.
Proof. intros H. unfold mbind, M_bind. by rewrite H. Qed.

Lemma bind_inv {A B} (m : M A) (f : A → M B) w b w2 :
  (m ≫= f) w = Ok (b, w2) →
  ∃ a w1, m w = Ok (a, w1) ∧ f a w1 = Ok (b, w2).
Proof.
  unfold mbind, M_bind. destruct (m w) as [[a w1]|e]; [|done].
  intros H. by exists a, w1.
Qed.

Lemma lift_Ok {A} (r : result A) a w : r = Ok a → lift r w = Ok (a, w).
Proof. by intros ->. Qed.

(** Unfolds the primitives of the monad in the goal. *)
Ltac mrun :=
  unfold doors_getitem, get_selected_door, get_play_again, emit, assign,
    gets, modify, raise, lift;
  unfold mbind, mret, M_bind, M_ret, result_bind, result_ret; simpl.

Lemma py_pos_in_range (len : nat) (i : Z) :
  0 ≤ i < Z.of_nat len → py_pos len i = Ok (Z.to_nat i).
Proof. intros Hi. unfold py_pos. by rewrite decide_True. Qed.

(** C10: on a grid of at least one row and one column, whatever the
    action, [_get_new_selection] maps an index of the grid to an index of
    the grid, so [self._doors[new_index]] of the directional branch reads
    an existing element of a door list of [num_doors] doors. *)
Theorem C10_get_new_selection_in_bounds
    (self : Board) (door : Door) (a : Action) :
  1 ≤ doors_horiz self → 1 ≤ doors_vert self →
  0 ≤ index door < num_doors self →
  ∃ new_index,
    _get_new_selection self door a = Ok new_index ∧
    0 ≤ new_index < num_doors self ∧
    ∀ w, Z.of_nat (length (doors w)) = num_doors self →
      doors_getitem new_index w = Ok (Z.to_nat new_index, w) ∧
      is_Some (doors w !! Z.to_nat new_index).
Proof.
  intros Hh Hv Hi.
  eexists. split; [apply get_new_selection_value; lia|].
  unfold num_doors in *.
  pose proof (col_range _ Hh (index door)) as Hc.
  pose proof (row_range _ Hh _ _ Hi) as Hr.
  unfold row_of, col_of.
  set (r := index door `div` doors_horiz self) in *.
  set (c := index door `mod` doors_horiz self) in *.
  match goal with |- ?lo ≤ ?n < ?hi ∧ _ => assert (Hn : lo ≤ n < hi) end.
  { destruct a; simpl; repeat case_decide; rewrite ?Z.add_0_r in *; nia. }
  split; [exact Hn|].
  intros w Hlen. split.
  - mrun. rewrite py_pos_in_range by lia. reflexivity.
  - apply lookup_lt_is_Some. lia.
Qed.

Lemma C10_get_new_selection_in_bounds_witness :
  let door := Door_init 3 540 640 "sing" example_props false in
  ∃ n, _get_new_selection example_board door LEFT = Ok n ∧
       0 ≤ n < num_doors example_board.
Proof.
  intros door.
  destruct (C10_get_new_selection_in_bounds example_board door LEFT)
    as (n & Hn & Hb & _);
    [simpl; lia | simpl; lia | unfold num_doors; simpl; lia |].
  exists n. split; [exact Hn | exact Hb].
Defined.

(** ** A small logic of door passes *)

Lemma steady_refl w : steady w w.
Proof. by repeat split. Qed.

Lemma steady_trans w1 w2 w3 : steady w1 w2 → steady w2 w3 → steady w1 w3.
Proof.
  unfold steady. intros (?&?&?&?&?&?) (?&?&?&?&?&?).
  repeat split; congruence.
Qed.

Lemma steady_selected w w' : steady w w' → selected_door w' = selected_door w.
Proof. by intros (_&_&?&_). Qed.

Lemma steady_state w w' : steady w w' → state w' = state w.
Proof. by intros (_&?&_). Qed.

Lemma alter_lookup_insert {A} (f : A → A) (l : list A) r d :
  l !! r = Some d → alter f r l = <[r := f d]> l.
Proof.
  revert r. induction l as [|x l IH]; intros [|r] H; simplify_eq/=; try done.
  f_equal. by apply IH.
Qed.

Lemma step_assign r f : step_at r (assign r f) (λ d d', d' = f d).
Proof.
  intros w d Hd. eexists _, (f d). mrun.
  split; [reflexivity|]. split; [by apply alter_lookup_insert|].
  split; [done|]. by repeat split.
Qed.

Lemma step_skip r : step_at r (mret tt) eq.
Proof.
  intros w d Hd. exists w, d. split; [done|].
  split; [by rewrite list_insert_id|]. split; [done|apply steady_refl].
Qed.

Lemma step_seq r m1 m2 (R1 R2 R : Door → Door → Prop) :
  (∀ d d' d'', R1 d d' → R2 d' d'' → R d d'') →
  step_at r m1 R1 → step_at r m2 R2 → step_at r (m1 ;; m2) R.
Proof.
  intros HR H1 H2 w d Hd.
  destruct (H1 w d Hd) as (w1 & d1 & E1 & D1 & HR1 & S1).
  assert (Hd1 : doors w1 !! r = Some d1).
  { rewrite D1. apply list_lookup_insert_eq. by eapply lookup_lt_Some. }
  destruct (H2 w1 d1 Hd1) as (w2 & d2 & E2 & D2 & HR2 & S2).
  exists w2, d2. split; [by rewrite (bind_Ok _ _ _ _ _ E1)|].
  split; [by rewrite D2, D1, list_insert_insert_eq|].
  split; [by eapply HR|by eapply steady_trans].
Qed.

Lemma step_read r (k : Door → M unit) (R : Door → Door → Prop) :
  (∀ dv, step_at r (k dv) (λ d d', d = dv → R d d')) →
  step_at r (read r ≫= k) R.
Proof.
  intros Hk w d Hd.
  destruct (Hk d w d Hd) as (w' & d' & E & D & HR & S).
  exists w', d'. split; [|auto].
  rewrite (bind_Ok _ _ _ d w); [done|]. unfold read. by rewrite Hd.
Qed.

Lemma step_weaken r m (R R' : Door → Door → Prop) :
  (∀ d d', R d d' → R' d d') → step_at r m R → step_at r m R'.
Proof.
  intros HR H w d Hd. destruct (H w d Hd) as (w' & d' & ? & ? & ? & ?).
  exists w', d'. auto.
Qed.

Lemma door_coords_ok self i :
  board_ok self →
  ∃ x y, _door_x_coord self i = Ok x ∧ _door_y_coord self i = Ok y.
Proof.
  intros [Hh Hv]. unfold _door_x_coord, _door_y_coord, door_width, door_height.
  rewrite !py_mod_ok, !py_floordiv_ok by done. eauto.
Qed.

Lemma display_update_steady self w :
  ∃ w', display_update self w = Ok (tt, w') ∧ doors w' = doors w ∧ steady w w'.
Proof.
  unfold display_update. destruct (surface_is_display self).
  - eexists. mrun. split; [reflexivity|]. split; [done|]. by repeat split.
  - exists w. split; [done|]. split; [done|apply steady_refl].
Qed.

Lemma step_draw_door self r upd :
  board_ok self → step_at r (_draw_door self r upd) eq.
Proof.
  intros Hb w d Hd.
  destruct (door_coords_ok self (index d) Hb) as (x & y & Hx & Hy).
  unfold _draw_door.
  rewrite (bind_Ok _ _ _ d w) by (unfold read; by rewrite Hd).
  rewrite (bind_Ok _ _ _ x w) by by apply lift_Ok.
  rewrite (bind_Ok _ _ _ y w) by by apply lift_Ok.
  set (w1 := with_trace (trace w ++ [Blit (get_door_surface d) x y]) w).
  rewrite (bind_Ok _ _ _ tt w1) by done.
  destruct upd.
  - destruct (display_update_steady self w1) as (w2 & E & D & S).
    exists w2, d. split; [done|]. split; [by rewrite D, list_insert_id|].
    split; [done|]. eapply steady_trans; [|exact S]. by repeat split.
  - exists w1, d. split; [done|]. split; [by rewrite list_insert_id|].
    split; [done|]. by repeat split.
Qed.

Lemma pass_skip : pass (mret tt) eq.
Proof.
  intros w. exists w. split; [done|]. split; [|apply steady_refl].
  by apply Forall2_same_length_lookup_2; [|intros; simplify_eq].
Qed.

Lemma pass_seq m1 m2 (R1 R2 R : Door → Door → Prop) :
  (∀ d d' d'', R1 d d' → R2 d' d'' → R d d'') →
  pass m1 R1 → pass m2 R2 → pass (m1 ;; m2) R.
Proof.
  intros HR H1 H2 w.
  destruct (H1 w) as (w1 & E1 & F1 & S1).
  destruct (H2 w1) as (w2 & E2 & F2 & S2).
  exists w2. split; [by rewrite (bind_Ok _ _ _ _ _ E1)|].
  split; [|by eapply steady_trans].
  eapply Forall2_trans; [apply HR|exact F1|exact F2].
Qed.

Lemma pass_weaken m (R R' : Door → Door → Prop) :
  (∀ d d', R d d' → R' d d') → pass m R → pass m R'.
Proof.
  intros HR H w. destruct (H w) as (w' & E & F & S).
  exists w'. split; [done|]. split; [|done].
  eapply Forall2_impl; [exact F|exact HR].
Qed.

Lemma pass_display_update self : pass (display_update self) eq.
Proof.
  intros w. destruct (display_update_steady self w) as (w' & E & D & S).
  exists w'. split; [done|]. split; [|done]. rewrite D.
  by apply Forall2_same_length_lookup_2; [|intros; simplify_eq].
Qed.

(** The positions from [length l1] on, visited in order. *)
Lemma for_each_positions (body : Ref → M unit) (R : Door → Door → Prop) :
  (∀ r, step_at r (body r) R) →
  ∀ l2 l1 w, doors w = l1 ++ l2 →
    ∃ w' l2',
      for_each (seq (length l1) (length l2)) body w = Ok (tt, w') ∧
      doors w' = l1 ++ l2' ∧ Forall2 R l2 l2' ∧ steady w w'.
Proof.
  intros Hstep. induction l2 as [|d l2 IH]; intros l1 w Hw.
  - exists w, []. split; [done|]. split; [done|].
    split; [constructor|apply steady_refl].
  - assert (Hd : doors w !! length l1 = Some d)
      by (rewrite Hw; apply list_lookup_middle; done).
    destruct (Hstep _ w d Hd) as (w1 & d1 & E1 & D1 & HR & S1).
    assert (Hw1 : doors w1 = (l1 ++ [d1]) ++ l2).
    { rewrite D1, Hw, <- (assoc_L (++)). simpl.
      by rewrite insert_app_r_alt, Nat.sub_diag. }
    destruct (IH (l1 ++ [d1]) w1 Hw1) as (w2 & l2' & E2 & D2 & F2 & S2).
    rewrite length_app, Nat.add_1_r in E2.
    exists w2, (d1 :: l2'). simpl.
    split; [by rewrite (bind_Ok _ _ _ _ _ E1)|].
    split; [by rewrite D2, <- (assoc_L (++))|].
    split; [by constructor|by eapply steady_trans].
Qed.

Lemma pass_for_each_door (body : Ref → M unit) (R : Door → Door → Prop) :
  (∀ r, step_at r (body r) R) → pass (for_each_door body) R.
Proof.
  intros Hstep w.
  destruct (for_each_positions body R Hstep (doors w) [] w eq_refl)
    as (w' & l' & E & D & F & S).
  exists w'. split; [|by rewrite D]. unfold for_each_door. by mrun.
Qed.

(** A pass repeated for each element of a list. *)
Lemma pass_for_each {A} (xs : list A) (body : A → M unit)
    (R : Door → Door → Prop) :
  (∀ d, R d d) → (∀ d d' d'', R d d' → R d' d'' → R d d'') →
  (∀ x, pass (body x) R) → pass (for_each xs body) R.
Proof.
  intros Hrefl Htrans Hbody. induction xs as [|x xs IH]; simpl.
  - eapply pass_weaken; [|apply pass_skip]. by intros ?? ->.
  - eapply pass_seq; [apply Htrans|apply Hbody|apply IH].
Qed.

Lemma keeps_refl d : keeps d d.
Proof. by repeat split. Qed.

Lemma keeps_trans d1 d2 d3 : keeps d1 d2 → keeps d2 d3 → keeps d1 d3.
Proof.
  unfold keeps. intros (?&?&?&?&?&?&?&?) (?&?&?&?&?&?&?&?).
  repeat split; congruence.
Qed.

(** The two redraw passes: every door is kept and comes out clean. *)
Lemma pass_draw_updated_doors self :
  board_ok self →
  pass (_draw_updated_doors self)
       (λ d d', keeps d d' ∧ is_updated d' = false ∧
                is_revealed d' = is_revealed d ∧ pct_open d' = pct_open d).
Proof.
  intros Hb. unfold _draw_updated_doors.
  eapply pass_seq; [|apply pass_for_each_door|apply pass_display_update].
  { intros d d' d'' H <-. exact H. }
  intros r. apply step_read. intros dv.
  destruct (is_updated dv) eqn:Hu.
  - eapply step_seq; [|apply (step_draw_door self r false Hb)|apply step_assign].
    intros d d' d'' <- -> _. simpl. by repeat split.
  - eapply step_weaken; [|apply step_skip].
    intros d d' <- ->. by repeat split.
Qed.

Lemma pass_draw_all_doors self :
  board_ok self →
  pass (_draw_all_doors self)
       (λ d d', keeps d d' ∧ is_updated d' = false ∧
                is_revealed d' = is_revealed d ∧ pct_open d' = pct_open d).
Proof.
  intros Hb. unfold _draw_all_doors.
  eapply pass_seq; [|apply pass_for_each_door|apply pass_display_update].
  { intros d d' d'' H <-. exact H. }
  intros r.
  eapply step_seq; [|apply (step_draw_door self r false Hb)|apply step_assign].
  intros d d' d'' <- ->. simpl. by repeat split.
Qed.

Lemma Forall2_right {A B} (P : A → B → Prop) (Q : B → Prop) l k :
  (∀ x y, P x y → Q y) → Forall2 P l k → Forall Q k.
Proof. intros HPQ. induction 1; constructor; eauto. Qed.

(** ** Redraw bookkeeping *)



(** ** The door-opening animation *)

Lemma draw_door_eq self door upd w d x y :
  doors w !! door = Some d →
  _door_x_coord self (index d) = Ok x →
  _door_y_coord self (index d) = Ok y →
  _draw_door self door upd w =
    Ok (tt, with_trace
              (trace w ++ [Blit (get_door_surface d) x y]
               ++ (if upd && surface_is_display self
                   then [DisplayUpdate] else [])) w).
Proof.
  intros Hd Hx Hy. unfold _draw_door, display_update, read. mrun.
  rewrite Hd. simpl. rewrite Hx, Hy. simpl.
  destruct upd, (surface_is_display self); simpl; unfold with_trace; simpl;
    by rewrite <- ?(assoc_L (++)), ?(right_id_L [] (++)).
Qed.

Lemma animate_open_step self door x y i w d :
  doors w !! door = Some d →
  _door_x_coord self (index d) = Ok x →
  _door_y_coord self (index d) = Ok y →
  ∃ w',
    (assign door (set_pct_open i);;
     _draw_door self door true;;
     d' ← read door;
     emit (Sleep (open_step_time (props d')))) w = Ok (tt, w') ∧
    doors w' = <[door := set_pct_open i d]> (doors w) ∧
    trace w' = trace w ++ open_frame self d x y i ∧
    steady w w' ∧ rng_calls w' = rng_calls w.
Proof.
  intros Hd Hx Hy.
  set (w1 := with_doors (alter (set_pct_open i) door (doors w)) w).
  assert (Hd1 : doors w1 !! door = Some (set_pct_open i d)).
  { simpl. rewrite (alter_lookup_insert _ _ _ d Hd).
    apply list_lookup_insert_eq. by eapply lookup_lt_Some. }
  rewrite (bind_Ok _ _ _ tt w1) by done.
  rewrite (bind_Ok _ _ _ _ _ (draw_door_eq self door true w1 _ x y Hd1 Hx Hy)).
  eexists. split.
  { unfold read. mrun. simpl in Hd1. rewrite Hd1. reflexivity. }
  simpl. split; [by apply alter_lookup_insert|].
  split; [|by repeat split].
  unfold open_frame. by rewrite <- !(assoc_L (++)).
Qed.

Lemma animate_open_steps self door x y vals : ∀ w d,
  doors w !! door = Some d →
  _door_x_coord self (index d) = Ok x →
  _door_y_coord self (index d) = Ok y →
  ∃ w',
    for_each vals (λ i,
      assign door (set_pct_open i);;
      _draw_door self door true;;
      d' ← read door;
      emit (Sleep (open_step_time (props d')))) w = Ok (tt, w') ∧
    doors w' = <[door := from_option (λ i, set_pct_open i d) d (last vals)]>
                 (doors w) ∧
    trace w' = trace w ++ flat_map (open_frame self d x y) vals ∧
    steady w w' ∧ rng_calls w' = rng_calls w.
Proof.
  induction vals as [|i vals IH]; intros w d Hd Hx Hy.
  - exists w. simpl. split; [done|]. split; [by rewrite list_insert_id|].
    split; [by rewrite (right_id_L [] (++))|]. split; [apply steady_refl|done].
  - destruct (animate_open_step self door x y i w d Hd Hx Hy)
      as (w1 & E1 & D1 & T1 & S1 & N1).
    assert (Hd1 : doors w1 !! door = Some (set_pct_open i d)).
    { rewrite D1. apply list_lookup_insert_eq. by eapply lookup_lt_Some. }
    destruct (IH w1 (set_pct_open i d) Hd1 Hx Hy)
      as (w2 & E2 & D2 & T2 & S2 & N2).
    exists w2. split; [simpl; by rewrite (bind_Ok _ _ _ _ _ E1)|].
    split.
    { rewrite D2, D1, list_insert_insert_eq. f_equal.
      rewrite last_cons. by destruct (last vals). }
    split; [|split]. 3: congruence. 2: exact (steady_trans _ _ _ S1 S2).
    rewrite T2, T1, <- (assoc_L (++)). reflexivity.
Qed.



(** ** Sounds and the full-screen activity *)

Lemma random_choice_ok {A} (l : list A) w :
  l ≠ [] →
  ∃ x, random_choice l w = Ok (x, with_rng_calls (S (rng_calls w)) w) ∧ x ∈ l.
Proof.
  intros Hl. unfold random_choice. destruct l as [|a l]; [done|].
  destruct (lookup_lt_is_Some_2 (a :: l)
              (rng w (rng_calls w) `mod` length (a :: l))%nat) as [x Hx].
  { apply Nat.mod_upper_bound. done. }
  exists x. rewrite Hx. split; [done|]. by eapply list_elem_of_lookup_2.
Qed.

Lemma random_choice_inv {A} (l : list A) w x w' :
  random_choice l w = Ok (x, w') →
  x ∈ l ∧ w' = with_rng_calls (S (rng_calls w)) w.
Proof.
  unfold random_choice. destruct l as [|a l]; [done|].
  destruct (_ !! _) as [y|] eqn:Hy; [|done].
  intros [= <- <-]. split; [by eapply list_elem_of_lookup_2|done].
Qed.

Lemma play_random_sound_ok (l : list Sound) w :
  l ≠ [] →
  ∃ s w', _play_random_sound l w = Ok (tt, w') ∧ s ∈ l ∧
          doors w' = doors w ∧ steady w w' ∧
          trace w' = trace w ++ [PlaySound s].
Proof.
  intros Hl. destruct (random_choice_ok l w Hl) as (s & E & Hs).
  exists s. eexists. unfold _play_random_sound.
  rewrite (bind_Ok _ _ _ _ _ E). mrun.
  split; [reflexivity|]. by repeat split.
Qed.

Lemma show_activity_ok self r w d :
  doors w !! r = Some d →
  ∃ w', _show_activity self r w = Ok (tt, w') ∧ doors w' = doors w ∧
        steady w w'.
Proof.
  intros Hd. unfold _show_activity, read. mrun. rewrite Hd. simpl.
  match goal with |- ∃ w', display_update self ?w1 = _ ∧ _ =>
    destruct (display_update_steady self w1) as (w2 & E & D & S) end.
  exists w2. split; [done|]. split; [by rewrite D|].
  eapply steady_trans; [|exact S]. by repeat split.
Qed.

(** ** Opening the selected door *)



(** ** Construction *)

Lemma py_remove_ok {A} `{EqDecision A} (x : A) (l : list A) :
  x ∈ l → ∃ l', py_remove x l = Ok l' ∧ l ≡ₚ x :: l'.
Proof.
  induction l as [|y l IH]; intros Hx; [by apply elem_of_nil in Hx|].
  simpl. destruct (decide (x = y)) as [->|Hne]; [by exists l|].
  apply elem_of_cons in Hx as [?|Hx]; [done|].
  destruct (IH Hx) as (l' & -> & Hp). exists (y :: l'). split; [done|].
  rewrite Hp. apply Permutation_swap.
Qed.

(** One round of the loop of [_build_door_list] on a pool that is not
    empty: an element of the pool leaves it and goes behind the door. *)
Lemma build_doors_step self hidden i rest acc w :
  board_ok self → activities w ≠ [] →
  ∃ a pool' h wd,
    activities w ≡ₚ a :: pool' ∧
    door_height self = Ok h ∧ door_width self = Ok wd ∧
    build_doors_from self hidden (i :: rest) acc w =
    build_doors_from self hidden rest
      (acc ++ [Door_init i h wd a (make_props self) hidden])
      (with_activities pool' (with_rng_calls (S (rng_calls w)) w)).
Proof.
  intros [Hh Hv] Hne.
  destruct (random_choice_ok (activities w) w Hne) as (a & E & Ha).
  destruct (py_remove_ok a (activities w) Ha) as (pool' & Er & Hp).
  exists a, pool', (surface_height self `div` doors_vert self),
    (surface_width self `div` doors_horiz self).
  split; [done|]. unfold door_height, door_width.
  rewrite !py_floordiv_ok by done. split; [done|]. split; [done|].
  simpl. rewrite (bind_Ok _ _ _ (activities w) w) by done.
  rewrite (bind_Ok _ _ _ _ _ E).
  rewrite (bind_Ok _ _ _ pool' (with_rng_calls (S (rng_calls w)) w))
    by by apply lift_Ok.
  rewrite (bind_Ok _ _ _ tt
    (with_activities pool' (with_rng_calls (S (rng_calls w)) w))) by done.
  unfold door_height, door_width. rewrite !py_floordiv_ok by done.
  reflexivity.
Qed.

Lemma build_doors_short self hidden : board_ok self →
  ∀ idxs acc w, (length (activities w) < length idxs)%nat →
    build_doors_from self hidden idxs acc w = Raise IndexError.
Proof.
  intros Hb. induction idxs as [|i rest IH]; intros acc w Hlen.
  - simpl in Hlen. lia.
  - destruct (activities w) as [|a0 pool0] eqn:Hpool.
    + simpl. rewrite (bind_Ok _ _ _ (activities w) w) by done.
      apply bind_Raise. by rewrite Hpool.
    + destruct (build_doors_step self hidden i rest acc w Hb)
        as (a & pool' & h & wd & Hp & _ & _ & ->); [by rewrite Hpool|].
      apply IH. simpl. rewrite Hpool in Hp.
      apply Permutation_length in Hp. simpl in *. lia.
Qed.

Lemma build_doors_enough self hidden : board_ok self →
  ∀ idxs acc w, (length idxs ≤ length (activities w))%nat →
    ∃ ds w',
      build_doors_from self hidden idxs acc w = Ok (acc ++ ds, w') ∧
      Forall2 (fresh_door self hidden) idxs ds ∧
      activities w ≡ₚ (activity <$> ds) ++ activities w' ∧
      doors w' = doors w ∧ steady (with_activities (activities w') w) w'.
Proof.
  intros Hb. induction idxs as [|i rest IH]; intros acc w Hlen.
  - exists [], w. simpl. rewrite (right_id_L [] (++)).
    split; [done|]. split; [constructor|]. split; [done|]. split; [done|].
    by repeat split.
  - assert (Hne : activities w ≠ [])
      by (destruct (activities w); [simpl in Hlen; lia|done]).
    destruct (build_doors_step self hidden i rest acc w Hb Hne)
      as (a & pool' & h & wd & Hp & _ & _ & ->).
    destruct (IH (acc ++ [Door_init i h wd a (make_props self) hidden])
                (with_activities pool' (with_rng_calls (S (rng_calls w)) w)))
      as (ds & w' & E & F & P & D & S).
    { simpl. apply Permutation_length in Hp. simpl in *. lia. }
    exists (Door_init i h wd a (make_props self) hidden :: ds), w'.
    split; [by rewrite E, <- (assoc_L (++))|].
    split; [constructor; [by repeat split|done]|].
    split; [by rewrite Hp, P|]. split; [done|].
    destruct S as (?&?&?&?&?&?). by repeat split.
Qed.

(** [__init__] once both size checks have passed. *)
Lemma init_after_checks self pool w :
  doors_horiz self ≠ 0 → (doors_horiz self | surface_width self) →
  doors_vert self ≠ 0 → (doors_vert self | surface_height self) →
  ActivityBoard_init self pool w =
    (ds ← _build_door_list self (start_hidden self); modify (with_doors ds))
      (with_activities pool w).
Proof.
  intros Hh Hw Hv Hht. unfold ActivityBoard_init.
  apply Z.mod_divide in Hw; [|done]. apply Z.mod_divide in Hht; [|done].
  rewrite (bind_Ok _ _ _ 0 w) by (apply lift_Ok; rewrite <- Hw; by apply py_mod_ok).
  rewrite decide_False by (intros H; by apply H).
  rewrite (bind_Ok _ _ _ tt w) by done.
  rewrite (bind_Ok _ _ _ 0 w) by (apply lift_Ok; rewrite <- Hht; by apply py_mod_ok).
  rewrite decide_False by (intros H; by apply H).
  rewrite (bind_Ok _ _ _ tt w) by done.
  by rewrite (bind_Ok _ _ _ tt (with_activities pool w)).
Qed.

Lemma init_width_error self pool w :
  doors_horiz self ≠ 0 → ¬ (doors_horiz self | surface_width self) →
  ActivityBoard_init self pool w = Raise width_error.
Proof.
  intros Hh Hw. unfold ActivityBoard_init.
  rewrite (bind_Ok _ _ _ _ w (lift_Ok _ _ w (py_mod_ok _ _ Hh))).
  rewrite decide_True; [done|]. by rewrite Z.mod_divide.
Qed.

Lemma init_height_error self pool w :
  doors_horiz self ≠ 0 → (doors_horiz self | surface_width self) →
  doors_vert self ≠ 0 → ¬ (doors_vert self | surface_height self) →
  ActivityBoard_init self pool w = Raise height_error.
Proof.
  intros Hh Hw Hv Hht. unfold ActivityBoard_init.
  apply Z.mod_divide in Hw; [|done].
  rewrite (bind_Ok _ _ _ 0 w) by (apply lift_Ok; rewrite <- Hw; by apply py_mod_ok).
  rewrite decide_False by (intros H; by apply H).
  rewrite (bind_Ok _ _ _ tt w) by done.
  rewrite (bind_Ok _ _ _ _ w (lift_Ok _ _ w (py_mod_ok _ _ Hv))).
  rewrite decide_True; [done|]. by rewrite Z.mod_divide.
Qed.

Lemma init_zero_division self pool w :
  doors_horiz self = 0 ∨
  (doors_vert self = 0 ∧ (doors_horiz self | surface_width self)) →
  ActivityBoard_init self pool w = Raise ZeroDivisionError.
Proof.
  unfold ActivityBoard_init. intros [Hh|[Hv Hw]].
  - apply bind_Raise. unfold lift, py_mod. by rewrite decide_True.
  - destruct (decide (doors_horiz self = 0)) as [Hh|Hh].
    { apply bind_Raise. unfold lift, py_mod. by rewrite decide_True. }
    apply Z.mod_divide in Hw; [|done].
    rewrite (bind_Ok _ _ _ 0 w) by (apply lift_Ok; rewrite <- Hw; by apply py_mod_ok).
    rewrite decide_False by (intros H; by apply H).
    rewrite (bind_Ok _ _ _ tt w) by done.
    apply bind_Raise. unfold lift, py_mod. by rewrite decide_True.
Qed.

Lemma init_short_pool self pool w :
  doors_horiz self ≠ 0 → (doors_horiz self | surface_width self) →
  doors_vert self ≠ 0 → (doors_vert self | surface_height self) →
  Z.of_nat (length pool) < num_doors self →
  ActivityBoard_init self pool w = Raise IndexError.
Proof.
  intros Hh Hw Hv Hht Hlen. rewrite init_after_checks by done.
  apply bind_Raise. unfold _build_door_list.
  apply build_doors_short; [done|]. unfold py_range.
  rewrite length_seqZ. simpl. lia.
Qed.



Lemma fresh_doors_index self hidden idxs ds :
  Forall2 (fresh_door self hidden) idxs ds → index <$> ds = idxs.
Proof.
  induction 1 as [|i d idxs ds [Hi _] _ IH]; [done|].
  rewrite fmap_cons. by f_equal.
Qed.

(** C9, as the code has it: from a pool of at least [num_doors] entries
    the list is built, its doors carry the indices 0 .. num_doors-1 in
    order, and their activities are drawn from the pool without
    replacement, each entry of the pool behind at most one door.  No two
    doors share an activity when the entries of the pool are pairwise
    distinct. *)
Theorem C9_doors_drawn_without_replacement
    (self : Board) (hidden : bool) (pool : list string) (w : World) :
  board_ok self →
  activities w = pool →
  num_doors self ≤ Z.of_nat (length pool) →
  ∃ ds w',
    _build_door_list self hidden w = Ok (ds, w') ∧
    index <$> ds = seqZ 0 (num_doors self) ∧
    NoDup (index <$> ds) ∧
    (activity <$> ds) ⊆+ pool ∧
    pool ≡ₚ (activity <$> ds) ++ activities w' ∧
    (NoDup pool → NoDup (activity <$> ds)).
Proof.
  intros Hb Hw Hlen. unfold _build_door_list.
  destruct (build_doors_enough self hidden Hb (py_range (num_doors self)) [] w)
    as (ds & w' & E & F & P & _).
  { unfold py_range. rewrite length_seqZ, Hw. lia. }
  exists ds, w'. split; [exact E|].
  pose proof (fresh_doors_index _ _ _ _ F) as Hidx.
  split; [exact Hidx|]. split; [rewrite Hidx; apply NoDup_seqZ|].
  rewrite Hw in P. split.
  { rewrite P. apply submseteq_inserts_r. done. }
  split; [exact P|].
  intros Hnd. rewrite P in Hnd. by apply NoDup_app in Hnd as (? & _).
Qed.

Lemma C9_doors_drawn_without_replacement_witness :
  NoDup example_pool ∧
  ∃ ds w',
    _build_door_list example_board true
      (with_activities example_pool (fresh_world (λ k, k) [])) = Ok (ds, w') ∧
    index <$> ds = [0; 1; 2; 3; 4; 5] ∧
    NoDup (activity <$> ds).
Proof.
  assert (Hnd : NoDup example_pool) by (apply (bool_decide_unpack _); vm_compute; reflexivity).
  split; [exact Hnd|].
  destruct (C9_doors_drawn_without_replacement example_board true example_pool
              (with_activities example_pool (fresh_world (λ k, k) [])))
    as (ds & w' & E & Hi & _ & _ & _ & H);
    [by split | reflexivity | unfold num_doors; simpl; lia |].
  exists ds, w'. split; [exact E|]. split; [exact Hi|]. by apply H.
Defined.

(** C9 as it is worded fails: a pool with two distinct entries, one of
    them twice, fills a board of two doors with the same activity when
    the draws fall on the twin entries. *)
Lemma C9_counterexample :
  let pool := ["walk"; "walk"; "read"] in
  num_doors pair_board ≤ Z.of_nat (length (remove_dups pool)) ∧
  ∃ w, ActivityBoard_init pair_board pool (fresh_world (λ _, 0%nat) [])
         = Ok (tt, w) ∧
       activity <$> doors w = ["walk"; "walk"] ∧
       ¬ NoDup (activity <$> doors w).
Proof.
  intros pool. split; [vm_compute; discriminate|].
  eexists. split; [vm_compute; reflexivity|]. simpl.
  split; [reflexivity|].
  intros Hnd. apply NoDup_cons in Hnd as [Hin _]. apply Hin. by left.
Qed.

(** ** Partial correctness of monadic code *)

Lemma post_bind {A B} (m : M A) (f : A → M B) w Q :
  post m w (λ a w1, post (f a) w1 Q) → post (m ≫= f) w Q.
Proof.
  intros H b w2 E. apply bind_inv in E as (a & w1 & E1 & E2).
  by eapply H.
Qed.

Lemma post_ret {A} (a : A) w (Q : A → World → Prop) :
  Q a w → post (mret a) w Q.
Proof. intros H a' w' [= <- <-]. done. Qed.

Lemma post_modify f w (Q : unit → World → Prop) :
  Q tt (f w) → post (modify f) w Q.
Proof. intros H a' w' [= <- <-]. done. Qed.

Lemma post_emit e w (Q : unit → World → Prop) :
  Q tt (with_trace (trace w ++ [e]) w) → post (emit e) w Q.
Proof. apply post_modify. Qed.

Lemma post_gets {A} (f : World → A) w (Q : A → World → Prop) :
  Q (f w) w → post (gets f) w Q.
Proof. intros H a' w' [= <- <-]. done. Qed.

Lemma post_lift {A} (r : result A) w (Q : A → World → Prop) :
  (∀ a, r = Ok a → Q a w) → post (lift r) w Q.
Proof. intros H a w'. unfold lift. destruct r; [|done]. intros [= <- <-]. auto. Qed.

Lemma post_mono {A} (m : M A) w (Q Q' : A → World → Prop) :
  (∀ a w', Q a w' → Q' a w') → post m w Q → post m w Q'.
Proof. intros HQ H a w' E. apply HQ. by apply H. Qed.

Lemma post_pass m R w (Q : unit → World → Prop) :
  pass m R →
  (∀ w', Forall2 R (doors w) (doors w') → steady w w' → Q tt w') →
  post m w Q.
Proof.
  intros Hp HQ [] w' E. destruct (Hp w) as (w1 & E1 & F & S).
  rewrite E in E1. injection E1 as <-. by apply HQ.
Qed.

Lemma post_step r m R w d (Q : unit → World → Prop) :
  step_at r m R → doors w !! r = Some d →
  (∀ w' d', doors w' = <[r := d']> (doors w) → R d d' → steady w w' →
            Q tt w') →
  post m w Q.
Proof.
  intros Hs Hd HQ [] w' E. destruct (Hs w d Hd) as (w1 & d1 & E1 & D & HR & S).
  rewrite E in E1. injection E1 as <-. by eapply HQ.
Qed.

Lemma post_read r w (Q : Door → World → Prop) :
  (∀ d, doors w !! r = Some d → Q d w) → post (read r) w Q.
Proof.
  intros H d w'. unfold read. destruct (doors w !! r) eqn:Hd; [|done].
  intros [= <- <-]. auto.
Qed.

Lemma post_play_random_sound l w (Q : unit → World → Prop) :
  (∀ w', doors w' = doors w → steady w w' → Q tt w') →
  post (_play_random_sound l) w Q.
Proof.
  intros HQ. unfold _play_random_sound. apply post_bind.
  intros s w1 E. apply random_choice_inv in E as [_ ->].
  apply post_emit. apply HQ; [done|by repeat split].
Qed.

Lemma post_for_each {A} (xs : list A) (body : A → M unit) (I : World → Prop) :
  (∀ x w, I w → post (body x) w (λ _, I)) →
  ∀ w, I w → post (for_each xs body) w (λ _, I).
Proof.
  intros Hbody. induction xs as [|x xs IH]; intros w HI; simpl.
  - by apply post_ret.
  - apply post_bind. eapply post_mono; [|by apply Hbody].
    intros ? w1 HI1. by apply IH.
Qed.

Lemma py_pos_inv len i r :
  py_pos len i = Ok r →
  (r < len)%nat ∧ (0 ≤ i → r = Z.to_nat i).
Proof.
  unfold py_pos. repeat case_decide; intros [= <-]; split; lia.
Qed.

Lemma post_doors_getitem i w (Q : Ref → World → Prop) :
  (∀ r, (r < length (doors w))%nat → (0 ≤ i → r = Z.to_nat i) → Q r w) →
  post (doors_getitem i) w Q.
Proof.
  intros HQ. unfold doors_getitem. apply post_bind, post_gets, post_lift.
  intros r Hr. apply py_pos_inv in Hr as [??]. auto.
Qed.

(** ** The reveal-all animation *)

Lemma pass_keeps_draw_updated self :
  board_ok self → pass (_draw_updated_doors self) keeps.
Proof.
  intros Hb. eapply pass_weaken; [|by apply pass_draw_updated_doors].
  by intros d d' [? _].
Qed.

Lemma pass_animate_open_all self :
  board_ok self →
  pass (_animate_open_all self)
       (λ d d', keeps d d' ∧ is_revealed d' = true ∧ is_updated d' = false).
Proof.
  intros Hb. unfold _animate_open_all.
  eapply (pass_seq _ _ keeps
    (λ d d', keeps d d' ∧ is_revealed d' = true ∧ is_updated d' = false)).
  { intros d1 d2 d3 H1 H2. destruct H2 as (H2 & Hr & Hu).
    split; [exact (keeps_trans _ _ _ H1 H2)|by split]. }
  { apply pass_for_each_door. intros r. apply step_read. intros dv.
    destruct (is_open dv).
    - eapply step_seq; [|apply step_assign|apply step_assign].
      intros d d' d'' -> -> _. by repeat split.
    - eapply step_weaken; [|apply step_skip]. intros d d' <- _.
      apply keeps_refl. }
  eapply (pass_seq _ _ keeps
    (λ d d', keeps d d' ∧ is_revealed d' = true ∧ is_updated d' = false)).
  { intros d1 d2 d3 H1 H2. destruct H2 as (H2 & Hr & Hu).
    split; [exact (keeps_trans _ _ _ H1 H2)|by split]. }
  { by apply pass_keeps_draw_updated. }
  eapply (pass_seq _ _ keeps
    (λ d d', keeps d d' ∧ is_revealed d' = true ∧ is_updated d' = false)).
  { intros d1 d2 d3 H1 H2. destruct H2 as (H2 & Hr & Hu).
    split; [exact (keeps_trans _ _ _ H1 H2)|by split]. }
  { apply pass_for_each; [apply keeps_refl|apply keeps_trans|]. intros i.
    eapply pass_seq; [apply keeps_trans| |by apply pass_keeps_draw_updated].
    apply pass_for_each_door. intros r. apply step_read. intros dv.
    destruct (negb (is_open dv)).
    - eapply step_seq; [|apply step_assign|apply step_assign].
      intros d d' d'' -> -> _. by repeat split.
    - eapply step_weaken; [|apply step_skip]. intros d d' <- _.
      apply keeps_refl. }
  eapply (pass_seq _ _ (λ d d', keeps d d' ∧ is_revealed d' = true)
    (λ d d', keeps d d' ∧ is_updated d' = false ∧
             is_revealed d' = is_revealed d ∧ pct_open d' = pct_open d)).
  { intros d1 d2 d3 (H1 & Hr) (H2 & Hu & Hr' & _).
    split; [exact (keeps_trans _ _ _ H1 H2)|]. split; [congruence|done]. }
  { apply pass_for_each_door. intros r.
    eapply step_seq; [|apply step_assign|apply step_assign].
    intros d d' d'' -> ->. by repeat split. }
  by apply pass_draw_updated_doors.
Qed.

(** How a revealed door that is not hidden is drawn. *)
Lemma revealed_door_surface d :
  is_hidden d = false → is_revealed d = true →
  get_door_surface d =
    [Fill (bg_color (props d));
     BlitActivity (if is_open d then activity_color (props d)
                   else unused_color (props d)) (activity d)].
Proof.
  intros Hh Hr. unfold get_door_surface. rewrite Hh, Hr.
  by destruct (is_open d).
Qed.

(** ** The selection cursor *)

Lemma keeps_same_flags d d' : keeps d d' → same_flags d d'.
Proof. intros (_&_&_&_&_&?&_&?). by split. Qed.

Lemma same_flags_insert ds r d d' :
  ds !! r = Some d → same_flags d d' →
  Forall2 same_flags ds (<[r := d']> ds).
Proof.
  intros Hd Hf. apply Forall2_same_length_lookup_2; [by rewrite length_insert|].
  intros i x y Hx Hy. destruct (decide (r = i)) as [->|Hne].
  - rewrite list_lookup_insert_eq in Hy by by eapply lookup_lt_Some.
    by simplify_eq.
  - rewrite list_lookup_insert_ne in Hy by done. simplify_eq. by split.
Qed.

Lemma same_flags_alter (f : Door → Door) r ds :
  (∀ d, same_flags d (f d)) → Forall2 same_flags ds (alter f r ds).
Proof.
  intros Hf. destruct (ds !! r) as [d|] eqn:Hd.
  - rewrite (alter_lookup_insert _ _ _ _ Hd). by eapply same_flags_insert.
  - apply Forall2_same_length_lookup_2; [by rewrite length_alter|].
    intros i x y Hx Hy. rewrite list_lookup_alter in Hy.
    case_decide as Hi.
    + by rewrite Hd in Hy.
    + simplify_eq. by split.
Qed.

Lemma only_selected_flags ds ds' k :
  Forall2 same_flags ds ds' → only_selected k ds → only_selected k ds'.
Proof.
  intros F [Hk Hsel]. split; [by rewrite <- (Forall2_length _ _ _ F)|].
  intros i d' Hd'. destruct (Forall2_lookup_r _ _ _ _ _ F Hd') as (d & Hd & [Hs _]).
  rewrite Hs. by apply Hsel.
Qed.

Lemma none_selected_flags ds ds' :
  Forall2 same_flags ds ds' → none_selected ds → none_selected ds'.
Proof.
  intros F Hn. apply Forall_lookup_2. intros i d' Hd'.
  destruct (Forall2_lookup_r _ _ _ _ _ F Hd') as (d & Hd & [Hs _]).
  rewrite Hs. by eapply (Forall_lookup_1 _ _ _ _ Hn).
Qed.

Lemma none_hidden_flags ds ds' :
  Forall2 same_flags ds ds' → none_hidden ds → none_hidden ds'.
Proof.
  intros F Hn. apply Forall_lookup_2. intros i d' Hd'.
  destruct (Forall2_lookup_r _ _ _ _ _ F Hd') as (d & Hd & [_ Hh]).
  rewrite Hh. by eapply (Forall_lookup_1 _ _ _ _ Hn).
Qed.

Lemma cursor_ok_flags w w' :
  cursor_ok w → Forall2 same_flags (doors w) (doors w') →
  selected_door w' = selected_door w → cursor_ok w'.
Proof.
  intros [(k & Hk & Hsel) Hh] F Hs. split.
  - exists k. split; [congruence|by eapply only_selected_flags].
  - by eapply none_hidden_flags.
Qed.

Lemma clear_selected k ds :
  only_selected k ds → none_selected (alter (set_is_selected false) k ds).
Proof.
  intros [Hk Hsel]. apply Forall_lookup_2. intros i d' Hd'.
  rewrite list_lookup_alter in Hd'. case_decide as Hi.
  - destruct (ds !! k); by simplify_eq/=.
  - destruct (is_selected d') eqn:Hs; [|done].
    apply Hsel in Hd'. by apply Hd' in Hs.
Qed.

Lemma set_selected n ds :
  none_selected ds → (n < length ds)%nat →
  only_selected n (alter (set_is_selected true) n ds).
Proof.
  intros Hn Hlt. split; [by rewrite length_alter|].
  intros i d' Hd'. rewrite list_lookup_alter in Hd'. case_decide as Hi.
  - destruct (ds !! n); simplify_eq/=. done.
  - rewrite (Forall_lookup_1 _ _ _ _ Hn Hd'). split; [done|]. by intros ->.
Qed.

Lemma none_hidden_alter (f : Door → Door) r ds :
  (∀ d, is_hidden (f d) = is_hidden d) →
  none_hidden ds → none_hidden (alter f r ds).
Proof.
  intros Hf Hn. apply Forall_alter; [done|]. intros d _ Hd.
  by rewrite Hf.
Qed.

Lemma count_none_selected ds : none_selected ds → count_selected ds = 0%nat.
Proof.
  induction 1 as [|d ds Hd _ IH]; [done|]. simpl. by rewrite Hd, IH.
Qed.

Lemma count_only_selected ds : ∀ k,
  only_selected k ds → count_selected ds = 1%nat.
Proof.
  induction ds as [|d ds IH]; intros k [Hk Hsel]; [simpl in Hk; lia|].
  simpl. destruct k as [|k].
  - assert (Hd : is_selected d = true) by by apply (Hsel 0%nat).
    rewrite Hd, count_none_selected; [done|].
    apply Forall_lookup_2. intros i x Hx.
    destruct (is_selected x) eqn:Hs; [|done].
    by apply (Hsel (S i)) in Hs.
  - assert (Hd : is_selected d = false).
    { destruct (is_selected d) eqn:Hs; [|done]. by apply (Hsel 0%nat) in Hs. }
    rewrite Hd. simpl. apply (IH k). split; [simpl in Hk; lia|].
    intros i x Hx. rewrite (Hsel (S i) x Hx). lia.
Qed.

(** ** The handlers keep the cursor *)

Lemma post_get_selected_door w (Q : Ref → World → Prop) :
  (∀ k, selected_door w = Some k → Q k w) → post get_selected_door w Q.
Proof.
  intros H k w'. unfold get_selected_door.
  destruct (selected_door w) eqn:Hs; [|done]. intros [= <- <-]. auto.
Qed.

Lemma post_doors_getitem_pos i w (Q : Ref → World → Prop) :
  (∀ r, py_pos (length (doors w)) i = Ok r → Q r w) →
  post (doors_getitem i) w Q.
Proof.
  intros HQ. unfold doors_getitem. by apply post_bind, post_gets, post_lift.
Qed.

Lemma post_assign r f w (Q : unit → World → Prop) :
  Q tt (with_doors (alter f r (doors w)) w) → post (assign r f) w Q.
Proof. apply post_modify. Qed.

Lemma step_animate_open self k :
  board_ok self →
  step_at k (_animate_open self k) (λ d d', d' = set_pct_open 100 d).
Proof.
  intros Hb w d Hd.
  destruct (door_coords_ok self (index d) Hb) as (x & y & Hx & Hy).
  destruct (animate_open_steps self k x y (py_range3 2 102 2) w d Hd Hx Hy)
    as (w' & E & D & _ & S & _).
  exists w', (set_pct_open 100 d).
  split; [exact E|]. split; [exact D|]. split; [done|exact S].
Qed.

Lemma step_show_activity self k : step_at k (_show_activity self k) eq.
Proof.
  intros w d Hd. destruct (show_activity_ok self k w d Hd) as (w' & E & D & S).
  exists w', d. split; [done|]. split; [by rewrite D, list_insert_id|done].
Qed.

Lemma cursor_ok_env w w' :
  doors w' = doors w → selected_door w' = selected_door w →
  cursor_ok w → cursor_ok w'.
Proof. unfold cursor_ok. by intros -> ->. Qed.

Lemma cursor_ok_insert w w' r d d' :
  doors w !! r = Some d → doors w' = <[r := d']> (doors w) →
  same_flags d d' → selected_door w' = selected_door w →
  cursor_ok w → cursor_ok w'.
Proof.
  intros Hd D Hf Hs Hc. eapply cursor_ok_flags; [exact Hc| |exact Hs].
  rewrite D. by eapply same_flags_insert.
Qed.

Lemma cursor_ok_keeps w w' :
  Forall2 keeps (doors w) (doors w') → steady w w' →
  cursor_ok w → cursor_ok w'.
Proof.
  intros F (_&_&Hs&_) Hc. eapply cursor_ok_flags; [exact Hc| |exact Hs].
  eapply Forall2_impl; [exact F|apply keeps_same_flags].
Qed.

Lemma on_move_preserves self a w :
  board_ok self → cursor_ok w →
  post (on_move self a) w (λ _ w', cursor_ok w' ∧ state w' = state w).
Proof.
  intros Hb Hc. unfold on_move.
  apply post_bind, post_get_selected_door. intros k Hk.
  apply post_bind, post_read. intros d Hd.
  apply post_bind, post_lift. intros new_index _.
  apply post_bind. case_decide as Hmove.
  2:{ apply post_ret, post_emit. split; [|done]. by eapply cursor_ok_env. }
  destruct Hc as [(k' & Hk' & Hsel) Hhid].
  assert (k' = k) as -> by congruence.
  apply post_bind, post_assign, post_bind, post_assign.
  apply post_bind, post_doors_getitem_pos. intros n Hn. simpl in Hn.
  apply post_bind, post_assign.
  apply post_bind, post_doors_getitem_pos. intros n2 Hn2. simpl in Hn2.
  apply post_bind, post_assign.
  apply post_bind, post_doors_getitem_pos. intros n3 Hn3. simpl in Hn3.
  repeat rewrite length_alter in Hn. repeat rewrite length_alter in Hn2.
  repeat rewrite length_alter in Hn3.
  assert (n2 = n) as -> by congruence. assert (n3 = n) as -> by congruence.
  apply py_pos_inv in Hn as [Hlt _].
  apply post_bind, post_modify.
  apply post_bind, post_play_random_sound. intros w1 D1 S1.
  eapply post_pass; [by apply pass_keeps_draw_updated|]. intros w2 F2 S2.
  apply post_emit.
  pose proof (steady_trans _ _ _ S1 S2) as S12.
  split; [|simpl; destruct S12 as (_ & Hst & _); by rewrite Hst].
  eapply cursor_ok_env; [reflexivity|reflexivity|].
  eapply cursor_ok_keeps; [exact F2|exact S2|].
  eapply cursor_ok_env; [exact D1|exact (steady_selected _ _ S1)|].
  split; simpl.
  - exists n. split; [done|].
    eapply only_selected_flags; [by apply same_flags_alter|].
    apply set_selected; [|by rewrite !length_alter].
    eapply none_selected_flags; [by apply same_flags_alter|].
    by apply clear_selected.
  - by repeat apply none_hidden_alter.
Qed.

Lemma on_selecting_preserves self a w :
  board_ok self → cursor_ok w → state w ≠ START →
  post (on_selecting_event self a) w (λ _ w', cursor_ok w' ∧ state w' ≠ START).
Proof.
  intros Hb Hc Hst.
  assert (Hmove : ∀ m, post (on_move self m) w
                         (λ _ w', cursor_ok w' ∧ state w' ≠ START)).
  { intros m. eapply post_mono; [|by apply on_move_preserves].
    intros _ w' [? ->]. done. }
  destruct a as [[]|]; simpl; try apply Hmove; try (by apply post_ret).
  - (* OPEN *)
    apply post_bind, post_get_selected_door. intros k Hk.
    apply post_bind, post_read. intros d Hd.
    apply post_bind. destruct (negb (is_open d)).
    + apply post_bind, post_play_random_sound. intros w1 D1 S1.
      assert (Hc1 : cursor_ok w1)
        by (eapply cursor_ok_env; [exact D1|exact (steady_selected _ _ S1)|done]).
      assert (Hd1 : doors w1 !! k = Some d) by by rewrite D1.
      apply post_bind.
      eapply post_step; [by apply step_animate_open|exact Hd1|].
      intros w2 d2 D2 -> S2.
      assert (Hc2 : cursor_ok w2).
      { eapply cursor_ok_insert; [exact Hd1|exact D2|by split| |exact Hc1].
        exact (steady_selected _ _ S2). }
      assert (Hd2 : doors w2 !! k = Some (set_pct_open 100 d)).
      { rewrite D2. apply list_lookup_insert_eq. by eapply lookup_lt_Some. }
      apply post_bind.
      eapply post_step; [apply step_show_activity|exact Hd2|].
      intros w3 d3 D3 <- S3. rewrite list_insert_id in D3 by done.
      assert (Hc3 : cursor_ok w3).
      { eapply cursor_ok_env; [exact D3|exact (steady_selected _ _ S3)|done]. }
      apply post_bind, post_assign, post_modify, post_emit.
      split; [|done].
      eapply cursor_ok_flags; [exact Hc3| |reflexivity]. simpl.
      by apply same_flags_alter.
    + apply post_play_random_sound. intros w1 D1 S1. apply post_emit.
      split; [|simpl; by rewrite (steady_state _ _ S1)].
      eapply cursor_ok_env; [exact D1|exact (steady_selected _ _ S1)|done].
  - (* REVEAL *)
    apply post_bind, post_play_random_sound. intros w1 D1 S1.
    apply post_bind.
    eapply post_pass; [by apply pass_animate_open_all|]. intros w2 F2 S2.
    apply post_bind, post_modify, post_emit. split; [|done].
    apply (cursor_ok_env w2); [reflexivity|reflexivity|].
    eapply cursor_ok_keeps; [|exact S2|].
    { eapply Forall2_impl; [exact F2|]. by intros ?? [? _]. }
    eapply cursor_ok_env; [exact D1|exact (steady_selected _ _ S1)|done].
Qed.

Lemma on_in_progress_preserves self a w :
  board_ok self → cursor_ok w → state w ≠ START →
  post (on_in_progress_event self a) w
       (λ _ w', cursor_ok w' ∧ state w' ≠ START).
Proof.
  intros Hb Hc Hst. destruct a as [[]|]; simpl; try (by apply post_ret).
  apply post_bind.
  eapply post_pass; [by apply pass_draw_all_doors|]. intros w1 F1 S1.
  apply post_bind, post_modify, post_emit. split; [|done].
  apply (cursor_ok_env w1); [reflexivity|reflexivity|].
  eapply cursor_ok_keeps; [|exact S1|exact Hc].
  eapply Forall2_impl; [exact F1|]. by intros ?? [? _].
Qed.

Lemma on_all_revealed_preserves self a w :
  cursor_ok w → state w ≠ START →
  post (on_all_revealed_event self a) w
       (λ _ w', cursor_ok w' ∧ state w' ≠ START).
Proof.
  intros Hc Hst. destruct a as [[]|]; simpl; by apply post_ret.
Qed.

(** ** The [START] branch *)

Lemma post_random_choice {A} (l : list A) w (Q : A → World → Prop) :
  (∀ x, x ∈ l → Q x (with_rng_calls (S (rng_calls w)) w)) →
  post (random_choice l) w Q.
Proof.
  intros HQ x w' E. apply random_choice_inv in E as [Hx ->]. by apply HQ.
Qed.

Lemma py_remove_inv {A} `{EqDecision A} (x : A) (l l' : list A) :
  x ∈ l → py_remove x l = Ok l' → l ≡ₚ x :: l'.
Proof.
  intros Hx E. destruct (py_remove_ok x l Hx) as (l2 & E2 & P).
  rewrite E in E2. by injection E2 as ->.
Qed.

Lemma intro_loop_post self : board_ok self → ∀ fuel l w,
  (length l ≤ fuel)%nat → intro_inv l w →
  post (intro_loop self fuel l) w
       (λ _ w', none_selected (doors w') ∧ none_hidden (doors w')).
Proof.
  intros Hb. induction fuel as [|fuel IH]; intros l w Hlen (Hsel & Hpos & Hhid).
  - destruct l; [|simpl in Hlen; lia]. apply post_ret. split; [done|].
    apply Forall_lookup_2. intros i d Hd.
    destruct (is_hidden d) eqn:Hh; [|done].
    by apply (Hhid i d Hd), elem_of_nil in Hh.
  - destruct l as [|z l0].
    { apply post_ret. split; [done|]. apply Forall_lookup_2. intros i d Hd.
      destruct (is_hidden d) eqn:Hh; [|done].
      by apply (Hhid i d Hd), elem_of_nil in Hh. }
    set (l := z :: l0) in *. change (intro_loop self (S fuel) l) with
      (intro_show_index ← random_choice l;
       d ← doors_getitem intro_show_index;
       assign d (set_is_hidden false);;
       assign d (set_is_updated true);;
       _draw_updated_doors self;;
       rest ← lift (py_remove intro_show_index l);
       emit (Sleep (intro_step_time self));;
       intro_loop self fuel rest).
    apply post_bind, post_random_choice. intros x Hx.
    assert (0 ≤ x) as Hx0 by (by eapply Forall_forall in Hpos).
    apply post_bind, post_doors_getitem. intros r Hr Hrx. simpl in Hr.
    specialize (Hrx Hx0). subst r.
    apply post_bind, post_assign, post_bind, post_assign, post_bind.
    eapply post_pass; [by apply pass_keeps_draw_updated|]. intros w2 F2 S2.
    simpl in F2.
    apply post_bind, post_lift. intros rest Hrest.
    apply py_remove_inv in Hrest; [|done].
    apply post_bind, post_emit. apply IH.
    { apply Permutation_length in Hrest. simpl in Hrest, Hlen.
      unfold l in Hrest. simpl in Hrest. lia. }
    split; [|split]; simpl.
    + eapply none_selected_flags.
      { eapply Forall2_impl; [exact F2|apply keeps_same_flags]. }
      apply Forall_alter; [|done]. apply Forall_alter; [|done].
      eapply Forall_impl; [exact Hsel|]. done.
    + rewrite Hrest in Hpos. by apply Forall_cons in Hpos as [_ ?].
    + intros i d' Hd' Hh.
      destruct (Forall2_lookup_r _ _ _ _ _ F2 Hd') as (d1 & Hd1 & Hk).
      assert (is_hidden d1 = true) as Hh1.
      { destruct Hk as (_&_&_&_&_&_&_&Hk). by rewrite <- Hk. }
      rewrite !list_lookup_alter in Hd1.
      destruct (decide (i = Z.to_nat x)) as [->|Hne].
      { rewrite !decide_True in Hd1 by done.
        destruct (doors w !! Z.to_nat x) as [d0|]; simplify_eq/=. }
      rewrite !decide_False in Hd1 by done.
      pose proof (Hhid i d1 Hd1 Hh1) as Hin. rewrite Hrest in Hin.
      apply elem_of_cons in Hin as [Hin|Hin]; [lia|done].
Qed.

Lemma post_show_grid self w :
  board_ok self → none_selected (doors w) →
  Forall (λ d, is_hidden d = start_hidden self) (doors w) →
  length (doors w) = Z.to_nat (num_doors self) →
  post (if start_hidden self then _animate_intro self
        else _draw_all_doors self) w
       (λ _ w', none_selected (doors w') ∧ none_hidden (doors w')).
Proof.
  intros Hb Hsel Hhid Hlen.
  assert (Hdraw : ∀ w', Forall2
            (λ d d', keeps d d' ∧ is_updated d' = false ∧
                     is_revealed d' = is_revealed d ∧ pct_open d' = pct_open d)
            (doors w) (doors w') → Forall2 same_flags (doors w) (doors w')).
  { intros w' F. eapply Forall2_impl; [exact F|].
    intros ?? [? _]. by apply keeps_same_flags. }
  destruct (start_hidden self) eqn:Hsh.
  - unfold _animate_intro. apply post_bind.
    eapply post_pass; [by apply pass_draw_all_doors|]. intros w1 F1 S1.
    apply intro_loop_post; [done|done|].
    split; [|split].
    + eapply none_selected_flags; [by apply Hdraw|done].
    + apply Forall_forall. intros i Hi. unfold py_range in Hi.
      apply elem_of_seqZ in Hi. lia.
    + intros i d Hd _. unfold py_range. apply elem_of_seqZ.
      apply lookup_lt_Some in Hd.
      rewrite <- (Forall2_length _ _ _ F1), Hlen in Hd. lia.
  - eapply post_pass; [by apply pass_draw_all_doors|]. intros w1 F1 S1.
    split.
    + eapply none_selected_flags; [by apply Hdraw|done].
    + eapply none_hidden_flags; [by apply Hdraw|done].
Qed.

Lemma on_start_establishes self w :
  board_ok self → none_selected (doors w) →
  Forall (λ d, is_hidden d = start_hidden self) (doors w) →
  length (doors w) = Z.to_nat (num_doors self) →
  post (on_start self) w (λ _ w', cursor_ok w' ∧ state w' = SELECTING).
Proof.
  intros Hb Hsel Hhid Hlen. unfold on_start.
  apply post_bind, post_play_random_sound. intros w1 D1 S1.
  apply post_bind. eapply post_mono; [|apply post_show_grid; by rewrite ?D1].
  intros _ w2 [Hsel2 Hhid2]. simpl.
  apply post_bind, post_doors_getitem. intros r Hr Hr0.
  specialize (Hr0 ltac:(lia)). simpl in Hr0. subst r.
  apply post_bind, post_assign.
  apply post_bind, post_doors_getitem. intros r _ Hr0.
  specialize (Hr0 ltac:(lia)). simpl in Hr0. subst r.
  apply post_bind, post_assign.
  apply post_bind, post_doors_getitem. intros r _ Hr0.
  specialize (Hr0 ltac:(lia)). simpl in Hr0. subst r.
  apply post_bind, post_modify, post_bind.
  eapply post_pass; [by apply pass_keeps_draw_updated|]. intros w3 F3 S3.
  apply post_bind, post_modify, post_emit. split; [|done].
  apply (cursor_ok_env w3); [reflexivity|reflexivity|].
  eapply cursor_ok_keeps; [exact F3|exact S3|].
  split; simpl.
  - exists 0%nat. split; [done|].
    eapply only_selected_flags; [by apply same_flags_alter|].
    by apply set_selected.
  - by repeat apply none_hidden_alter.
Qed.

(** ** The invariant of the run *)

Lemma init_inv self pool w w0 :
  ActivityBoard_init self pool w = Ok (tt, w0) →
  board_ok self ∧ (doors_horiz self | surface_width self) ∧
  (doors_vert self | surface_height self) ∧
  num_doors self ≤ Z.of_nat (length pool).
Proof.
  intros E.
  destruct (decide (doors_horiz self = 0)) as [Hh|Hh].
  { rewrite init_zero_division in E by (by left). done. }
  destruct (decide (surface_width self `mod` doors_horiz self = 0)) as [Hw|Hw];
    rewrite Z.mod_divide in Hw by done.
  2:{ rewrite init_width_error in E by done. done. }
  destruct (decide (doors_vert self = 0)) as [Hv|Hv].
  { rewrite init_zero_division in E by (by right). done. }
  destruct (decide (surface_height self `mod` doors_vert self = 0)) as [Hs|Hs];
    rewrite Z.mod_divide in Hs by done.
  2:{ rewrite init_height_error in E by done. done. }
  destruct (decide (Z.of_nat (length pool) < num_doors self)) as [Hp|Hp].
  { rewrite init_short_pool in E by done. done. }
  repeat split; try done. lia.
Qed.

Lemma constructed_doors self w0 :
  constructed self w0 →
  board_ok self ∧
  Forall2 (fresh_door self (start_hidden self))
          (seqZ 0 (num_doors self)) (doors w0).
Proof.
  intros (pool & oracle & polls & E).
  destruct (init_inv _ _ _ _ E) as (Hb & Hw & Hs & Hp). split; [done|].
  destruct Hb as [Hh Hv].
  rewrite init_after_checks in E by done. unfold _build_door_list in E.
  destruct (build_doors_enough self (start_hidden self) (conj Hh Hv)
              (py_range (num_doors self)) []
              (with_activities pool (fresh_world oracle polls)))
    as (ds & w' & E' & F & _).
  { unfold py_range. rewrite length_seqZ. simpl. lia. }
  rewrite (bind_Ok _ _ _ _ _ E') in E. simpl in E.
  unfold modify in E. by simplify_eq/=.
Qed.

Lemma constructed_run_inv self w0 :
  constructed self w0 → run_inv self (run_entry w0).
Proof.
  intros Hc. destruct (constructed_doors _ _ Hc) as [Hb F].
  split; [done|]. split; [|done]. intros _. simpl.
  split; [|split].
  - eapply Forall2_right; [|exact F]. by intros ?? (_&_&?&_).
  - eapply Forall2_right; [|exact F]. by intros ?? (_&_&_&_&_&?&_).
  - rewrite <- (Forall2_length _ _ _ F). apply length_seqZ.
Qed.

Lemma reachable_run_inv self w0 w :
  constructed self w0 → reachable self w0 w → run_inv self w.
Proof.
  intros Hc. induction 1 as
    [|w w' _ IH Hst E|w b w' _ IH Hst E|w a w' _ IH Hst E
     |w a w' _ IH Hst E|w a w' _ IH Hst E].
  - by apply constructed_run_inv.
  - destruct IH as (Hb & Hstart & _).
    destruct (Hstart Hst) as (Hsel & Hhid & Hlen).
    destruct (on_start_establishes self w Hb Hsel Hhid Hlen _ _ E) as [Hcur Hs].
    split; [done|]. split; [intros Hs'; congruence|done].
  - destruct IH as (Hb & _ & Hcur). specialize (Hcur Hst).
    assert (doors w' = doors w ∧ selected_door w' = selected_door w ∧
            state w' = state w) as (D & S & St).
    { unfold pygame_event_get in E. destruct (events w); by simplify_eq/=. }
    split; [done|]. split; [intros Hs'; congruence|].
    intros _. by eapply cursor_ok_env.
  - destruct IH as (Hb & _ & Hcur). specialize (Hcur Hst).
    destruct (on_selecting_preserves self a w Hb Hcur Hst _ _ E) as [? ?].
    split; [done|]. by split.
  - destruct IH as (Hb & _ & Hcur). specialize (Hcur Hst).
    destruct (on_in_progress_preserves self a w Hb Hcur Hst _ _ E) as [? ?].
    split; [done|]. by split.
  - destruct IH as (Hb & _ & Hcur). specialize (Hcur Hst).
    destruct (on_all_revealed_preserves self a w Hcur Hst _ _ E) as [? ?].
    split; [done|]. by split.
Qed.

(** ** The worlds of [run] are reachable *)

Section Run.
Variable self : Board.
Variable w0 : World.
Hypothesis Hcons : constructed self w0.

Lemma batch_reachable (handler : option Action → M unit) (batch : Batch) w :
  (∀ a w w', reachable self w0 w → state w ≠ START →
     handler a w = Ok (tt, w') →
     reachable self w0 w' ∧ state w' ≠ START) →
  reachable self w0 w → state w ≠ START →
  post (for_each batch handler) w
       (λ _ w', reachable self w0 w' ∧ state w' ≠ START).
Proof.
  intros Hh Hr Hst.
  apply (post_for_each batch handler
           (λ w, reachable self w0 w ∧ state w ≠ START)); [|done].
  intros a w1 [Hr1 Hst1] [] w2 E. by eapply Hh.
Qed.

Lemma selecting_reachable a w w' :
  reachable self w0 w → state w ≠ START →
  on_selecting_event self a w = Ok (tt, w') →
  reachable self w0 w' ∧ state w' ≠ START.
Proof.
  intros Hr Hst E. split; [by eapply reach_selecting|].
  destruct (reachable_run_inv _ _ _ Hcons Hr) as (Hb & _ & Hcur).
  by destruct (on_selecting_preserves self a w Hb (Hcur Hst) Hst _ _ E).
Qed.

Lemma in_progress_reachable a w w' :
  reachable self w0 w → state w ≠ START →
  on_in_progress_event self a w = Ok (tt, w') →
  reachable self w0 w' ∧ state w' ≠ START.
Proof.
  intros Hr Hst E. split; [by eapply reach_in_progress|].
  destruct (reachable_run_inv _ _ _ Hcons Hr) as (Hb & _ & Hcur).
  by destruct (on_in_progress_preserves self a w Hb (Hcur Hst) Hst _ _ E).
Qed.

Lemma all_revealed_reachable a w w' :
  reachable self w0 w → state w ≠ START →
  on_all_revealed_event self a w = Ok (tt, w') →
  reachable self w0 w' ∧ state w' ≠ START.
Proof.
  intros Hr Hst E. split; [by eapply reach_all_revealed|].
  destruct (reachable_run_inv _ _ _ Hcons Hr) as (Hb & _ & Hcur).
  by destruct (on_all_revealed_preserves self a w (Hcur Hst) Hst _ _ E).
Qed.

Lemma poll_reachable w b w' :
  reachable self w0 w → state w ≠ START →
  pygame_event_get w = Ok (b, w') →
  reachable self w0 w' ∧ state w' ≠ START.
Proof.
  intros Hr Hst E. split; [by eapply reach_poll|].
  unfold pygame_event_get in E. destruct (events w); by simplify_eq/=.
Qed.

Lemma run_iteration_reachable w :
  reachable self w0 w →
  post (run_iteration self) w (λ _ w', reachable self w0 w').
Proof.
  intros Hr. unfold run_iteration. apply post_bind, post_gets.
  destruct (state w) eqn:Hst.
  - intros [] w' E. by eapply reach_start.
  - apply post_bind. intros b w1 E1.
    destruct (poll_reachable w b w1 Hr ltac:(congruence) E1) as [Hr1 Hst1].
    eapply post_mono; [|apply batch_reachable;
                         [apply selecting_reachable|done|done]].
    by intros ?? [? _].
  - apply post_bind. intros b w1 E1.
    destruct (poll_reachable w b w1 Hr ltac:(congruence) E1) as [Hr1 Hst1].
    eapply post_mono; [|apply batch_reachable;
                         [apply in_progress_reachable|done|done]].
    by intros ?? [? _].
  - apply post_bind. intros b w1 E1.
    destruct (poll_reachable w b w1 Hr ltac:(congruence) E1) as [Hr1 Hst1].
    eapply post_mono; [|apply batch_reachable;
                         [apply all_revealed_reachable|done|done]].
    by intros ?? [? _].
  - by apply post_ret.
Qed.

Lemma post_get_play_again w (Q : bool → World → Prop) :
  (∀ b, play_again w = Some b → Q b w) → post get_play_again w Q.
Proof.
  intros HQ b w' E. unfold get_play_again in E.
  destruct (play_again w) eqn:Hp; simplify_eq. by apply HQ.
Qed.

Lemma run_loop_reachable fuel : ∀ w,
  reachable self w0 w →
  post (run_loop self fuel) w (λ _ w', reachable self w0 w').
Proof.
  induction fuel as [|fuel IH]; intros w Hr; simpl;
    apply post_bind, post_gets; case_decide.
  - apply post_bind, post_get_play_again. intros b _. by apply post_ret.
  - by apply post_ret.
  - apply post_bind, post_get_play_again. intros b _. by apply post_ret.
  - apply post_bind. eapply post_mono; [|by apply run_iteration_reachable].
    intros ? w1 Hr1. by apply IH.
Qed.

Lemma run_reachable fuel r w :
  run self fuel w0 = Ok (r, w) → reachable self w0 w.
Proof.
  unfold run. intros E. apply bind_inv in E as ([] & w1 & E1 & E2).
  unfold modify in E1. simplify_eq.
  eapply run_loop_reachable; [apply reach_entry|exact E2].
Qed.

End Run.

(** ** The selection cursor *)

(** Where a directional action leaves the cursor: on the door that
    [self._doors[new_index]] denotes when the new index differs from the
    index of the selected door, and where it was otherwise. *)
Lemma on_move_cursor self a w :
  board_ok self →
  post (on_move self a) w (λ _ w',
    length (doors w') = length (doors w) ∧
    ∃ k d n k',
      selected_door w = Some k ∧ doors w !! k = Some d ∧
      _get_new_selection self d a = Ok n ∧
      (if decide (n = index d) then k' = k
       else py_pos (length (doors w)) n = Ok k') ∧
      selected_door w' = Some k').
Proof.
  intros Hb. unfold on_move.
  apply post_bind, post_get_selected_door. intros k Hk.
  apply post_bind, post_read. intros d Hd.
  apply post_bind, post_lift. intros n Hn.
  apply post_bind. case_decide as Hmove.
  2:{ apply post_ret, post_emit. split; [done|]. exists k, d, n, k.
      by rewrite decide_True. }
  apply post_bind, post_assign, post_bind, post_assign.
  apply post_bind, post_doors_getitem_pos. intros k1 Hk1. simpl in Hk1.
  apply post_bind, post_assign.
  apply post_bind, post_doors_getitem_pos. intros k2 Hk2. simpl in Hk2.
  apply post_bind, post_assign.
  apply post_bind, post_doors_getitem_pos. intros k3 Hk3. simpl in Hk3.
  repeat rewrite length_alter in Hk1. repeat rewrite length_alter in Hk2.
  repeat rewrite length_alter in Hk3.
  apply post_bind, post_modify.
  apply post_bind, post_play_random_sound. intros w1 D1 S1.
  eapply post_pass; [by apply pass_keeps_draw_updated|]. intros w2 F2 S2.
  apply post_emit. simpl. split.
  - rewrite <- (Forall2_length _ _ _ F2), D1. simpl.
    by rewrite !length_alter.
  - exists k, d, n, k3. rewrite decide_False by done.
    rewrite (steady_selected _ _ S2), (steady_selected _ _ S1). done.
Qed.

(** C2: in every world that a run on a constructed board reaches in
    [SELECTING], [IN_PROGRESS] or [ALL_REVEALED], exactly one door of the
    door list has [is_selected] set, and it is the door that
    [selected_door] refers to.  A directional action keeps it so: the
    cursor goes to the door at the new index, that door is the one
    selected afterwards, and when the cursor has moved the flag of the old
    door is cleared and the flag of the new door is set. *)
Theorem C2_exactly_one_selected (self : Board) (w0 w : World) :
  constructed self w0 → reachable self w0 w →
  state w = SELECTING ∨ state w = IN_PROGRESS ∨ state w = ALL_REVEALED →
  count_selected (doors w) = 1%nat ∧
  ∃ k, selected_door w = Some k ∧ only_selected k (doors w) ∧
    ∀ a w', is_direction a = true →
      on_selecting_event self (Some a) w = Ok (tt, w') →
      count_selected (doors w') = 1%nat ∧
      ∃ d n k',
        doors w !! k = Some d ∧
        _get_new_selection self d a = Ok n ∧
        (if decide (n = index d) then k' = k
         else py_pos (length (doors w)) n = Ok k') ∧
        selected_door w' = Some k' ∧ only_selected k' (doors w') ∧
        (k' ≠ k →
           (is_selected <$> doors w' !! k) = Some false ∧
           (is_selected <$> doors w' !! k') = Some true).
Proof.
  intros Hc Hr Hst.
  assert (state w ≠ START) as Hns by (destruct Hst as [?|[?|?]]; congruence).
  destruct (reachable_run_inv _ _ _ Hc Hr) as (Hb & _ & Hcur).
  destruct (Hcur Hns) as [(k & Hk & Honly) Hhid].
  split; [by eapply count_only_selected|].
  exists k. split; [done|]. split; [done|].
  intros a w' Ha E.
  assert (reachable self w0 w') as Hr' by (by eapply reach_selecting).
  assert (on_move self a w = Ok (tt, w')) as Em by (by destruct a).
  destruct (on_move_preserves self a w Hb (Hcur Hns) _ _ Em)
    as [[(k' & Hk' & Honly') _] _].
  split; [by eapply count_only_selected|].
  destruct (on_move_cursor self a w Hb _ _ Em)
    as (Hlen & k0 & d & n & k1 & Hk0 & Hd & Hn & Hpos & Hk1).
  assert (k0 = k) as -> by congruence. assert (k1 = k') as -> by congruence.
  exists d, n, k'. repeat (split; [done|]).
  intros Hne. destruct Honly' as [Hlt Hiff]. unfold Ref in *. split.
  - destruct (lookup_lt_is_Some_2 (doors w') k) as [old Hold].
    { rewrite Hlen. by eapply lookup_lt_Some. }
    rewrite Hold. simpl. f_equal.
    destruct (is_selected old) eqn:Hs; [|done].
    apply (Hiff k old Hold) in Hs. done.
  - destruct (lookup_lt_is_Some_2 (doors w') k' Hlt) as [new Hnew].
    rewrite Hnew. simpl. f_equal. by apply (Hiff k' new Hnew).
Qed.

Lemma C2_exactly_one_selected_witness :
  let w0 := example_world (λ k, k) [] in
  let w := example_after [] 1 in
  let w' := example_after [[Some RIGHT]] 2 in
  state w = SELECTING ∧
  on_selecting_event example_board (Some RIGHT) w = Ok (tt, w') ∧
  count_selected (doors w) = 1%nat ∧ count_selected (doors w') = 1%nat ∧
  selected_door w = Some 0%nat ∧ selected_door w' = Some 1%nat.
Proof.
  intros w0 w w'.
  assert (Hc : constructed example_board w0).
  { exists example_pool, (λ k, k), []. vm_compute. reflexivity. }
  assert (Hr : reachable example_board w0 w).
  { apply (run_reachable example_board w0 Hc 1 None). vm_compute. reflexivity. }
  assert (Hst : state w = SELECTING) by (vm_compute; reflexivity).
  assert (E : on_selecting_event example_board (Some RIGHT) w = Ok (tt, w'))
    by (vm_compute; reflexivity).
  destruct (C2_exactly_one_selected example_board w0 w Hc Hr (or_introl Hst))
    as (Hcount & k & Hk & _ & Hmove).
  destruct (Hmove RIGHT w' eq_refl E) as (Hcount' & _).
  split; [exact Hst|]. split; [exact E|]. split; [exact Hcount|].
  split; [exact Hcount'|]. split; vm_compute; reflexivity.
Defined.

(** ** Reveal-all *)

Lemma fmap_eq_Forall2 {A B} (f g : A → B) (l k : list A) :
  Forall2 (λ x y, f y = g x) l k → f <$> k = g <$> l.
Proof.
  induction 1 as [|x y l k E _ IH]; [done|]. rewrite !fmap_cons. by f_equal.
Qed.



(** ** Leaving the game *)

Lemma run_loop_game_over self fuel w b :
  state w = GAME_OVER → play_again w = Some b →
  run_loop self fuel w = Ok (Some b, w).
Proof.
  intros Hst Hp. destruct fuel; simpl; mrun; rewrite Hst; simpl;
    by rewrite Hp.
Qed.

Lemma run_loop_step self fuel w :
  state w ≠ GAME_OVER →
  run_loop self (S fuel) w = (run_iteration self;; run_loop self fuel) w.
Proof.
  intros Hst. simpl. mrun. by destruct (state w).
Qed.

Lemma run_loop_out_of_fuel self w :
  state w ≠ GAME_OVER → run_loop self 0 w = Ok (None, w).
Proof. intros Hst. simpl. mrun. by destruct (state w). Qed.

(** With the activity on the screen and no event pending, the loop
    spins: no number of passes makes [run] return. *)
Lemma in_progress_idle self w fuel :
  state w = IN_PROGRESS → events w = [] →
  run_loop self fuel w = Ok (None, w).
Proof.
  intros Hst Hev. induction fuel as [|fuel IH].
  - apply run_loop_out_of_fuel. by rewrite Hst.
  - rewrite run_loop_step by (by rewrite Hst).
    rewrite (bind_Ok _ _ _ tt w); [exact IH|].
    unfold run_iteration, pygame_event_get. mrun. by rewrite Hst, Hev.
Qed.

(** C8: one pass of the loop in [SELECTING].  A batch that holds only
    Restart ends the game with [play_again] true, and one that holds only
    Quit ends it with [play_again] false.  When the batch holds Restart
    and then Quit, the Quit is handled too, although the machine is in
    [GAME_OVER] by then, and [run] returns false. *)
Theorem C8_restart_overridden_in_batch
    (self : Board) (w : World) (rest : list Batch) (fuel : nat) :
  state w = SELECTING →
  (events w = [Some RESTART] :: rest →
     ∃ w', run_loop self (S fuel) w = Ok (Some true, w') ∧
           state w' = GAME_OVER ∧ doors w' = doors w) ∧
  (events w = [Some QUIT] :: rest →
     ∃ w', run_loop self (S fuel) w = Ok (Some false, w') ∧
           state w' = GAME_OVER ∧ doors w' = doors w) ∧
  (events w = [Some RESTART; Some QUIT] :: rest →
     ∃ w', run_loop self (S fuel) w = Ok (Some false, w') ∧
           state w' = GAME_OVER ∧ doors w' = doors w).
Proof.
  intros Hst.
  assert (Hrun : ∀ batch b w1,
    events w = batch :: rest →
    for_each batch (on_selecting_event self) (with_events rest w)
      = Ok (tt, w1) →
    state w1 = GAME_OVER → play_again w1 = Some b →
    run_loop self (S fuel) w = Ok (Some b, w1)).
  { intros batch b w1 Hev E Hs1 Hp1.
    rewrite run_loop_step by (by rewrite Hst).
    rewrite (bind_Ok _ _ _ tt w1); [by apply run_loop_game_over|].
    unfold run_iteration, pygame_event_get. mrun. by rewrite Hst, Hev. }
  split; [|split]; intros Hev; eexists;
    (split; [eapply Hrun; [exact Hev|reflexivity|reflexivity|reflexivity]|]);
    done.
Qed.

Lemma C8_restart_overridden_in_batch_witness :
  let w := example_after [[Some RESTART; Some QUIT]] 1 in
  state w = SELECTING ∧ events w = [[Some RESTART; Some QUIT]] ∧
  (∃ w', run_loop example_board 1 w = Ok (Some false, w') ∧
         state w' = GAME_OVER) ∧
  ∃ w', run example_board 2
          (example_world (λ k, k) [[Some RESTART; Some QUIT]])
        = Ok (Some false, w').
Proof.
  intros w.
  assert (Hst : state w = SELECTING) by (vm_compute; reflexivity).
  assert (Hev : events w = [Some RESTART; Some QUIT] :: [])
    by (vm_compute; reflexivity).
  split; [exact Hst|]. split; [exact Hev|]. split.
  - destruct (C8_restart_overridden_in_batch example_board w [] 0 Hst)
      as (_ & _ & H).
    destruct (H Hev) as (w' & E & Hs & _). by exists w'.
  - eexists. vm_compute. reflexivity.
Defined.

(** When Open follows Restart in the batch, the door is opened after the
    game was over: the machine goes on in [IN_PROGRESS] and [run] does not
    return. *)
Lemma restart_then_open_goes_on (fuel : nat) :
  let polls := [[Some RESTART; Some OPEN]] in
  state (example_after polls 2) = IN_PROGRESS ∧
  run example_board (2 + fuel) (example_world (λ k, k) polls)
    = Ok (None, example_after polls 2).
Proof.
  intros polls. split; [vm_compute; reflexivity|].
  unfold run.
  rewrite (bind_Ok _ _ _ tt (run_entry (example_world (λ k, k) polls)))
    by reflexivity.
  change (2 + fuel)%nat with (S (S fuel)).
  rewrite run_loop_step by (vm_compute; discriminate).
  rewrite (bind_Ok _ _ _ tt (example_after polls 1))
    by (vm_compute; reflexivity).
  rewrite run_loop_step by (vm_compute; discriminate).
  rewrite (bind_Ok _ _ _ tt (example_after polls 2))
    by (vm_compute; reflexivity).
  apply in_progress_idle; vm_compute; reflexivity.
Qed.

(** * Further properties of the board *)

(** ** Where the doors are drawn *)

Lemma door_size_ok self :
  doors_horiz self ≠ 0 → doors_vert self ≠ 0 →
  door_width self = Ok (surface_width self `div` doors_horiz self) ∧
  door_height self = Ok (surface_height self `div` doors_vert self).
Proof.
  intros Hh Hv. unfold door_width, door_height.
  by rewrite !py_floordiv_ok.
Qed.

Lemma door_coords_value self i :
  doors_horiz self ≠ 0 → doors_vert self ≠ 0 →
  _door_x_coord self i
    = Ok (col_of self i * (surface_width self `div` doors_horiz self)) ∧
  _door_y_coord self i
    = Ok (row_of self i * (surface_height self `div` doors_vert self)).
Proof.
  intros Hh Hv. unfold _door_x_coord, _door_y_coord, door_width, door_height.
  by rewrite py_mod_ok, !py_floordiv_ok.
Qed.

(** X1: on a grid of at least one row and one column, the rectangle at
    which a door of the grid is drawn lies inside the surface; when the
    grid sizes divide the sizes of the surface, as construction demands,
    the doors of a row span the whole width and the rows the whole
    height. *)
Theorem X1_door_inside_surface (self : Board) (i : Z) :
  1 ≤ doors_horiz self → 1 ≤ doors_vert self →
  0 ≤ surface_width self → 0 ≤ surface_height self →
  0 ≤ i < num_doors self →
  ∃ x y dw dh,
    _door_x_coord self i = Ok x ∧ _door_y_coord self i = Ok y ∧
    door_width self = Ok dw ∧ door_height self = Ok dh ∧
    0 ≤ x ∧ x + dw ≤ surface_width self ∧
    0 ≤ y ∧ y + dh ≤ surface_height self ∧
    ((doors_horiz self | surface_width self) →
       doors_horiz self * dw = surface_width self) ∧
    ((doors_vert self | surface_height self) →
       doors_vert self * dh = surface_height self).
Proof.
  intros Hh Hv HW HH Hi.
  destruct (door_size_ok self) as [Ew Eh]; [lia|lia|].
  destruct (door_coords_value self i) as [Ex Ey]; [lia|lia|].
  eexists _, _, _, _. split; [exact Ex|]. split; [exact Ey|].
  split; [exact Ew|]. split; [exact Eh|].
  unfold num_doors in Hi.
  pose proof (col_range _ Hh i) as Hc.
  pose proof (row_range _ Hh _ _ Hi) as Hr.
  unfold row_of, col_of.
  set (r := i `div` doors_horiz self) in *.
  set (c := i `mod` doors_horiz self) in *.
  pose proof (Z.mul_div_le (surface_width self) (doors_horiz self)
                ltac:(lia)) as Hwle.
  pose proof (Z.mul_div_le (surface_height self) (doors_vert self)
                ltac:(lia)) as Hhle.
  pose proof (Z.div_pos (surface_width self) (doors_horiz self)
                ltac:(lia) ltac:(lia)) as Hw0.
  pose proof (Z.div_pos (surface_height self) (doors_vert self)
                ltac:(lia) ltac:(lia)) as Hh0.
  set (dw := surface_width self `div` doors_horiz self) in *.
  set (dh := surface_height self `div` doors_vert self) in *.
  split; [nia|]. split; [nia|]. split; [nia|]. split; [nia|]. split.
  - intros [q Hq]. unfold dw. rewrite Hq, Z.div_mul by lia. lia.
  - intros [q Hq]. unfold dh. rewrite Hq, Z.div_mul by lia. lia.
Qed.

Lemma X1_door_inside_surface_witness :
  _door_x_coord example_board 5 = Ok 1280 ∧
  _door_y_coord example_board 5 = Ok 540 ∧
  ∃ dw dh, door_width example_board = Ok dw ∧
           door_height example_board = Ok dh ∧
           1280 + dw ≤ 1920 ∧ 540 + dh ≤ 1080.
Proof.
  destruct (X1_door_inside_surface example_board 5)
    as (x & y & dw & dh & Ex & Ey & Ew & Eh & _ & Hx & _ & Hy & _);
    [simpl; lia|simpl; lia|simpl; lia|simpl; lia|unfold num_doors; simpl; lia|].
  assert (x = 1280) as -> by (vm_compute in Ex; congruence).
  assert (y = 540) as -> by (vm_compute in Ey; congruence).
  split; [exact Ex|]. split; [exact Ey|]. exists dw, dh.
  split; [exact Ew|]. split; [exact Eh|]. split; [exact Hx|exact Hy].
Defined.

(** X2: on such a grid, two different doors are drawn side by side or one
    above the other: their rectangles do not overlap. *)
Theorem X2_doors_do_not_overlap (self : Board) (i j : Z) :
  1 ≤ doors_horiz self → 1 ≤ doors_vert self →
  0 ≤ surface_width self → 0 ≤ surface_height self →
  0 ≤ i < num_doors self → 0 ≤ j < num_doors self → i ≠ j →
  ∃ xi yi xj yj dw dh,
    _door_x_coord self i = Ok xi ∧ _door_y_coord self i = Ok yi ∧
    _door_x_coord self j = Ok xj ∧ _door_y_coord self j = Ok yj ∧
    door_width self = Ok dw ∧ door_height self = Ok dh ∧
    (xi + dw ≤ xj ∨ xj + dw ≤ xi ∨ yi + dh ≤ yj ∨ yj + dh ≤ yi).
Proof.
  intros Hh Hv HW HH Hi Hj Hne.
  destruct (door_size_ok self) as [Ew Eh]; [lia|lia|].
  destruct (door_coords_value self i) as [Exi Eyi]; [lia|lia|].
  destruct (door_coords_value self j) as [Exj Eyj]; [lia|lia|].
  eexists _, _, _, _, _, _.
  split; [exact Exi|]. split; [exact Eyi|]. split; [exact Exj|].
  split; [exact Eyj|]. split; [exact Ew|]. split; [exact Eh|].
  pose proof (cell_split _ Hh i) as Si. pose proof (cell_split _ Hh j) as Sj.
  unfold row_of, col_of.
  pose proof (Z.div_pos (surface_width self) (doors_horiz self)
                ltac:(lia) ltac:(lia)) as Hw0.
  pose proof (Z.div_pos (surface_height self) (doors_vert self)
                ltac:(lia) ltac:(lia)) as Hh0.
  set (dw := surface_width self `div` doors_horiz self) in *.
  set (dh := surface_height self `div` doors_vert self) in *.
  set (ri := i `div` doors_horiz self) in *.
  set (ci := i `mod` doors_horiz self) in *.
  set (rj := j `div` doors_horiz self) in *.
  set (cj := j `mod` doors_horiz self) in *.
  destruct (Z.lt_trichotomy ci cj) as [?|[Hc|?]]; [left; nia| |right; left; nia].
  destruct (Z.lt_trichotomy ri rj) as [?|[Hr|?]];
    [right; right; left; nia| |right; right; right; nia].
  exfalso. apply Hne. rewrite Si, Sj. congruence.
Qed.

Lemma X2_doors_do_not_overlap_witness :
  ∃ xi yi xj yj dw dh,
    _door_x_coord example_board 1 = Ok xi ∧
    _door_y_coord example_board 1 = Ok yi ∧
    _door_x_coord example_board 4 = Ok xj ∧
    _door_y_coord example_board 4 = Ok yj ∧
    door_width example_board = Ok dw ∧ door_height example_board = Ok dh ∧
    (xi + dw ≤ xj ∨ xj + dw ≤ xi ∨ yi + dh ≤ yj ∨ yj + dh ≤ yi).
Proof.
  apply (X2_doors_do_not_overlap example_board 1 4);
    try (simpl; lia); unfold num_doors; simpl; lia.
Defined.

(** ** Moving the cursor there and back *)

(** X3: on a grid of at least one row and one column, a direction issued
    on a door that is not at the edge it points to leads to another door,
    and the opposite direction issued on that door leads back. *)
Theorem X3_move_and_back (self : Board) (door door' : Door) (a : Action) :
  1 ≤ doors_horiz self → 1 ≤ doors_vert self →
  0 ≤ index door < num_doors self →
  is_direction a = true → ¬ at_edge self (index door) a →
  ∃ n, _get_new_selection self door a = Ok n ∧ n ≠ index door ∧
       (index door' = n →
        _get_new_selection self door' (opposite a) = Ok (index door)).
Proof.
  intros Hh Hv Hi Ha He.
  eexists. split; [apply get_new_selection_value; lia|].
  unfold num_doors in Hi.
  pose proof (col_range _ Hh (index door)) as Hc.
  pose proof (row_range _ Hh _ _ Hi) as Hr.
  pose proof (cell_split _ Hh (index door)) as Hs.
  unfold at_edge, row_of, col_of in *.
  set (r := index door `div` doors_horiz self) in *.
  set (c := index door `mod` doors_horiz self) in *.
  split.
  - destruct a; try discriminate; simpl; repeat case_decide;
      rewrite ?Z.add_0_r in *; nia.
  - intros Hn. rewrite get_new_selection_value by lia.
    unfold row_of, col_of. rewrite Hn. f_equal.
    destruct a; try discriminate; simpl; repeat case_decide;
      rewrite ?Z.add_0_r in *; try lia;
      rewrite ?cell_div, ?cell_mod in * by lia;
      repeat case_decide; try lia.
Qed.

Lemma X3_move_and_back_witness :
  let door := Door_init 1 540 640 "draw" example_props false in
  let door' := Door_init 4 540 640 "sing" example_props false in
  _get_new_selection example_board door DOWN = Ok 4 ∧
  _get_new_selection example_board door' UP = Ok 1.
Proof.
  intros door door'.
  destruct (X3_move_and_back example_board door door' DOWN)
    as (n & En & _ & Hback);
    [simpl; lia|simpl; lia|unfold num_doors; simpl; lia|reflexivity
    |unfold at_edge, row_of; simpl; vm_compute; discriminate|].
  assert (n = 4) as -> by (vm_compute in En; congruence).
  split; [exact En|]. apply Hback. reflexivity.
Defined.

(** ** What a game never changes on a door *)

Lemma door_evolves_refl d : door_evolves d d.
Proof. by repeat split. Qed.

Lemma door_evolves_trans d1 d2 d3 :
  door_evolves d1 d2 → door_evolves d2 d3 → door_evolves d1 d3.
Proof.
  intros (?&?&?&?&?&?&?&?) (?&?&?&?&?&?&?&?).
  repeat split; try congruence; auto.
Qed.

Lemma keeps_evolves d d' :
  keeps d d' → is_revealed d' = is_revealed d ∨ is_revealed d' = true →
  door_evolves d d'.
Proof.
  intros (?&?&?&?&?&?&?&?) Hr.
  repeat split; try congruence. by destruct Hr as [->| ->].
Qed.

Lemma evolved_refl w : evolved (doors w) w.
Proof. apply Forall_Forall2_diag, Forall_forall. intros. apply door_evolves_refl. Qed.

Lemma evolved_env ds0 w w' :
  doors w' = doors w → evolved ds0 w → evolved ds0 w'.
Proof. unfold evolved. by intros ->. Qed.

Lemma evolved_rel (R : Door → Door → Prop) ds0 w w' :
  (∀ d d', R d d' → door_evolves d d') →
  Forall2 R (doors w) (doors w') → evolved ds0 w → evolved ds0 w'.
Proof.
  intros HR F E. unfold evolved in *.
  eapply Forall2_trans; [apply door_evolves_trans|exact E|].
  eapply Forall2_impl; [exact F|exact HR].
Qed.

Lemma Forall2_alter_diag {A} (R : A → A → Prop) (f : A → A) r (l : list A) :
  (∀ x, R x x) → (∀ x, R x (f x)) → Forall2 R l (alter f r l).
Proof.
  intros Hrefl Hf. revert r. induction l as [|x l IH]; intros r.
  - destruct r; constructor.
  - destruct r as [|r]; (constructor; [by auto|]).
    + apply Forall_Forall2_diag, Forall_forall. auto.
    + apply IH.
Qed.

Lemma evolves_alter ds0 (f : Door → Door) r l :
  (∀ d, door_evolves d (f d)) →
  Forall2 door_evolves ds0 l → Forall2 door_evolves ds0 (alter f r l).
Proof.
  intros Hf E. eapply Forall2_trans; [apply door_evolves_trans|exact E|].
  apply Forall2_alter_diag; [apply door_evolves_refl|done].
Qed.

Lemma evolved_insert ds0 w w' r d d' :
  doors w !! r = Some d → doors w' = <[r := d']> (doors w) →
  door_evolves d d' → evolved ds0 w → evolved ds0 w'.
Proof.
  intros Hd D Hdd E. eapply (evolved_rel door_evolves); [done| |exact E].
  rewrite D. rewrite <- (list_insert_id (doors w) r d) at 1 by done.
  apply Forall2_insert; [|done].
  apply Forall_Forall2_diag, Forall_forall. intros. apply door_evolves_refl.
Qed.

Lemma evolved_draw ds0 w w' :
  Forall2 (λ d d', keeps d d' ∧ is_updated d' = false ∧
                   is_revealed d' = is_revealed d ∧ pct_open d' = pct_open d)
          (doors w) (doors w') →
  evolved ds0 w → evolved ds0 w'.
Proof.
  apply evolved_rel. intros d d' (Hk & _ & Hr & _).
  apply keeps_evolves; auto.
Qed.

Lemma steady_play_again w w' : steady w w' → play_again w' = play_again w.
Proof. by intros (_ & _ & _ & ? & _). Qed.

Lemma bound_eq w w' :
  state w' = state w → play_again w' = play_again w →
  bound_at_exit w → bound_at_exit w'.
Proof. unfold bound_at_exit. by intros -> ->. Qed.

Lemma set_flag_evolves d :
  (∀ v, door_evolves d (set_is_selected v d)) ∧
  (∀ v, door_evolves d (set_is_updated v d)) ∧
  (∀ v, door_evolves d (set_pct_open v d)) ∧
  door_evolves d (set_is_open true d) ∧
  door_evolves d (set_is_revealed true d) ∧
  door_evolves d (set_is_hidden false d).
Proof. repeat split; simpl; auto. Qed.

Lemma on_move_evolves self a ds0 w :
  board_ok self → evolved ds0 w → bound_at_exit w →
  post (on_move self a) w (λ _ w', evolved ds0 w' ∧ bound_at_exit w').
Proof.
  intros Hb He Hx. unfold on_move.
  apply post_bind, post_get_selected_door. intros k Hk.
  apply post_bind, post_read. intros d Hd.
  apply post_bind, post_lift. intros new_index _.
  apply post_bind. case_decide as Hmove.
  2:{ apply post_ret, post_emit. by split. }
  apply post_bind, post_assign, post_bind, post_assign.
  apply post_bind, post_doors_getitem_pos. intros n _.
  apply post_bind, post_assign.
  apply post_bind, post_doors_getitem_pos. intros n2 _.
  apply post_bind, post_assign.
  apply post_bind, post_doors_getitem_pos. intros n3 _.
  apply post_bind, post_modify.
  apply post_bind, post_play_random_sound. intros w1 D1 S1.
  eapply post_pass; [by apply pass_draw_updated_doors|]. intros w2 F2 S2.
  apply post_emit. split.
  - apply (evolved_env _ w2); [done|].
    eapply evolved_draw; [exact F2|]. eapply evolved_env; [exact D1|].
    unfold evolved. simpl.
    repeat (apply evolves_alter; [intros; apply set_flag_evolves|]). done.
  - apply (bound_eq w); [| |done]; simpl.
    + by rewrite (steady_state _ _ S2), (steady_state _ _ S1).
    + by rewrite (steady_play_again _ _ S2), (steady_play_again _ _ S1).
Qed.

Lemma on_selecting_evolves self a ds0 w :
  board_ok self → evolved ds0 w → bound_at_exit w →
  post (on_selecting_event self a) w
       (λ _ w', evolved ds0 w' ∧ bound_at_exit w').
Proof.
  intros Hb He Hx.
  destruct a as [[]|]; simpl; try (by apply on_move_evolves);
    try (by apply post_ret).
  - (* OPEN *)
    apply post_bind, post_get_selected_door. intros k Hk.
    apply post_bind, post_read. intros d Hd.
    apply post_bind. destruct (negb (is_open d)).
    + apply post_bind, post_play_random_sound. intros w1 D1 S1.
      assert (Hd1 : doors w1 !! k = Some d) by by rewrite D1.
      apply post_bind.
      eapply post_step; [by apply step_animate_open|exact Hd1|].
      intros w2 d2 D2 -> S2.
      assert (Hd2 : doors w2 !! k = Some (set_pct_open 100 d)).
      { rewrite D2. apply list_lookup_insert_eq. by eapply lookup_lt_Some. }
      apply post_bind.
      eapply post_step; [apply step_show_activity|exact Hd2|].
      intros w3 d3 D3 <- S3. rewrite list_insert_id in D3 by done.
      apply post_bind, post_assign, post_modify, post_emit.
      split; [|by intros ?].
      unfold evolved. simpl.
      apply evolves_alter; [intros; apply set_flag_evolves|].
      rewrite D3. eapply evolved_insert; [exact Hd1|exact D2| |].
      * apply set_flag_evolves.
      * by eapply evolved_env.
    + apply post_play_random_sound. intros w1 D1 S1. apply post_emit.
      split; [by eapply evolved_env|].
      apply (bound_eq w); [| |done]; simpl.
      * by rewrite (steady_state _ _ S1).
      * by rewrite (steady_play_again _ _ S1).
  - (* REVEAL *)
    apply post_bind, post_play_random_sound. intros w1 D1 S1.
    apply post_bind.
    eapply post_pass; [by apply pass_animate_open_all|]. intros w2 F2 S2.
    apply post_bind, post_modify, post_emit. split; [|by intros ?].
    apply (evolved_env _ w2); [done|].
    eapply evolved_rel; [|exact F2|by eapply evolved_env].
    intros d d' (Hk & Hr & _). apply keeps_evolves; auto.
  - (* RESTART *)
    apply post_bind, post_modify, post_bind, post_modify, post_emit.
    split; [done|]. intros _. by eexists.
  - (* QUIT *)
    apply post_bind, post_modify, post_bind, post_modify, post_emit.
    split; [done|]. intros _. by eexists.
Qed.

Lemma on_in_progress_evolves self a ds0 w :
  board_ok self → evolved ds0 w → bound_at_exit w →
  post (on_in_progress_event self a) w
       (λ _ w', evolved ds0 w' ∧ bound_at_exit w').
Proof.
  intros Hb He Hx. destruct a as [[]|]; simpl; try (by apply post_ret).
  apply post_bind.
  eapply post_pass; [by apply pass_draw_all_doors|]. intros w1 F1 S1.
  apply post_bind, post_modify, post_emit. split; [|by intros ?].
  apply (evolved_env _ w1); [done|]. by eapply evolved_draw.
Qed.

Lemma on_all_revealed_evolves self a ds0 w :
  evolved ds0 w → bound_at_exit w →
  post (on_all_revealed_event self a) w
       (λ _ w', evolved ds0 w' ∧ bound_at_exit w').
Proof.
  intros He Hx. destruct a as [[]|]; simpl; try (by apply post_ret).
  - apply post_bind, post_modify, post_bind, post_modify, post_emit.
    split; [done|]. intros _. by eexists.
  - apply post_bind, post_modify, post_bind, post_modify, post_emit.
    split; [done|]. intros _. by eexists.
Qed.

Lemma intro_loop_evolves self ds0 : board_ok self → ∀ fuel l w,
  evolved ds0 w →
  post (intro_loop self fuel l) w (λ _ w', evolved ds0 w').
Proof.
  intros Hb. induction fuel as [|fuel IH]; intros l w He.
  - destruct l; by apply post_ret.
  - destruct l as [|z l0]; [by apply post_ret|].
    set (l := z :: l0) in *. change (intro_loop self (S fuel) l) with
      (intro_show_index ← random_choice l;
       d ← doors_getitem intro_show_index;
       assign d (set_is_hidden false);;
       assign d (set_is_updated true);;
       _draw_updated_doors self;;
       rest ← lift (py_remove intro_show_index l);
       emit (Sleep (intro_step_time self));;
       intro_loop self fuel rest).
    apply post_bind, post_random_choice. intros x Hx.
    apply post_bind, post_doors_getitem_pos. intros r _.
    apply post_bind, post_assign, post_bind, post_assign, post_bind.
    eapply post_pass; [by apply pass_draw_updated_doors|]. intros w2 F2 S2.
    apply post_bind, post_lift. intros rest _.
    apply post_bind, post_emit. apply IH.
    apply (evolved_env _ w2); [done|].
    eapply evolved_draw; [exact F2|]. unfold evolved. simpl.
    repeat (apply evolves_alter; [intros; apply set_flag_evolves|]). done.
Qed.

Lemma on_start_evolves self ds0 w :
  board_ok self → evolved ds0 w →
  post (on_start self) w (λ _ w', evolved ds0 w' ∧ bound_at_exit w').
Proof.
  intros Hb He. unfold on_start.
  apply post_bind, post_play_random_sound. intros w1 D1 S1.
  apply post_bind.
  assert (Hgrid : post (if start_hidden self then _animate_intro self
                        else _draw_all_doors self) w1
                       (λ _ w', evolved ds0 w')).
  { destruct (start_hidden self).
    - unfold _animate_intro. apply post_bind.
      eapply post_pass; [by apply pass_draw_all_doors|]. intros w2 F2 S2.
      apply intro_loop_evolves; [done|].
      eapply evolved_draw; [exact F2|]. by eapply evolved_env.
    - eapply post_pass; [by apply pass_draw_all_doors|]. intros w2 F2 S2.
      eapply evolved_draw; [exact F2|]. by eapply evolved_env. }
  eapply post_mono; [|exact Hgrid]. intros ? w2 He2. simpl.
  apply post_bind, post_doors_getitem_pos. intros r1 _.
  apply post_bind, post_assign.
  apply post_bind, post_doors_getitem_pos. intros r2 _.
  apply post_bind, post_assign.
  apply post_bind, post_doors_getitem_pos. intros r3 _.
  apply post_bind, post_modify, post_bind.
  eapply post_pass; [by apply pass_draw_updated_doors|]. intros w3 F3 S3.
  apply post_bind, post_modify, post_emit. split; [|by intros ?].
  apply (evolved_env _ w3); [done|].
  eapply evolved_draw; [exact F3|]. unfold evolved. simpl.
  repeat (apply evolves_alter; [intros; apply set_flag_evolves|]). done.
Qed.

Lemma reachable_evolved self w0 w :
  constructed self w0 → reachable self w0 w →
  evolved (doors w0) w ∧ bound_at_exit w.
Proof.
  intros Hc Hr. induction Hr as
    [|w w' Hr IH Hst E|w b w' Hr IH Hst E|w a w' Hr IH Hst E
     |w a w' Hr IH Hst E|w a w' Hr IH Hst E].
  - split; [apply (evolved_refl w0)|]. by intros ?.
  - destruct (reachable_run_inv _ _ _ Hc Hr) as (Hb & _).
    destruct IH as [He _]. exact (on_start_evolves self _ w Hb He _ _ E).
  - destruct IH as [He Hx].
    assert (doors w' = doors w ∧ play_again w' = play_again w ∧
            state w' = state w) as (D & P & St).
    { unfold pygame_event_get in E. destruct (events w); by simplify_eq/=. }
    split; [by eapply evolved_env|by eapply bound_eq].
  - destruct (reachable_run_inv _ _ _ Hc Hr) as (Hb & _).
    destruct IH as [He Hx].
    exact (on_selecting_evolves self a _ w Hb He Hx _ _ E).
  - destruct (reachable_run_inv _ _ _ Hc Hr) as (Hb & _).
    destruct IH as [He Hx].
    exact (on_in_progress_evolves self a _ w Hb He Hx _ _ E).
  - destruct IH as [He Hx].
    exact (on_all_revealed_evolves self a _ w He Hx _ _ E).
Qed.

Lemma constructed_indexed self w0 :
  constructed self w0 →
  indexed (doors w0) ∧ length (doors w0) = Z.to_nat (num_doors self).
Proof.
  intros Hc. destruct (constructed_doors _ _ Hc) as [_ F]. split.
  - intros k d Hd.
    destruct (Forall2_lookup_r _ _ _ _ _ F Hd) as (i & Hi & Hf).
    apply lookup_seqZ in Hi as [-> _]. destruct Hf as (-> & _). lia.
  - rewrite <- (Forall2_length _ _ _ F). apply length_seqZ.
Qed.

Lemma reachable_indexed self w0 w :
  constructed self w0 → reachable self w0 w →
  indexed (doors w) ∧ length (doors w) = Z.to_nat (num_doors self).
Proof.
  intros Hc Hr. destruct (reachable_evolved _ _ _ Hc Hr) as [He _].
  destruct (constructed_indexed _ _ Hc) as [Hi Hl]. split.
  - intros k d Hd.
    destruct (Forall2_lookup_r _ _ _ _ _ He Hd) as (d0 & Hd0 & Hf).
    destruct Hf as (-> & _). by apply Hi.
  - by rewrite <- (Forall2_length _ _ _ He).
Qed.



(** ** The game raises nothing *)

Lemma succ_bind {A B} (m : M A) (f : A → M B) w :
  succeeds m w → post m w (λ a w1, succeeds (f a) w1) →
  succeeds (m ≫= f) w.
Proof.
  intros (a & w1 & E) Hp. destruct (Hp _ _ E) as (b & w2 & E2).
  exists b, w2. by rewrite (bind_Ok _ _ _ _ _ E).
Qed.

Lemma post_any {A} (m : M A) w (Q : A → World → Prop) :
  (∀ a w', Q a w') → post m w Q.
Proof. intros HQ a w' _. apply HQ. Qed.

Lemma succeeds_ret {A} (a : A) w : succeeds (mret a) w.
Proof. by exists a, w. Qed.

Lemma succeeds_modify f w : succeeds (modify f) w.
Proof. by exists tt, (f w). Qed.

Lemma succeeds_emit e w : succeeds (emit e) w.
Proof. by eexists _, _. Qed.

Lemma succeeds_assign r f w : succeeds (assign r f) w.
Proof. by eexists _, _. Qed.

Lemma succeeds_lift {A} (r : result A) a w : r = Ok a → succeeds (lift r) w.
Proof. intros ->. by exists a, w. Qed.

Lemma succeeds_read r w : is_Some (doors w !! r) → succeeds (read r) w.
Proof. intros [d Hd]. exists d, w. unfold read. by rewrite Hd. Qed.

Lemma succeeds_get_selected_door w :
  is_Some (selected_door w) → succeeds get_selected_door w.
Proof. intros [k Hk]. exists k, w. unfold get_selected_door. by rewrite Hk. Qed.

Lemma succeeds_doors_getitem i w :
  0 ≤ i < Z.of_nat (length (doors w)) → succeeds (doors_getitem i) w.
Proof.
  intros Hi. exists (Z.to_nat i), w. mrun. by rewrite py_pos_in_range.
Qed.

Lemma succeeds_pass m R w : pass m R → succeeds m w.
Proof. intros Hp. destruct (Hp w) as (w' & E & _). by exists tt, w'. Qed.

Lemma succeeds_step r m R w :
  step_at r m R → is_Some (doors w !! r) → succeeds m w.
Proof.
  intros Hs [d Hd]. destruct (Hs w d Hd) as (w' & d' & E & _).
  by exists tt, w'.
Qed.

Lemma succeeds_play_random_sound l w :
  l ≠ [] → succeeds (_play_random_sound l) w.
Proof.
  intros Hl. destruct (play_random_sound_ok l w Hl) as (s & w' & E & _).
  by exists tt, w'.
Qed.

Lemma succeeds_random_choice {A} (l : list A) w :
  l ≠ [] → succeeds (random_choice l) w.
Proof.
  intros Hl. destruct (random_choice_ok l w Hl) as (x & E & _).
  by eexists _, _.
Qed.

Lemma new_selection_range self door a :
  1 ≤ doors_horiz self → 1 ≤ doors_vert self →
  0 ≤ index door < num_doors self →
  ∃ n, _get_new_selection self door a = Ok n ∧ 0 ≤ n < num_doors self.
Proof.
  intros Hh Hv Hi.
  eexists. split; [apply get_new_selection_value; lia|].
  unfold num_doors in *.
  pose proof (col_range _ Hh (index door)) as Hc.
  pose proof (row_range _ Hh _ _ Hi) as Hr.
  unfold row_of, col_of.
  set (r := index door `div` doors_horiz self) in *.
  set (c := index door `mod` doors_horiz self) in *.
  destruct a; simpl; repeat case_decide; rewrite ?Z.add_0_r in *; nia.
Qed.

Lemma on_move_succeeds self a w :
  1 ≤ doors_horiz self → 1 ≤ doors_vert self → move_sounds self ≠ [] →
  playable self w → succeeds (on_move self a) w.
Proof.
  intros Hh Hv Hs ([(k & Hk & Hlt & Hiff) Hhid] & Hidx & Hlen).
  assert (Hb : board_ok self) by (split; lia).
  unfold on_move.
  apply succ_bind; [apply succeeds_get_selected_door; by rewrite Hk|].
  apply post_get_selected_door. intros k' Hk'.
  assert (k' = k) as -> by congruence.
  apply succ_bind; [by apply succeeds_read, lookup_lt_is_Some_2|].
  apply post_read. intros d Hd.
  destruct (new_selection_range self d a Hh Hv) as (n & En & Hn).
  { rewrite (Hidx k d Hd). lia. }
  apply succ_bind; [by eapply succeeds_lift|].
  apply post_lift. intros n' En'. assert (n' = n) as -> by congruence.
  apply succ_bind; [|apply post_any; intros; apply succeeds_emit].
  case_decide; [|apply succeeds_ret].
  apply succ_bind; [apply succeeds_assign|]. apply post_assign.
  apply succ_bind; [apply succeeds_assign|]. apply post_assign.
  apply succ_bind.
  { apply succeeds_doors_getitem. simpl. rewrite !length_alter. lia. }
  apply post_doors_getitem_pos. intros r1 _.
  apply succ_bind; [apply succeeds_assign|]. apply post_assign.
  apply succ_bind.
  { apply succeeds_doors_getitem. simpl. rewrite !length_alter. lia. }
  apply post_doors_getitem_pos. intros r2 _.
  apply succ_bind; [apply succeeds_assign|]. apply post_assign.
  apply succ_bind.
  { apply succeeds_doors_getitem. simpl. rewrite !length_alter. lia. }
  apply post_doors_getitem_pos. intros r3 _.
  apply succ_bind; [apply succeeds_modify|]. apply post_modify.
  apply succ_bind; [by apply succeeds_play_random_sound|].
  apply post_any. intros ? w5.
  eapply succeeds_pass. by apply pass_draw_updated_doors.
Qed.

Lemma on_selecting_succeeds self a w :
  1 ≤ doors_horiz self → 1 ≤ doors_vert self → sounds_ok self →
  playable self w → succeeds (on_selecting_event self a) w.
Proof.
  intros Hh Hv (Hmv & Hop & Hoo & _ & Hrv) Hp.
  assert (Hb : board_ok self) by (split; lia).
  destruct a as [[]|]; simpl; try (by apply on_move_succeeds);
    try apply succeeds_ret.
  - (* OPEN *)
    destruct Hp as ([(k & Hk & Hlt & Hiff) Hhid] & Hidx & Hlen).
    apply succ_bind; [apply succeeds_get_selected_door; by rewrite Hk|].
    apply post_get_selected_door. intros k' Hk'.
    assert (k' = k) as -> by congruence.
    apply succ_bind; [by apply succeeds_read, lookup_lt_is_Some_2|].
    apply post_read. intros d Hd.
    apply succ_bind; [|apply post_any; intros; apply succeeds_emit].
    destruct (negb (is_open d)); [|by apply succeeds_play_random_sound].
    apply succ_bind; [by apply succeeds_play_random_sound|].
    apply post_play_random_sound. intros w1 D1 S1.
    assert (Hd1 : doors w1 !! k = Some d) by by rewrite D1.
    apply succ_bind.
    { eapply succeeds_step; [by apply step_animate_open|by eexists]. }
    eapply post_step; [by apply step_animate_open|exact Hd1|].
    intros w2 d2 D2 -> S2.
    assert (Hd2 : doors w2 !! k = Some (set_pct_open 100 d)).
    { rewrite D2. apply list_lookup_insert_eq. by eapply lookup_lt_Some. }
    apply succ_bind.
    { eapply succeeds_step; [apply step_show_activity|by eexists]. }
    apply post_any. intros ? w3.
    apply succ_bind; [apply succeeds_assign|].
    apply post_any. intros ? w4. apply succeeds_modify.
  - (* REVEAL *)
    apply succ_bind; [by apply succeeds_play_random_sound|].
    apply post_any. intros ? w1.
    apply succ_bind; [eapply succeeds_pass; by apply pass_animate_open_all|].
    apply post_any. intros ? w2.
    apply succ_bind; [apply succeeds_modify|].
    apply post_any. intros. apply succeeds_emit.
Qed.

Lemma on_in_progress_succeeds self a w :
  board_ok self → succeeds (on_in_progress_event self a) w.
Proof.
  intros Hb. destruct a as [[]|]; simpl; try apply succeeds_ret.
  apply succ_bind; [eapply succeeds_pass; by apply pass_draw_all_doors|].
  apply post_any. intros.
  apply succ_bind; [apply succeeds_modify|]. apply post_any. intros.
  apply succeeds_emit.
Qed.

Lemma on_all_revealed_succeeds self a w :
  succeeds (on_all_revealed_event self a) w.
Proof.
  destruct a as [[]|]; simpl; apply succeeds_ret.
Qed.

Lemma intro_loop_succeeds self : board_ok self → ∀ fuel l w,
  Forall (λ i, 0 ≤ i < Z.of_nat (length (doors w))) l →
  succeeds (intro_loop self fuel l) w.
Proof.
  intros Hb. induction fuel as [|fuel IH]; intros l w Hl.
  - destruct l; apply succeeds_ret.
  - destruct l as [|z l0]; [apply succeeds_ret|].
    set (l := z :: l0) in *. change (intro_loop self (S fuel) l) with
      (intro_show_index ← random_choice l;
       d ← doors_getitem intro_show_index;
       assign d (set_is_hidden false);;
       assign d (set_is_updated true);;
       _draw_updated_doors self;;
       rest ← lift (py_remove intro_show_index l);
       emit (Sleep (intro_step_time self));;
       intro_loop self fuel rest).
    apply succ_bind; [by apply succeeds_random_choice|].
    apply post_random_choice. intros x Hx.
    assert (Hxr : 0 ≤ x < Z.of_nat (length (doors w)))
      by (by eapply Forall_forall in Hl).
    apply succ_bind; [by apply succeeds_doors_getitem|].
    apply post_doors_getitem_pos. intros r _.
    apply succ_bind; [apply succeeds_assign|]. apply post_assign.
    apply succ_bind; [apply succeeds_assign|]. apply post_assign.
    apply succ_bind; [eapply succeeds_pass; by apply pass_draw_updated_doors|].
    eapply post_pass; [by apply pass_draw_updated_doors|]. intros w2 F2 S2.
    simpl in F2. apply Forall2_length in F2. rewrite !length_alter in F2.
    destruct (py_remove_ok x l Hx) as (rest & Er & Pr).
    apply succ_bind; [by eapply succeeds_lift|].
    apply post_lift. intros rest' Er'. assert (rest' = rest) as -> by congruence.
    apply succ_bind; [apply succeeds_emit|]. apply post_emit.
    apply IH. simpl. rewrite <- F2.
    rewrite Pr in Hl. by apply Forall_cons in Hl as [_ ?].
Qed.

Lemma intro_length self w :
  board_ok self →
  post (_animate_intro self) w (λ _ w', length (doors w') = length (doors w)).
Proof.
  intros Hb. unfold _animate_intro. apply post_bind.
  eapply post_pass; [by apply pass_draw_all_doors|]. intros w1 F1 S1.
  eapply post_mono; [|apply (intro_loop_evolves self (doors w)); [done|]].
  - intros ? w2 He. symmetry. exact (Forall2_length _ _ _ He).
  - eapply evolved_draw; [exact F1|]. apply evolved_refl.
Qed.

Lemma on_start_succeeds self w :
  1 ≤ doors_horiz self → 1 ≤ doors_vert self → start_sounds self ≠ [] →
  Z.of_nat (length (doors w)) = num_doors self →
  succeeds (on_start self) w.
Proof.
  intros Hh Hv Hs Hlen.
  assert (Hb : board_ok self) by (split; lia).
  assert (Hn : 1 ≤ num_doors self) by (unfold num_doors; nia).
  unfold on_start.
  apply succ_bind; [by apply succeeds_play_random_sound|].
  apply post_play_random_sound. intros w1 D1 S1.
  assert (Hgrid : ∀ w2, length (doors w2) = length (doors w1) →
    succeeds
      (d ← doors_getitem 0; assign d (set_is_selected true);;
       d ← doors_getitem 0; assign d (set_is_updated true);;
       d ← doors_getitem 0; modify (with_selected_door (Some d));;
       _draw_updated_doors self;; modify (with_state SELECTING);;
       emit EventClear) w2).
  { intros w2 Hl2.
    apply succ_bind; [apply succeeds_doors_getitem; rewrite Hl2, D1; lia|].
    apply post_doors_getitem_pos. intros r1 _.
    apply succ_bind; [apply succeeds_assign|]. apply post_assign.
    apply succ_bind.
    { apply succeeds_doors_getitem. simpl.
      rewrite !length_alter, Hl2, D1. lia. }
    apply post_doors_getitem_pos. intros r2 _.
    apply succ_bind; [apply succeeds_assign|]. apply post_assign.
    apply succ_bind.
    { apply succeeds_doors_getitem. simpl.
      rewrite !length_alter, Hl2, D1. lia. }
    apply post_any. intros.
    apply succ_bind; [apply succeeds_modify|]. apply post_any. intros.
    apply succ_bind; [eapply succeeds_pass; by apply pass_draw_updated_doors|].
    apply post_any. intros.
    apply succ_bind; [apply succeeds_modify|]. apply post_any. intros.
    apply succeeds_emit. }
  destruct (start_hidden self).
  - apply succ_bind.
    + unfold _animate_intro.
      apply succ_bind; [eapply succeeds_pass; by apply pass_draw_all_doors|].
      eapply post_pass; [by apply pass_draw_all_doors|]. intros w2 F2 S2.
      apply intro_loop_succeeds; [done|].
      apply Forall_forall. intros i Hi. unfold py_range in Hi.
      apply elem_of_seqZ in Hi.
      rewrite <- (Forall2_length _ _ _ F2), D1. lia.
    + eapply post_mono; [|by apply (intro_length self w1)].
      intros ? w2 Hl2. by apply Hgrid.
  - apply succ_bind; [eapply succeeds_pass; by apply pass_draw_all_doors|].
    eapply post_pass; [by apply pass_draw_all_doors|]. intros w2 F2 S2.
    apply Hgrid. by rewrite <- (Forall2_length _ _ _ F2).
Qed.

Lemma run_loop_result self fuel : ∀ w,
  post (run_loop self fuel) w
       (λ r w', ∀ b, r = Some b → state w' = GAME_OVER ∧ play_again w' = Some b).
Proof.
  induction fuel as [|fuel IH]; intros w; simpl;
    apply post_bind, post_gets; case_decide as Hst.
  - apply post_bind, post_get_play_again. intros b Hb. apply post_ret.
    intros b' [= <-]. by split.
  - by apply post_ret.
  - apply post_bind, post_get_play_again. intros b Hb. apply post_ret.
    intros b' [= <-]. by split.
  - apply post_bind, post_any. intros ? w1. apply IH.
Qed.

Section Safe.
Variable self : Board.
Variable w0 : World.
Hypothesis Hcons : constructed self w0.
Hypothesis Hh : 1 ≤ doors_horiz self.
Hypothesis Hv : 1 ≤ doors_vert self.
Hypothesis Hsnd : sounds_ok self.

Lemma reachable_length w :
  reachable self w0 w → Z.of_nat (length (doors w)) = num_doors self.
Proof.
  intros Hr. destruct (reachable_indexed _ _ _ Hcons Hr) as [_ Hl].
  rewrite Hl. unfold num_doors. nia.
Qed.

Lemma reachable_playable w :
  reachable self w0 w → state w ≠ START → playable self w.
Proof.
  intros Hr Hst. destruct (reachable_run_inv _ _ _ Hcons Hr) as (_ & _ & Hcur).
  destruct (reachable_indexed _ _ _ Hcons Hr) as [Hi _].
  split; [by apply Hcur|]. split; [done|by apply reachable_length].
Qed.

Lemma batch_succeeds (handler : option Action → M unit) :
  (∀ a w, reachable self w0 w → state w ≠ START → succeeds (handler a) w) →
  (∀ a w w', reachable self w0 w → state w ≠ START →
     handler a w = Ok (tt, w') →
     reachable self w0 w' ∧ state w' ≠ START) →
  ∀ batch w, reachable self w0 w → state w ≠ START →
    succeeds (for_each batch handler) w.
Proof.
  intros Hs Hp. induction batch as [|a batch IH]; intros w Hr Hst; simpl.
  - apply succeeds_ret.
  - apply succ_bind; [by apply Hs|]. intros [] w1 E.
    destruct (Hp a w w1 Hr Hst E). by apply IH.
Qed.

Lemma run_iteration_succeeds w :
  reachable self w0 w → succeeds (run_iteration self) w.
Proof.
  intros Hr. assert (Hb : board_ok self) by (split; lia).
  unfold run_iteration.
  apply succ_bind; [by eexists _, _|]. apply post_gets.
  assert (Hpoll : succeeds pygame_event_get w).
  { unfold succeeds, pygame_event_get. destruct (events w); by eexists _, _. }
  destruct (state w) eqn:Hst.
  - apply on_start_succeeds; try done; [by destruct Hsnd as (_&_&_&?&_)|].
    by apply reachable_length.
  - apply succ_bind; [done|]. intros b w1 E.
    destruct (poll_reachable self w0 w b w1 Hr ltac:(congruence) E).
    apply batch_succeeds; try done.
    + intros. apply on_selecting_succeeds; try done.
      by apply reachable_playable.
    + apply (selecting_reachable self w0 Hcons).
  - apply succ_bind; [done|]. intros b w1 E.
    destruct (poll_reachable self w0 w b w1 Hr ltac:(congruence) E).
    apply batch_succeeds; try done.
    + intros. by apply on_in_progress_succeeds.
    + apply (in_progress_reachable self w0 Hcons).
  - apply succ_bind; [done|]. intros b w1 E.
    destruct (poll_reachable self w0 w b w1 Hr ltac:(congruence) E).
    apply batch_succeeds; try done.
    + intros. apply on_all_revealed_succeeds.
    + apply (all_revealed_reachable self w0 Hcons).
  - apply succeeds_ret.
Qed.

Lemma run_loop_succeeds fuel : ∀ w,
  reachable self w0 w → succeeds (run_loop self fuel) w.
Proof.
  assert (Hexit : ∀ w, reachable self w0 w → state w = GAME_OVER →
            succeeds (b ← get_play_again; mret (Some b)) w).
  { intros w Hr Hst. destruct (reachable_evolved _ _ _ Hcons Hr) as [_ Hx].
    destruct (Hx Hst) as [b Hb]. exists (Some b), w.
    unfold get_play_again. mrun. by rewrite Hb. }
  induction fuel as [|fuel IH]; intros w Hr; simpl;
    (apply succ_bind; [by eexists _, _|]); apply post_gets;
    case_decide as Hst; try (by apply Hexit).
  - apply succeeds_ret.
  - apply succ_bind; [by apply run_iteration_succeeds|].
    eapply post_mono; [|by apply (run_iteration_reachable self w0 Hcons)].
    intros ? w1 Hr1. by apply IH.
Qed.

End Safe.



(** ** The [START] transition, end to end *)

Lemma on_start_cursor self w :
  board_ok self →
  post (on_start self) w
       (λ _ w', selected_door w' = Some 0%nat ∧
                Forall (λ d, is_updated d = false) (doors w')).
Proof.
  intros Hb. unfold on_start.
  apply post_bind, post_any. intros ? w1.
  apply post_bind, post_any. intros ? w2.
  apply post_bind, post_doors_getitem. intros r1 _ _.
  apply post_bind, post_assign.
  apply post_bind, post_doors_getitem. intros r2 _ _.
  apply post_bind, post_assign.
  apply post_bind, post_doors_getitem. intros r3 _ Hr3.
  specialize (Hr3 ltac:(lia)). simpl in Hr3. subst r3.
  apply post_bind, post_modify, post_bind.
  eapply post_pass; [by apply pass_draw_updated_doors|]. intros w3 F3 S3.
  apply post_bind, post_modify, post_emit. simpl. split.
  - by rewrite (steady_selected _ _ S3).
  - eapply Forall2_right; [|exact F3]. by intros ?? (_ & ? & _).
Qed.



(** ** A sound list without sounds *)

Lemma play_random_sound_empty w : _play_random_sound [] w = Raise IndexError.
Proof. reflexivity. Qed.

(** X7: [_play_random_sound] raises [IndexError] on an empty list, so a
    board whose configuration names no start sound cannot be played: [run]
    raises [IndexError] in its first pass, before anything is drawn, from
    whatever world it is called in.  Likewise Reveal raises when there is
    no reveal sound. *)
Theorem X7_empty_sound_list_raises (self : Board) (w : World) (fuel : nat) :
  (start_sounds self = [] → run self (S fuel) w = Raise IndexError) ∧
  (reveal_all_sounds self = [] →
     on_selecting_event self (Some REVEAL) w = Raise IndexError).
Proof.
  split; intros Hs.
  - unfold run. rewrite (bind_Ok _ _ _ tt (run_entry w)) by reflexivity.
    rewrite run_loop_step by done.
    apply bind_Raise. unfold run_iteration.
    rewrite (bind_Ok _ _ _ START (run_entry w)) by reflexivity.
    unfold on_start. apply bind_Raise. by rewrite Hs.
  - simpl. apply bind_Raise. by rewrite Hs.
Qed.

Lemma X7_empty_sound_list_raises_witness :
  (∃ w0, ActivityBoard_init silent_board example_pool
           (fresh_world (λ k, k) []) = Ok (tt, w0) ∧
         run silent_board 1 w0 = Raise IndexError).
Proof.
  eexists. split; [vm_compute; reflexivity|].
  apply (X7_empty_sound_list_raises silent_board). reflexivity.
Defined.

(** ** What a redraw pass draws *)

Lemma world_eq (w w' : World) :
  doors w = doors w' → activities w = activities w' → state w = state w' →
  selected_door w = selected_door w' → play_again w = play_again w' →
  trace w = trace w' → rng w = rng w' → rng_calls w = rng_calls w' →
  events w = events w' → w = w'.
Proof. destruct w, w'. simpl. by intros -> -> -> -> -> -> -> -> ->. Qed.

Lemma set_is_updated_clean d : is_updated d = false → set_is_updated false d = d.
Proof. destruct d. simpl. by intros ->. Qed.

Ltac ok_world :=
  apply (f_equal (λ x : World, Ok (tt, x))); apply world_eq; simpl; try done.

Lemma for_each_exact (body : Ref → M unit) (f : Door → Door)
    (tr : Door → list Effect) :
  (∀ r w d, doors w !! r = Some d →
     body r w = Ok (tt, with_trace (trace w ++ tr d)
                          (with_doors (<[r := f d]> (doors w)) w))) →
  ∀ l2 l1 w, doors w = l1 ++ l2 →
    for_each (seq (length l1) (length l2)) body w
      = Ok (tt, with_trace (trace w ++ flat_map tr l2)
                  (with_doors (l1 ++ (f <$> l2)) w)).
Proof.
  intros Hbody. induction l2 as [|d l2 IH]; intros l1 w Hw; simpl.
  - unfold mret, M_ret. ok_world; by rewrite ?Hw, ?app_nil_r.
  - assert (Hd : doors w !! length l1 = Some d)
      by (rewrite Hw; apply list_lookup_middle; done).
    rewrite (bind_Ok _ _ _ _ _ (Hbody _ _ _ Hd)).
    assert (Hins : <[length l1 := f d]> (doors w) = (l1 ++ [f d]) ++ l2).
    { rewrite Hw, insert_app_r_alt, Nat.sub_diag by lia. simpl.
      by rewrite <- (assoc_L (++)). }
    specialize (IH (l1 ++ [f d])
      (with_trace (trace w ++ tr d)
         (with_doors (<[length l1 := f d]> (doors w)) w)) Hins).
    rewrite length_app, Nat.add_1_r in IH. cbv beta.
    etrans; [exact IH|].
    ok_world; simpl; by rewrite <- ?(assoc_L (++)).
Qed.

Lemma for_each_door_exact (body : Ref → M unit) (f : Door → Door)
    (tr : Door → list Effect) w :
  (∀ r w d, doors w !! r = Some d →
     body r w = Ok (tt, with_trace (trace w ++ tr d)
                          (with_doors (<[r := f d]> (doors w)) w))) →
  for_each_door body w
    = Ok (tt, with_trace (trace w ++ flat_map tr (doors w))
                (with_doors (f <$> doors w) w)).
Proof.
  intros Hbody. unfold for_each_door.
  rewrite (bind_Ok _ _ _ (length (doors w)) w) by reflexivity.
  exact (for_each_exact body f tr Hbody (doors w) [] w eq_refl).
Qed.

Lemma door_blit_ok self d :
  board_ok self →
  ∃ x y, _door_x_coord self (index d) = Ok x ∧
         _door_y_coord self (index d) = Ok y ∧
         door_blit self d = [Blit (get_door_surface d) x y].
Proof.
  intros Hb. destruct (door_coords_ok self (index d) Hb) as (x & y & Hx & Hy).
  exists x, y. unfold door_blit. by rewrite Hx, Hy.
Qed.

Lemma display_update_exact self w :
  display_update self w = Ok (tt, with_trace (trace w ++ flip self) w).
Proof.
  unfold display_update, flip. destruct (surface_is_display self); [done|].
  simpl. ok_world.
  by rewrite app_nil_r.
Qed.

Lemma draw_updated_doors_exact self w :
  board_ok self →
  _draw_updated_doors self w
    = Ok (tt, with_trace
                (trace w ++ flat_map (dirty_blit self) (doors w) ++ flip self)
                (with_doors (set_is_updated false <$> doors w) w)).
Proof.
  intros Hb. unfold _draw_updated_doors.
  erewrite bind_Ok; [|apply (for_each_door_exact _ (set_is_updated false)
                              (dirty_blit self))].
  - rewrite display_update_exact. ok_world. by rewrite <- (assoc_L (++)).
  - intros r w1 d Hd. unfold read at 1.
    rewrite (bind_Ok _ _ _ d w1) by (unfold read; by rewrite Hd).
    unfold dirty_blit. destruct (is_updated d) eqn:Hu.
    + destruct (door_blit_ok self d Hb) as (x & y & Hx & Hy & ->).
      rewrite (bind_Ok _ _ _ _ _ (draw_door_eq self r false w1 d x y Hd Hx Hy)).
      unfold assign, modify. ok_world.
      by rewrite (alter_lookup_insert _ _ _ _ Hd).
    + simpl. ok_world.
      * by rewrite set_is_updated_clean, list_insert_id.
      * by rewrite app_nil_r.
Qed.

Lemma draw_all_doors_exact self w :
  board_ok self →
  _draw_all_doors self w
    = Ok (tt, with_trace
                (trace w ++ flat_map (door_blit self) (doors w) ++ flip self)
                (with_doors (set_is_updated false <$> doors w) w)).
Proof.
  intros Hb. unfold _draw_all_doors.
  erewrite bind_Ok; [|apply (for_each_door_exact _ (set_is_updated false)
                              (door_blit self))].
  - rewrite display_update_exact. ok_world. by rewrite <- (assoc_L (++)).
  - intros r w1 d Hd.
    destruct (door_blit_ok self d Hb) as (x & y & Hx & Hy & ->).
    rewrite (bind_Ok _ _ _ _ _ (draw_door_eq self r false w1 d x y Hd Hx Hy)).
    unfold assign, modify. ok_world.
    by rewrite (alter_lookup_insert _ _ _ _ Hd).
Qed.

Lemma clean_doors_fixed ds :
  Forall (λ d, is_updated d = false) ds → set_is_updated false <$> ds = ds.
Proof.
  induction 1 as [|d ds Hd _ IH]; [done|].
  by rewrite fmap_cons, IH, set_is_updated_clean.
Qed.

Lemma clean_doors_no_blit self ds :
  Forall (λ d, is_updated d = false) ds → flat_map (dirty_blit self) ds = [].
Proof.
  induction 1 as [|d ds Hd _ IH]; [done|].
  simpl. unfold dirty_blit at 1. by rewrite Hd, IH.
Qed.

Lemma cleaned_doors ds :
  Forall (λ d, is_updated d = false) (set_is_updated false <$> ds).
Proof. apply Forall_fmap, Forall_forall. by intros. Qed.





(** ** The intro, door by door *)

Lemma dirty_blit_alter self (g : Door → Door) ds : ∀ r d,
  Forall (λ d, is_updated d = false) ds → ds !! r = Some d →
  is_updated (g d) = true →
  flat_map (dirty_blit self) (alter g r ds) = door_blit self (g d).
Proof.
  induction ds as [|d0 ds IH]; intros r d Hc Hd Hg; [done|].
  apply Forall_cons in Hc as [Hc0 Hc]. destruct r as [|r]; simpl in *.
  - simplify_eq. unfold dirty_blit at 1. rewrite Hg.
    by rewrite clean_doors_no_blit, app_nil_r.
  - unfold dirty_blit at 1. rewrite Hc0. simpl. by eapply IH.
Qed.

Lemma show_door_cleaned ds : ∀ r,
  Forall (λ d, is_updated d = false) ds →
  set_is_updated false <$>
    alter (set_is_updated true) r (alter (set_is_hidden false) r ds)
  = alter (set_is_hidden false) r ds.
Proof.
  induction ds as [|d0 ds IH]; intros r Hc; [done|].
  apply Forall_cons in Hc as [Hc0 Hc]. destruct r as [|r]; simpl.
  - f_equal; [|by apply clean_doors_fixed].
    destruct d0. simpl in *. by subst.
  - f_equal; [by apply set_is_updated_clean|by apply IH].
Qed.

Lemma intro_step self (k : list Z → M unit) w x l rest d :
  board_ok self → Forall (λ d, is_updated d = false) (doors w) →
  0 ≤ x → doors w !! Z.to_nat x = Some d → py_remove x l = Ok rest →
  (r ← doors_getitem x;
   assign r (set_is_hidden false);;
   assign r (set_is_updated true);;
   _draw_updated_doors self;;
   rest ← lift (py_remove x l);
   emit (Sleep (intro_step_time self));;
   k rest) w
  = k rest (with_trace (trace w ++ intro_frame self d)
              (with_doors (alter (set_is_hidden false) (Z.to_nat x) (doors w))
                 w)).
Proof.
  intros Hb Hc Hx Hd Er.
  assert (Eg : doors_getitem x w = Ok (Z.to_nat x, w)).
  { mrun. rewrite py_pos_in_range; [done|].
    apply lookup_lt_Some in Hd. lia. }
  rewrite (bind_Ok _ _ _ _ _ Eg).
  erewrite bind_Ok; [|reflexivity]. erewrite bind_Ok; [|reflexivity].
  rewrite (bind_Ok _ _ _ _ _ (draw_updated_doors_exact self _ Hb)).
  erewrite bind_Ok; [|by apply lift_Ok]. erewrite bind_Ok; [|reflexivity].
  f_equal. apply world_eq; simpl; try done.
  - by apply show_door_cleaned.
  - rewrite (dirty_blit_alter self (set_is_updated true) _ (Z.to_nat x)
               (set_is_hidden false d)); [|by apply Forall_alter| |done].
    + unfold intro_frame. by rewrite <- !(assoc_L (++)).
    + by rewrite list_lookup_alter_eq, Hd.
Qed.

Lemma flat_map_ext_elem {A B} (f g : A → list B) (l : list A) :
  (∀ i, i ∈ l → f i = g i) → flat_map f l = flat_map g l.
Proof.
  induction l as [|a l IH]; intros Hfg; [done|]. simpl.
  rewrite (Hfg a) by (apply elem_of_cons; by left).
  rewrite IH; [done|]. intros i Hi. apply Hfg. apply elem_of_cons. by right.
Qed.

Lemma intro_loop_exact self : board_ok self → ∀ fuel l w,
  (length l ≤ fuel)%nat → NoDup l →
  Forall (λ i, 0 ≤ i < Z.of_nat (length (doors w))) l →
  Forall (λ d, is_updated d = false) (doors w) →
  ∃ w' order,
    intro_loop self fuel l w = Ok (tt, w') ∧ order ≡ₚ l ∧
    (∀ k d, doors w !! k = Some d →
       doors w' !! k = Some (if decide (Z.of_nat k ∈ l)
                             then set_is_hidden false d else d)) ∧
    length (doors w') = length (doors w) ∧
    trace w' = trace w ++
      flat_map (λ i, from_option (intro_frame self) []
                       (doors w !! Z.to_nat i)) order ∧
    rng_calls w' = (rng_calls w + length l)%nat.
Proof.
  intros Hb. induction fuel as [|fuel IH]; intros l w Hlen Hnd Hrange Hclean.
  - destruct l; [|simpl in Hlen; lia]. exists w, [].
    split; [done|]. split; [done|]. split.
    { intros k d Hd. rewrite decide_False; [done|]. apply not_elem_of_nil. }
    split; [done|]. split; [by rewrite app_nil_r|]. simpl. lia.
  - destruct l as [|z l0].
    { exists w, []. split; [done|]. split; [done|]. split.
      { intros k d Hd. rewrite decide_False; [done|]. apply not_elem_of_nil. }
      split; [done|]. split; [by rewrite app_nil_r|]. simpl. lia. }
    set (l := z :: l0) in *.
    destruct (random_choice_ok l w ltac:(done)) as (x & Ex & Hx).
    destruct (py_remove_ok x l Hx) as (rest & Er & Pr).
    assert (Hxr : 0 ≤ x < Z.of_nat (length (doors w)))
      by (by eapply Forall_forall in Hrange).
    destruct (lookup_lt_is_Some_2 (doors w) (Z.to_nat x) ltac:(lia))
      as [dx Hdx].
    set (w1 := with_rng_calls (S (rng_calls w)) w) in *.
    set (W := with_trace (trace w1 ++ intro_frame self dx)
                (with_doors (alter (set_is_hidden false) (Z.to_nat x)
                               (doors w1)) w1)).
    assert (Estep : intro_loop self (S fuel) l w = intro_loop self fuel rest W).
    { change (intro_loop self (S fuel) l) with
        (intro_show_index ← random_choice l;
         d ← doors_getitem intro_show_index;
         assign d (set_is_hidden false);;
         assign d (set_is_updated true);;
         _draw_updated_doors self;;
         rest ← lift (py_remove intro_show_index l);
         emit (Sleep (intro_step_time self));;
         intro_loop self fuel rest).
      rewrite (bind_Ok _ _ _ _ _ Ex).
      apply (intro_step self (intro_loop self fuel) w1 x l rest dx);
        try done. lia. }
    rewrite Pr in Hnd, Hrange. apply NoDup_cons in Hnd as [Hxn Hnd].
    apply Forall_cons in Hrange as [_ Hrange].
    destruct (IH rest W) as (w' & order & E & Po & Hlk & Hl & T & R).
    { apply Permutation_length in Pr. simpl in Pr, Hlen.
      unfold l in Pr. simpl in Pr. lia. }
    { done. }
    { simpl. by rewrite length_alter. }
    { simpl. by apply Forall_alter. }
    exists w', (x :: order). rewrite Estep.
    split; [done|]. split; [by rewrite Pr, Po|]. split; [|split; [|split]].
    + intros k d Hd.
      assert (Hin : Z.of_nat k ∈ l ↔ Z.of_nat k = x ∨ Z.of_nat k ∈ rest)
        by (by rewrite Pr, elem_of_cons).
      destruct (decide (k = Z.to_nat x)) as [->|Hne].
      * rewrite (Hlk (Z.to_nat x) (set_is_hidden false dx)).
        2:{ simpl. by rewrite list_lookup_alter_eq, Hdx. }
        assert (d = dx) as -> by congruence.
        rewrite Z2Nat.id by lia.
        rewrite decide_False by done. by rewrite decide_True.
      * rewrite (Hlk k d).
        2:{ simpl. by rewrite list_lookup_alter_ne. }
        (* the door at [k] was not the one shown *)
        destruct (decide (Z.of_nat k ∈ rest)) as [Hr|Hr].
        -- rewrite decide_True; [done|]. apply Hin. by right.
        -- rewrite decide_False; [done|]. rewrite Hin. intros [?|?]; [lia|done].
    + rewrite Hl. simpl. by rewrite length_alter.
    + rewrite T. simpl. rewrite Hdx. simpl. rewrite <- (assoc_L (++)).
      f_equal. f_equal. apply flat_map_ext_elem. intros i Hi.
      rewrite Po in Hi.
      assert (0 ≤ i) by (eapply Forall_forall in Hrange; [|exact Hi]; simpl in *; lia).
      rewrite list_lookup_alter_ne; [done|].
      intros Heq. apply Hxn. assert (i = x) as <- by lia. done.
    + rewrite R. simpl. apply Permutation_length in Pr.
      unfold l. simpl in *. lia.
Qed.



(** ** Properties of the doors that every event keeps *)

Section DoorInvariant.
Variable P : Door → Prop.
Hypothesis P_flags : ∀ d v,
  P d → P (set_is_selected v d) ∧ P (set_is_updated v d) ∧
        P (set_is_hidden false d).
Hypothesis P_draw : ∀ d d',
  keeps d d' → is_revealed d' = is_revealed d → pct_open d' = pct_open d →
  P d → P d'.
Hypothesis P_reveal : ∀ d d', keeps d d' → is_revealed d' = true → P d → P d'.
Hypothesis P_open : ∀ d, P d → P (set_is_open true (set_pct_open 100 d)).

Lemma inv_draw (ds ds' : list Door) :
  Forall2 (λ d d', keeps d d' ∧ is_updated d' = false ∧
                   is_revealed d' = is_revealed d ∧ pct_open d' = pct_open d)
          ds ds' →
  Forall P ds → Forall P ds'.
Proof.
  induction 1 as [|d d' ds ds' (Hk & _ & Hr & Hp) _ IH]; [done|].
  intros [Hd Hds]%Forall_cons. constructor; [by eapply P_draw|by apply IH].
Qed.

Lemma inv_selected v r ds :
  Forall P ds → Forall P (alter (set_is_selected v) r ds).
Proof.
  intros. apply Forall_alter; [done|]. intros d _ Hd.
  by destruct (P_flags d v Hd) as (? & _).
Qed.

Lemma inv_updated v r ds :
  Forall P ds → Forall P (alter (set_is_updated v) r ds).
Proof.
  intros. apply Forall_alter; [done|]. intros d _ Hd.
  by destruct (P_flags d v Hd) as (_ & ? & _).
Qed.

Lemma inv_shown r ds :
  Forall P ds → Forall P (alter (set_is_hidden false) r ds).
Proof.
  intros. apply Forall_alter; [done|]. intros d _ Hd.
  by destruct (P_flags d true Hd) as (_ & _ & ?).
Qed.

Lemma on_move_inv self a w :
  board_ok self → Forall P (doors w) →
  post (on_move self a) w (λ _ w', Forall P (doors w')).
Proof.
  intros Hb Hp. unfold on_move.
  apply post_bind, post_get_selected_door. intros k Hk.
  apply post_bind, post_read. intros d Hd.
  apply post_bind, post_lift. intros new_index _.
  apply post_bind. case_decide as Hmove.
  2:{ by apply post_ret, post_emit. }
  apply post_bind, post_assign, post_bind, post_assign.
  apply post_bind, post_doors_getitem_pos. intros n _.
  apply post_bind, post_assign.
  apply post_bind, post_doors_getitem_pos. intros n2 _.
  apply post_bind, post_assign.
  apply post_bind, post_doors_getitem_pos. intros n3 _.
  apply post_bind, post_modify.
  apply post_bind, post_play_random_sound. intros w1 D1 S1.
  eapply post_pass; [by apply pass_draw_updated_doors|]. intros w2 F2 S2.
  apply post_emit. simpl. eapply inv_draw; [exact F2|]. rewrite D1. simpl.
  by apply inv_updated, inv_selected, inv_updated, inv_selected.
Qed.

Lemma on_selecting_inv self a w :
  board_ok self → Forall P (doors w) →
  post (on_selecting_event self a) w (λ _ w', Forall P (doors w')).
Proof.
  intros Hb Hp.
  destruct a as [[]|]; simpl; try (by apply on_move_inv);
    try (by apply post_ret).
  - (* OPEN *)
    apply post_bind, post_get_selected_door. intros k Hk.
    apply post_bind, post_read. intros d Hd.
    apply post_bind. destruct (negb (is_open d)).
    + apply post_bind, post_play_random_sound. intros w1 D1 S1.
      assert (Hd1 : doors w1 !! k = Some d) by by rewrite D1.
      apply post_bind.
      eapply post_step; [by apply step_animate_open|exact Hd1|].
      intros w2 d2 D2 -> S2.
      assert (Hd2 : doors w2 !! k = Some (set_pct_open 100 d)).
      { rewrite D2. apply list_lookup_insert_eq. by eapply lookup_lt_Some. }
      apply post_bind.
      eapply post_step; [apply step_show_activity|exact Hd2|].
      intros w3 d3 D3 <- S3. rewrite list_insert_id in D3 by done.
      apply post_bind, post_assign, post_modify, post_emit. simpl.
      rewrite D3, D2, D1.
      rewrite (alter_lookup_insert _ _ k (set_pct_open 100 d)).
      2:{ apply list_lookup_insert_eq. by eapply lookup_lt_Some. }
      rewrite list_insert_insert_eq. apply Forall_insert; [done|].
      apply P_open. eapply Forall_lookup_1; [exact Hp|exact Hd].
    + apply post_play_random_sound. intros w1 D1 S1. apply post_emit.
      simpl. by rewrite D1.
  - (* REVEAL *)
    apply post_bind, post_play_random_sound. intros w1 D1 S1.
    apply post_bind.
    eapply post_pass; [by apply pass_animate_open_all|]. intros w2 F2 S2.
    apply post_bind, post_modify, post_emit. simpl.
    rewrite D1 in F2. clear -F2 Hp P_reveal.
    induction F2 as [|d d' ds ds' (Hk & Hr & _) _ IH]; [done|].
    apply Forall_cons in Hp as [Hd Hds].
    constructor; [by eapply P_reveal|by apply IH].
Qed.

Lemma on_in_progress_inv self a w :
  board_ok self → Forall P (doors w) →
  post (on_in_progress_event self a) w (λ _ w', Forall P (doors w')).
Proof.
  intros Hb Hp. destruct a as [[]|]; simpl; try (by apply post_ret).
  apply post_bind.
  eapply post_pass; [by apply pass_draw_all_doors|]. intros w1 F1 S1.
  apply post_bind, post_modify, post_emit. simpl. by eapply inv_draw.
Qed.

Lemma on_all_revealed_inv self a w :
  Forall P (doors w) →
  post (on_all_revealed_event self a) w (λ _ w', Forall P (doors w')).
Proof. intros Hp. destruct a as [[]|]; simpl; by apply post_ret. Qed.

Lemma intro_loop_inv self : board_ok self → ∀ fuel l w,
  Forall P (doors w) →
  post (intro_loop self fuel l) w (λ _ w', Forall P (doors w')).
Proof.
  intros Hb. induction fuel as [|fuel IH]; intros l w Hp.
  - destruct l; by apply post_ret.
  - destruct l as [|z l0]; [by apply post_ret|].
    set (l := z :: l0) in *. change (intro_loop self (S fuel) l) with
      (intro_show_index ← random_choice l;
       d ← doors_getitem intro_show_index;
       assign d (set_is_hidden false);;
       assign d (set_is_updated true);;
       _draw_updated_doors self;;
       rest ← lift (py_remove intro_show_index l);
       emit (Sleep (intro_step_time self));;
       intro_loop self fuel rest).
    apply post_bind, post_random_choice. intros x Hx.
    apply post_bind, post_doors_getitem_pos. intros r _.
    apply post_bind, post_assign, post_bind, post_assign, post_bind.
    eapply post_pass; [by apply pass_draw_updated_doors|]. intros w2 F2 S2.
    apply post_bind, post_lift. intros rest _.
    apply post_bind, post_emit. apply IH. simpl.
    eapply inv_draw; [exact F2|]. simpl. by apply inv_updated, inv_shown.
Qed.

Lemma on_start_inv self w :
  board_ok self → Forall P (doors w) →
  post (on_start self) w (λ _ w', Forall P (doors w')).
Proof.
  intros Hb Hp. unfold on_start.
  apply post_bind, post_play_random_sound. intros w1 D1 S1.
  apply post_bind.
  assert (Hgrid : post (if start_hidden self then _animate_intro self
                        else _draw_all_doors self) w1
                       (λ _ w', Forall P (doors w'))).
  { destruct (start_hidden self).
    - unfold _animate_intro. apply post_bind.
      eapply post_pass; [by apply pass_draw_all_doors|]. intros w2 F2 S2.
      apply intro_loop_inv; [done|]. eapply inv_draw; [exact F2|].
      by rewrite D1.
    - eapply post_pass; [by apply pass_draw_all_doors|]. intros w2 F2 S2.
      eapply inv_draw; [exact F2|]. by rewrite D1. }
  eapply post_mono; [|exact Hgrid]. intros ? w2 Hp2. simpl.
  apply post_bind, post_doors_getitem_pos. intros r1 _.
  apply post_bind, post_assign.
  apply post_bind, post_doors_getitem_pos. intros r2 _.
  apply post_bind, post_assign.
  apply post_bind, post_doors_getitem_pos. intros r3 _.
  apply post_bind, post_modify, post_bind.
  eapply post_pass; [by apply pass_draw_updated_doors|]. intros w3 F3 S3.
  apply post_bind, post_modify, post_emit. simpl.
  eapply inv_draw; [exact F3|]. simpl. by apply inv_updated, inv_selected.
Qed.

Lemma reachable_door_inv self w0 w :
  constructed self w0 → Forall P (doors w0) →
  reachable self w0 w → Forall P (doors w).
Proof.
  intros Hc Hp0 Hr. induction Hr as
    [|w w' Hr IH Hst E|w b w' Hr IH Hst E|w a w' Hr IH Hst E
     |w a w' Hr IH Hst E|w a w' Hr IH Hst E]; [done|..].
  - destruct (reachable_run_inv _ _ _ Hc Hr) as (Hb & _).
    exact (on_start_inv self w Hb IH _ _ E).
  - unfold pygame_event_get in E. destruct (events w); by simplify_eq/=.
  - destruct (reachable_run_inv _ _ _ Hc Hr) as (Hb & _).
    exact (on_selecting_inv self a w Hb IH _ _ E).
  - destruct (reachable_run_inv _ _ _ Hc Hr) as (Hb & _).
    exact (on_in_progress_inv self a w Hb IH _ _ E).
  - exact (on_all_revealed_inv self a w IH _ _ E).
Qed.

End DoorInvariant.

(** ** No activity is shown before its door is opened *)

Lemma constructed_closed_shut self w0 :
  constructed self w0 → Forall closed_shut (doors w0).
Proof.
  intros Hc. destruct (constructed_doors _ _ Hc) as [_ F].
  eapply Forall2_right; [|exact F].
  intros i d (_&_&_&_&_&_&_&Hp) _ _. exact Hp.
Qed.

Lemma reachable_closed_shut self w0 w :
  constructed self w0 → reachable self w0 w → Forall closed_shut (doors w).
Proof.
  intros Hc Hr.
  refine (reachable_door_inv closed_shut _ _ _ _ self w0 w Hc
            (constructed_closed_shut _ _ Hc) Hr).
  - intros d v Hd. split; [exact Hd|split; exact Hd].
  - intros d d' (_&_&_&_&_&_&Ho&_) Hr' Hp Hd. unfold closed_shut.
    rewrite Ho, Hr', Hp. exact Hd.
  - intros d d' _ Hr' _ _ Hn. congruence.
  - intros d _ Hn. discriminate.
Qed.

(** X11: in every world that a run on a constructed board reaches between
    two events, the surface of a door shows the text of an activity only
    when the door is revealed and not hidden, and then it is the door's
    own activity: a door that is closed, or open but not yet revealed,
    shows no activity text. *)
Theorem X11_activity_shown_only_when_revealed
    (self : Board) (w0 w : World) (k : nat) (d : Door) :
  constructed self w0 → reachable self w0 w → doors w !! k = Some d →
  shown_text (get_door_surface d)
    = if is_revealed d && negb (is_hidden d) then [activity d] else [].
Proof.
  intros Hc Hr Hd.
  pose proof (reachable_closed_shut _ _ _ Hc Hr) as Hcs.
  pose proof (Forall_lookup_1 _ _ _ _ Hcs Hd) as Hshut.
  unfold closed_shut in Hshut. unfold get_door_surface.
  destruct (is_hidden d); [by rewrite andb_false_r|].
  destruct (is_open d), (is_revealed d); simpl; try done.
  rewrite Hshut by done. simpl. done.
Qed.

Lemma X11_activity_shown_only_when_revealed_witness :
  let polls := [[Some OPEN]; [Some RETURN]] in
  let w := example_after polls 3 in
  ∃ d0 d1, doors w !! 0%nat = Some d0 ∧ doors w !! 1%nat = Some d1 ∧
    is_open d0 = true ∧ is_open d1 = false ∧
    shown_text (get_door_surface d0) = [] ∧
    shown_text (get_door_surface d1) = [].
Proof.
  intros polls w.
  assert (Hc : constructed example_board (example_world (λ k, k) polls)).
  { exists example_pool, (λ k, k), polls. vm_compute. reflexivity. }
  assert (Hr : reachable example_board (example_world (λ k, k) polls) w).
  { apply (run_reachable example_board _ Hc 3 None). vm_compute. reflexivity. }
  eexists _, _.
  split; [vm_compute; reflexivity|]. split; [vm_compute; reflexivity|].
  split; [reflexivity|]. split; [reflexivity|]. split.
  - rewrite (X11_activity_shown_only_when_revealed example_board _ w 0 _ Hc Hr);
      [reflexivity|vm_compute; reflexivity].
  - rewrite (X11_activity_shown_only_when_revealed example_board _ w 1 _ Hc Hr);
      [reflexivity|vm_compute; reflexivity].
Defined.

(** ** Opening a door and coming back *)

Lemma open_closed_door self w k d :
  board_ok self → open_sounds self ≠ [] →
  selected_door w = Some k → doors w !! k = Some d → is_open d = false →
  ∃ w', on_selecting_event self (Some OPEN) w = Ok (tt, w') ∧
        state w' = IN_PROGRESS ∧ selected_door w' = Some k ∧
        play_again w' = play_again w ∧
        doors w' = <[k := set_is_open true (set_pct_open 100 d)]> (doors w).
Proof.
  intros Hb Hsnd Hsel Hd Hopen. unfold on_selecting_event.
  assert (Hget : get_selected_door w = Ok (k, w))
    by (unfold get_selected_door; by rewrite Hsel).
  assert (Hread : read k w = Ok (d, w)) by (unfold read; by rewrite Hd).
  rewrite (bind_Ok _ _ _ _ _ Hget), (bind_Ok _ _ _ _ _ Hread).
  rewrite Hopen. simpl.
  destruct (play_random_sound_ok _ w Hsnd) as (s & w1 & E1 & _ & D1 & S1 & _).
  assert (Hd1 : doors w1 !! k = Some d) by by rewrite D1.
  destruct (step_animate_open self k Hb w1 d Hd1) as (w2 & d2 & E2 & D2 & -> & S2).
  assert (Hd2 : doors w2 !! k = Some (set_pct_open 100 d)).
  { rewrite D2. apply list_lookup_insert_eq. by eapply lookup_lt_Some. }
  destruct (show_activity_ok self k w2 _ Hd2) as (w3 & E3 & D3 & S3).
  rewrite (bind_Ok _ _ _ tt (with_state IN_PROGRESS
            (with_doors (alter (set_is_open true) k (doors w3)) w3))).
  2:{ rewrite (bind_Ok _ _ _ _ _ E1), (bind_Ok _ _ _ _ _ E2),
        (bind_Ok _ _ _ _ _ E3). mrun. reflexivity. }
  mrun. eexists. split; [reflexivity|]. simpl.
  pose proof (steady_trans _ _ _ (steady_trans _ _ _ S1 S2) S3) as S.
  split; [done|]. split; [by rewrite (steady_selected _ _ S)|].
  split; [by rewrite (steady_play_again _ _ S)|].
  rewrite D3, (alter_lookup_insert _ _ _ _ Hd2), D2, D1.
  by rewrite list_insert_insert_eq.
Qed.



(** ** Waiting for an event *)

(** X13: while no event is pending, a pass of the loop in [SELECTING],
    [IN_PROGRESS] or [ALL_REVEALED] changes nothing and draws nothing,
    and [run] does not return however many passes it makes: only an
    event can end the game. *)
Theorem X13_idle_loop_waits (self : Board) (w : World) (fuel : nat) :
  state w = SELECTING ∨ state w = IN_PROGRESS ∨ state w = ALL_REVEALED →
  events w = [] →
  run_iteration self w = Ok (tt, w) ∧ run_loop self fuel w = Ok (None, w).
Proof.
  intros Hst Hev.
  assert (Hit : run_iteration self w = Ok (tt, w)).
  { unfold run_iteration, pygame_event_get. mrun.
    destruct Hst as [->|[->| ->]]; by rewrite Hev. }
  split; [exact Hit|].
  assert (Hne : state w ≠ GAME_OVER) by (destruct Hst as [?|[?|?]]; congruence).
  induction fuel as [|fuel IH].
  - by apply run_loop_out_of_fuel.
  - rewrite run_loop_step by done. by rewrite (bind_Ok _ _ _ tt w).
Qed.

Lemma X13_idle_loop_waits_witness :
  let w := example_after [] 1 in
  state w = SELECTING ∧ run_loop example_board 1000 w = Ok (None, w).
Proof.
  intros w.
  assert (Hst : state w = SELECTING) by (vm_compute; reflexivity).
  split; [exact Hst|].
  apply (X13_idle_loop_waits example_board w 1000); [by left|].
  vm_compute. reflexivity.
Defined.

(** ** What the reveal does to the doors *)

Lemma Forall2_fmap_fun {A} (f : A → A) (l : list A) :
  Forall2 (λ x y, y = f x) l (f <$> l).
Proof. induction l; constructor; auto. Qed.

Lemma Forall2_fun_fmap {A} (f : A → A) (l k : list A) :
  Forall2 (λ x y, y = f x) l k → k = f <$> l.
Proof. induction 1 as [|x y l k -> _ ->]; [done|]. by rewrite fmap_cons. Qed.

Lemma pass_draw_updated_fun self :
  board_ok self →
  pass (_draw_updated_doors self) (λ d d', d' = set_is_updated false d).
Proof.
  intros Hb w. eexists. split; [by apply draw_updated_doors_exact|].
  split; [apply Forall2_fmap_fun|by repeat split].
Qed.

Lemma pass_for_each_fold {A} (xs : list A) (body : A → M unit)
    (F : A → Door → Door) :
  (∀ x, pass (body x) (λ d d', d' = F x d)) →
  pass (for_each xs body) (λ d d', d' = foldl (λ d x, F x d) d xs).
Proof.
  intros Hbody. induction xs as [|x xs IH]; simpl.
  - eapply pass_weaken; [|apply pass_skip]. by intros ?? ->.
  - eapply pass_seq; [|apply Hbody|apply IH]. by intros d d' d'' -> ->.
Qed.

Lemma pass_animate_open_all_fun self :
  board_ok self →
  pass (_animate_open_all self) (λ d d', d' = reveal_door d).
Proof.
  intros Hb. unfold _animate_open_all.
  set (F1 := λ d, if is_open d
                  then set_is_updated true (set_is_revealed true d) else d).
  set (Fi := λ (i : Z) d,
               set_is_updated false
                 (if negb (is_open d)
                  then set_is_updated true (set_pct_open i d) else d)).
  set (F3 := λ d, set_is_updated true (set_is_revealed true d)).
  eapply (pass_seq _ _ (λ d d', d' = F1 d)
            (λ d d', d' = set_is_updated false
                            (F3 (foldl (λ d i, Fi i d)
                                   (set_is_updated false d)
                                   (py_range3 5 105 5))))).
  { intros d d' d'' -> ->. unfold reveal_door, F1, F3, Fi.
    assert (py_range3 5 105 5
            = [5; 10; 15; 20; 25; 30; 35; 40; 45; 50;
               55; 60; 65; 70; 75; 80; 85; 90; 95; 100]) as ->
      by (vm_compute; reflexivity).
    destruct d as [? ? ? ? ? ? [] ? ? ? ?]; reflexivity. }
  { apply pass_for_each_door. intros r. apply step_read. intros dv.
    unfold F1. destruct (is_open dv) eqn:Ho.
    - eapply step_seq; [|apply step_assign|apply step_assign].
      intros d d' d'' -> -> <-. by rewrite Ho.
    - eapply step_weaken; [|apply step_skip]. intros d d' <- <-.
      by rewrite Ho. }
  eapply (pass_seq _ _ (λ d d', d' = set_is_updated false d)
            (λ d d', d' = set_is_updated false
                            (F3 (foldl (λ d i, Fi i d) d
                                   (py_range3 5 105 5))))).
  { by intros d d' d'' -> ->. }
  { by apply pass_draw_updated_fun. }
  eapply (pass_seq _ _
            (λ d d', d' = foldl (λ d i, Fi i d) d (py_range3 5 105 5))
            (λ d d', d' = set_is_updated false (F3 d))).
  { by intros d d' d'' -> ->. }
  { apply pass_for_each_fold. intros i.
    eapply (pass_seq _ _
              (λ d d', d' = if negb (is_open d)
                            then set_is_updated true (set_pct_open i d)
                            else d)
              (λ d d', d' = set_is_updated false d)).
    { by intros d d' d'' -> ->. }
    - apply pass_for_each_door. intros r. apply step_read. intros dv.
      destruct (negb (is_open dv)) eqn:Ho.
      + eapply step_seq; [|apply step_assign|apply step_assign].
        intros d d' d'' -> -> <-. by rewrite Ho.
      + eapply step_weaken; [|apply step_skip]. intros d d' <- <-.
        by rewrite Ho.
    - by apply pass_draw_updated_fun. }
  eapply (pass_seq _ _ (λ d d', d' = F3 d)
            (λ d d', d' = set_is_updated false d)).
  { by intros d d' d'' -> ->. }
  { apply pass_for_each_door. intros r.
    eapply step_seq; [|apply step_assign|apply step_assign].
    by intros d d' d'' -> ->. }
  by apply pass_draw_updated_fun.
Qed.

Lemma reveal_door_twice d : reveal_door (reveal_door d) = reveal_door d.
Proof. unfold reveal_door. by destruct d as [? ? ? ? ? ? [] ? ? ? ?]. Qed.



(** * The text renderer *)

Lemma split_on_cons sep text : ∃ piece pieces, split_on sep text = piece :: pieces.
Proof.
  destruct text as [|c rest]; simpl; [by eexists _, _|].
  case_decide; [by eexists _, _|].
  destruct (split_on sep rest); by eexists _, _.
Qed.

Lemma split_on_join sep text :
  String.concat (String sep EmptyString) (split_on sep text) = text.
Proof.
  induction text as [|c rest IH]; [done|].
  destruct (split_on_cons sep rest) as (p & ps & E).
  cbn [split_on]. rewrite E in IH |- *. case_decide as Hc.
  - subst c.
    change (String.concat (String sep EmptyString) (EmptyString :: p :: ps))
      with (String sep (String.concat (String sep EmptyString) (p :: ps))).
    by rewrite IH.
  - destruct ps as [|p' ps'].
    + simpl in *. by rewrite IH.
    + change (String.concat (String sep EmptyString) (String c p :: p' :: ps'))
        with (String c (String.concat (String sep EmptyString)
                          (p :: p' :: ps'))).
      by rewrite IH.
Qed.

Lemma total_cons z zs : total (z :: zs) = z + total zs.
Proof. reflexivity. Qed.

Lemma total_nil : total [] = 0.
Proof. reflexivity. Qed.

Section Layout.
Import TextRenderer.
Variable size : Font → string → Z * Z.
Variable self : TextRenderer.t.
Hypothesis size_pos :
  ∀ s, 0 ≤ (size (font self) s).1 ∧ 0 ≤ (size (font self) s).2.
Hypothesis spacing_pos : 0 ≤ line_spacing self.

Lemma measure_fold (ls : list LineSurface) : ∀ th mw,
  ∃ mw', foldl measure (th, mw) ls = (th + total (line_height <$> ls), mw') ∧
         mw ≤ mw' ∧ Forall (λ l, line_width l ≤ mw') ls ∧
         (mw' = mw ∨ ∃ l, l ∈ ls ∧ line_width l = mw').
Proof.
  induction ls as [|l ls IH]; intros th mw.
  - exists mw. rewrite fmap_nil, total_nil, Z.add_0_r.
    split; [done|]. split; [lia|]. split; [done|by left].
  - destruct (IH (th + line_height l)
                (if decide (line_width l > mw) then line_width l else mw))
      as (mw' & E & Hle & Hall & Hmax).
    exists mw'. cbn [foldl measure]. rewrite E, fmap_cons, total_cons.
    split; [f_equal; lia|].
    split; [case_decide; lia|]. split.
    + constructor; [case_decide; lia|done].
    + destruct Hmax as [->|(l' & Hl' & <-)].
      * case_decide; [|by left].
        right. exists l. split; [apply elem_of_cons; by left|done].
      * right. exists l'. split; [apply elem_of_cons; by right|done].
Qed.

Lemma place_fold mw sp (ls : list LineSurface) : ∀ y acc,
  ∃ y', foldl (place mw sp) (y, acc) ls = (y', acc ++ stacked mw sp y ls).
Proof.
  induction ls as [|l ls IH]; intros y acc.
  - exists y. by rewrite app_nil_r.
  - destruct (IH (y + line_height l + sp)
                (acc ++ [(l, (mw - line_width l) `div` 2, y)])) as (y' & E).
    exists y'. cbn [foldl place stacked]. rewrite E.
    by rewrite <- (assoc_L (++)).
Qed.

Lemma total_heights_pos (ls : list LineSurface) :
  Forall (λ l, 0 ≤ line_width l ∧ 0 ≤ line_height l) ls →
  0 ≤ total (line_height <$> ls).
Proof.
  induction 1 as [|l ls [_ Hh] _ IH]; [done|].
  rewrite fmap_cons, total_cons. lia.
Qed.

Lemma stacked_inside mw sp (ls : list LineSurface) : ∀ y bottom,
  0 ≤ sp → 0 ≤ y →
  Forall (λ l, 0 ≤ line_width l ∧ 0 ≤ line_height l) ls →
  Forall (λ l, line_width l ≤ mw) ls →
  y + total (line_height <$> ls) + (Z.of_nat (length ls) - 1) * sp ≤ bottom →
  Forall (λ b : LineSurface * Z * Z,
            0 ≤ b.1.2 ∧ b.1.2 + line_width b.1.1 ≤ mw ∧
            0 ≤ mw - line_width b.1.1 - 2 * b.1.2 ≤ 1 ∧
            0 ≤ b.2 ∧ b.2 + line_height b.1.1 ≤ bottom)
         (stacked mw sp y ls).
Proof.
  induction ls as [|l ls IH]; intros y bottom Hsp Hy Hpos Hall Hb;
    [by constructor|].
  apply Forall_cons in Hpos as [[Hw Hh] Hpos].
  apply Forall_cons in Hall as [Hwm Hall].
  pose proof (total_heights_pos ls Hpos) as Htot.
  rewrite fmap_cons, total_cons in Hb.
  assert (Hlen : Z.of_nat (length (l :: ls)) - 1 = Z.of_nat (length ls))
    by (simpl; lia).
  rewrite Hlen in Hb.
  cbn [stacked]. constructor.
  - cbn [fst snd].
    pose proof (Z.div_mod (mw - line_width l) 2 ltac:(lia)) as Hdm.
    pose proof (Z.mod_pos_bound (mw - line_width l) 2 ltac:(lia)) as Hm.
    split; [apply Z.div_pos; lia|]. split; [lia|]. split; [lia|].
    split; [lia|]. nia.
  - apply IH; try done; [lia|].
    destruct ls as [|l1 ls]; [rewrite fmap_nil, total_nil; simpl; lia|].
    assert (Z.of_nat (length (l1 :: ls)) - 1 = Z.of_nat (length ls)) as ->
      by (simpl; lia).
    assert (Z.of_nat (length (l1 :: ls)) = Z.of_nat (length ls) + 1) as Hl1
      by (simpl; lia).
    rewrite Hl1 in Hb. nia.
Qed.

Lemma stacked_lines mw sp (ls : list LineSurface) : ∀ y,
  (λ b : LineSurface * Z * Z, b.1.1) <$> stacked mw sp y ls = ls.
Proof.
  induction ls as [|l ls IH]; intros y; [done|].
  cbn [stacked]. by rewrite fmap_cons, IH.
Qed.

Lemma stacked_step mw sp (ls : list LineSurface) : ∀ y i b b',
  stacked mw sp y ls !! i = Some b →
  stacked mw sp y ls !! S i = Some b' →
  b'.2 = b.2 + line_height b.1.1 + sp.
Proof.
  induction ls as [|l0 ls IH]; intros y i b b' H1 H2; [done|].
  cbn [stacked] in H1, H2. destruct i as [|i].
  - injection H1 as <-. destruct ls as [|l1 ls]; [done|].
    cbn [stacked] in H2. by injection H2 as <-.
  - by eapply (IH _ i).
Qed.

Lemma stacked_last mw sp (ls : list LineSurface) : ∀ y b,
  last (stacked mw sp y ls) = Some b →
  b.2 + line_height b.1.1
    = y + total (line_height <$> ls) + (Z.of_nat (length ls) - 1) * sp.
Proof.
  induction ls as [|l0 ls IH]; intros y b Hl; [done|].
  rewrite fmap_cons, total_cons.
  destruct ls as [|l1 ls].
  - cbn [stacked] in Hl. injection Hl as <-.
    rewrite fmap_nil, total_nil. simpl. lia.
  - cbn [stacked] in Hl. rewrite last_cons_cons in Hl.
    rewrite (IH (y + line_height l0 + sp) b) by exact Hl.
    assert (Z.of_nat (length (l0 :: l1 :: ls))
            = Z.of_nat (length (l1 :: ls)) + 1) as -> by (simpl; lia).
    lia.
Qed.

Lemma render_surface_eq (text : string) :
  let ls := font_render size self <$> split_on backtick text in
  ∃ mw,
    render_surface size self text
      = {| surf_width := mw;
           surf_height := total (line_height <$> ls)
                          + (Z.of_nat (length ls) - 1) * line_spacing self;
           blits := stacked mw (line_spacing self) 0 ls |} ∧
    Forall (λ l, line_width l ≤ mw) ls ∧
    (mw = 0 ∨ ∃ l, l ∈ ls ∧ line_width l = mw).
Proof.
  intros ls. unfold render_surface. fold ls.
  destruct (measure_fold ls 0 0) as (mw & E1 & _ & Hall & Hmax).
  destruct (place_fold mw (line_spacing self) ls 0 []) as (y' & E2).
  exists mw. rewrite E1. cbv beta iota. rewrite E2. cbv beta iota.
  split; [f_equal; try lia|by split].
Qed.

Lemma rendered_lines_pos (text : string) :
  Forall (λ l, 0 ≤ line_width l ∧ 0 ≤ line_height l)
         (font_render size self <$> split_on backtick text).
Proof.
  apply Forall_fmap, Forall_forall. intros s _. simpl. apply size_pos.
Qed.

Lemma rendered_text (lines : list string) :
  line_text <$> (font_render size self <$> lines) = lines.
Proof.
  induction lines as [|s lines IH]; [done|].
  by rewrite !fmap_cons, IH.
Qed.

(** X15: [render_surface] renders the pieces of the text between the
    backticks, one line per piece and in their order, so that no
    character but the backticks is lost.  Given a font that reports no
    negative size and a line spacing that is not negative, the surface is
    as wide as the widest line and as high as the lines and the spacing
    between them; every line lies inside the surface, centred
    horizontally up to one pixel; the first line is at the top, each
    further line is [line_spacing] below the line before it, and the last
    line ends at the bottom of the surface. *)
Theorem X15_render_surface_layout (text : string) :
  let R := render_surface size self text in
  let ls := font_render size self <$> split_on backtick text in
  (λ b : LineSurface * Z * Z, b.1.1) <$> blits R = ls ∧
  String.concat (String backtick EmptyString) (line_text <$> ls) = text ∧
  Forall (λ l, line_width l ≤ surf_width R) ls ∧
  (surf_width R = 0 ∨ ∃ l, l ∈ ls ∧ line_width l = surf_width R) ∧
  surf_height R = total (line_height <$> ls)
                  + (Z.of_nat (length ls) - 1) * line_spacing self ∧
  Forall (λ b : LineSurface * Z * Z,
            0 ≤ b.1.2 ∧ b.1.2 + line_width b.1.1 ≤ surf_width R ∧
            0 ≤ surf_width R - line_width b.1.1 - 2 * b.1.2 ≤ 1 ∧
            0 ≤ b.2 ∧ b.2 + line_height b.1.1 ≤ surf_height R)
         (blits R) ∧
  (∀ i b b', blits R !! i = Some b → blits R !! S i = Some b' →
             b'.2 = b.2 + line_height b.1.1 + line_spacing self) ∧
  (∃ b, head (blits R) = Some b ∧ b.2 = 0) ∧
  (∃ b, last (blits R) = Some b ∧ b.2 + line_height b.1.1 = surf_height R).
Proof.
  intros R ls. destruct (render_surface_eq text) as (mw & E & Hall & Hmax).
  fold ls in E, Hall, Hmax. fold R in E.
  pose proof (rendered_lines_pos text) as Hpos. fold ls in Hpos.
  rewrite E. cbn [surf_width surf_height blits].
  split; [apply stacked_lines|]. split.
  { unfold ls. rewrite rendered_text. apply split_on_join. }
  split; [done|]. split; [done|]. split; [done|]. split.
  { apply stacked_inside; try done; lia. }
  split; [intros i b b'; apply stacked_step|].
  unfold ls. destruct (split_on_cons backtick text) as (p & ps & Ep).
  rewrite Ep. rewrite fmap_cons. split.
  - cbn [stacked]. by eexists.
  - set (ls' := font_render size self p :: (font_render size self <$> ps)).
    destruct (last (stacked mw (line_spacing self) 0 ls')) as [b|] eqn:Hb.
    + exists b. split; [done|]. rewrite (stacked_last _ _ _ _ _ Hb). lia.
    + apply last_None in Hb. discriminate.
Qed.

End Layout.

Lemma X15_render_surface_layout_witness :
  let R := TextRenderer.render_surface example_size example_renderer
             "ride`a`bike" in
  TextRenderer.surf_width R = 40 ∧ TextRenderer.surf_height R = 68 ∧
  ((λ b : TextRenderer.LineSurface * Z * Z,
      (TextRenderer.line_text b.1.1, b.1.2, b.2)) <$> TextRenderer.blits R)
    = [("ride", 0, 0); ("a", 15, 24); ("bike", 0, 48)] ∧
  ∃ b, last (TextRenderer.blits R) = Some b ∧
       b.2 + TextRenderer.line_height b.1.1 = TextRenderer.surf_height R.
Proof.
  intros R.
  assert (Hsize : ∀ s,
    0 ≤ (example_size (TextRenderer.font example_renderer) s).1 ∧
    0 ≤ (example_size (TextRenderer.font example_renderer) s).2).
  { intros s. unfold example_size. simpl. lia. }
  assert (Hsp : 0 ≤ TextRenderer.line_spacing example_renderer)
    by (simpl; lia).
  destruct (X15_render_surface_layout example_size example_renderer
              Hsize Hsp "ride`a`bike") as (_ & _ & _ & _ & _ & _ & _ & _ & Hl).
  split; [reflexivity|]. split; [reflexivity|].
  split; [reflexivity|exact Hl].
Defined.
